(** * SeismicMesh: the isotropic mesh size function

    A shallow embedding of [SeismicMesh/mesh_size_function.py] and
    [SeismicMesh/gradient_limiter.py].

    Numbers.  Every number the sizing pipeline touches is a NumPy [float64]
    (or a Python [float], which is the same IEEE 754 binary64 format), so the
    pipeline is embedded over Rocq's primitive [float]: [+], [*], [/], [<]
    are the correctly rounded binary64 operations, [infinity] is [np.inf] and
    a division by zero yields an infinity or a NaN exactly as NumPy's array
    arithmetic does.  Python [int] arguments (such as [hmin = 100]) are taken
    at the [float64] value NumPy converts them to.

    Objects.  A [MeshSizeFunction] instance lives in a store and is addressed
    by a location; methods are state transformers that may raise.  Attribute
    access written inside the class goes through Python's private name
    mangling.

    Libraries.  [segyio] maps a file name to the samples and traces of the
    file, or to the exception it raises for it; [RegularGridInterpolator] is
    the record of its arguments (its validation of the grid and its queries
    are not modelled); [print] is omitted.  The compiled kernel
    [FastHJ.limgrad] has no source in the package and is modelled from the
    specification, on binary64 numbers like the rest of the pipeline; the
    order in which its passes visit the cells, which the specification leaves
    open, is an interface with the two orders the specification names as
    instances.  The signed distance [fd] is evaluated at one point at a
    time.

    Real numbers.  Where a property bounds the error of the binary64
    arithmetic, it is stated over the reals, through the real number a float
    stands for; the theory of rounding it needs is developed here from the
    definitions of [SpecFloat]. *)

From Stdlib Require Import Floats Uint63 ZArith Rbase Rbasic_fun Rfunctions Lra Lia.
From stdpp Require Import base option list gmap strings.

Open Scope string_scope.

(** ** Python runtime: exceptions, results, name mangling *)

Module Py.

Inductive exn : Type :=
| AssertionError (msg : string)
| AttributeError (attr : string)
| TypeError (msg : string)
| ValueError (msg : string)
| IndexError (msg : string)
| ZeroDivisionError (msg : string)
| OSError (fname : string).

Inductive result (A : Type) : Type :=
| Ok (a : A)
| Raise (e : exn).
Arguments Ok {A} a.
Arguments Raise {A} e.

#[export] Instance result_ret : MRet result := fun A a => Ok a.
#[export] Instance result_bind : MBind result := fun A B k m =>
  match m with
  | Ok a => k a
  | Raise e => Raise e
  end.

(** Values whose dynamic type the code inspects ([isinstance(value, str)]). *)
Inductive value : Type :=
| PyNone
| PyInt (n : Z)
| PyFloat (x : float)
| PyStr (s : string).

Definition isinstance_str (v : value) : bool :=
  match v with
  | PyStr _ => true
  | _ => false
  end.

Fixpoint ends_with (suffix s : string) : bool :=
  if String.eqb suffix s then true
  else match s with
       | EmptyString => false
       | String _ s' => ends_with suffix s'
       end.

(** Private name mangling: inside the body of class [cls] an identifier that
    starts with two underscores and does not end with two underscores is
    rewritten to [_cls__name] at compile time. *)
Definition mangle (cls name : string) : string :=
  if String.prefix "__" name && negb (ends_with "__" name)
  then "_" ++ cls ++ name
  else name.

End Py.
Export Py.

(** ** NumPy: two-dimensional [float64] arrays and the operations used *)

Module Np.

Abbreviation matrix := (list (list float)).

Definition inf : float := infinity.

Definition zeros (nz nx : nat) : matrix := replicate nz (replicate nx 0%float).

(** [np.shape] of a two-dimensional array (an array without rows has no
    columns either). *)
Definition shape {A} (m : list (list A)) : nat * nat :=
  (length m, match m with [] => 0%nat | row :: _ => length row end).

(** [m + s], [m * s], [m / s] with a scalar [s]. *)
Definition add_scalar (m : matrix) (s : float) : matrix :=
  fmap (M:=list) (fmap (M:=list) (fun x => x + s)%float) m.
Definition mul_scalar (m : matrix) (s : float) : matrix :=
  fmap (M:=list) (fmap (M:=list) (fun x => x * s)%float) m.
Definition div_scalar (m : matrix) (s : float) : matrix :=
  fmap (M:=list) (fmap (M:=list) (fun x => x / s)%float) m.

(** [a / b], elementwise. *)
Definition div (a b : matrix) : matrix :=
  zip_with (zip_with (fun x y => x / y)%float) a b.

(** [m < s] and [m > s]: arrays of booleans. *)
Definition lt_scalar (m : matrix) (s : float) : list (list bool) :=
  fmap (M:=list) (fmap (M:=list) (fun x => x <? s)%float) m.
Definition gt_scalar (m : matrix) (s : float) : list (list bool) :=
  fmap (M:=list) (fmap (M:=list) (fun x => s <? x)%float) m.

(** [np.where(cond, s, m)] with a scalar [s], and [np.where(cond, a, m)]. *)
Definition where_scalar (cond : list (list bool)) (s : float) (m : matrix) : matrix :=
  zip_with (zip_with (fun (c : bool) x => if c then s else x)) cond m.
Definition where_ (cond : list (list bool)) (a m : matrix) : matrix :=
  zip_with (fun crow am => zip_with (fun (c : bool) (xy : float * float) =>
                                       if c then xy.1 else xy.2) crow am)
           cond (zip_with zip a m).

(** [np.all]. *)
Definition all (cond : list (list bool)) : bool :=
  forallb (forallb id) cond.

(** [np.flipud]: reverse the order of the rows. *)
Definition flipud (m : matrix) : matrix := reverse m.

Definition of_nat (n : nat) : float := of_uint63 (Uint63.of_Z (Z.of_nat n)).

(** [np.linspace(start, stop, num)] with the default [endpoint=True]. *)
Definition linspace (start stop : float) (num : nat) : list float :=
  let div := (num - 1)%nat in
  let y := fmap of_nat (seq 0 num) in
  let delta := (stop - start)%float in
  let y :=
    if decide (0 < div)%nat then
      let step := (delta / of_nat div)%float in
      if (step =? 0)%float
      then fmap (fun v => v / of_nat div * delta)%float y
      else fmap (fun v => v * step)%float y
    else fmap (fun v => v * delta)%float y in
  let y := fmap (fun v => v + start)%float y in
  if decide (1 < num)%nat then <[(num - 1)%nat := stop]> y else y.

(** The cell [m[i][j]]. *)
Definition cell {A} (m : list (list A)) (i j : nat) : option A :=
  row ← m !! i; row !! j.

(** [np.meshgrid(z, x, indexing="ij")]: [zg[i][j] = z[i]], [xg[i][j] = x[j]]. *)
Definition meshgrid_ij (z x : list float) : matrix * matrix :=
  ((fun zi => (fun _ => zi) <$> x) <$> z, (fun _ => x) <$> z).

(** [a.min()] of a two-dimensional array: a NaN, once met, is the result. *)
Definition amin (m : matrix) : result float :=
  match concat m with
  | [] => Raise (ValueError "zero-size array to reduction operation minimum")
  | x :: xs =>
      Ok (foldl (fun a y => if is_nan a then a
                            else if is_nan y then y
                            else if (y <? a)%float then y else a) x xs)
  end.

End Np.

(** ** The gradient limiter ([gradient_limiter.py] and the [FastHJ] kernel) *)

(** Modelled from the spec: the order of the passes of the kernel.  Section
    4.2 of the specification leaves it open ("sweep direction alternates (or
    all four axis directions are swept each pass: forward rows, backward
    rows, forward columns, backward columns)"), so the kernel is written over
    this interface: [visit t nz nx] lists the (cell, neighbour) pairs, by
    their flat indices, in the order in which pass number [t] clamps them. *)
Class Sweep : Type := {
  visit : nat → nat → nat → list (nat * nat);
}.

Module FastHJ.

(** Modelled from the spec: flat (column-major) index of the cell in row [i]
    and column [j] of a grid with [nz] rows, as the kernel addresses the field
    [hj] hands it. *)
Definition index (nz i j : nat) : nat := i + nz * j.

(** Modelled from the spec: the in-bounds 4-neighbours of the cell with flat
    index [k] ("up/down/left/right; edge cells use only in-bounds neighbors",
    "no wraparound"). *)
Definition neighbours (nz nx k : nat) : list nat :=
  let i := k `mod` nz in
  let j := k `div` nz in
  (if decide (0 < i) then [index nz (i - 1) j] else []) ++
  (if decide (i + 1 < nz) then [index nz (i + 1) j] else []) ++
  (if decide (0 < j) then [index nz i (j - 1)] else []) ++
  (if decide (j + 1 < nx) then [index nz i (j + 1)] else []).

(** Modelled from the spec: the cells column after column ("forward
    columns"), which is the order of the flat field. *)
Definition by_columns (nz nx : nat) : list nat := seq 0 (nz * nx).

(** Modelled from the spec: the cells row after row ("forward rows"). *)
Definition by_rows (nz nx : nat) : list nat :=
  i ← seq 0 nz; (fun j => index nz i j) <$> seq 0 nx.

(** Modelled from the spec: the (cell, neighbour) pairs met when the cells
    are visited in the order [cells] ("for each cell, and for each of its
    4-neighbors"). *)
Definition pairs (nz nx : nat) (cells : list nat) : list (nat * nat) :=
  k ← cells; (fun n => (k, n)) <$> neighbours nz nx k.

(** Modelled from the spec: "sweep direction alternates". *)
#[global] Instance alternating : Sweep := {|
  visit t nz nx :=
    pairs nz nx
      (if Nat.even t then by_columns nz nx else reverse (by_columns nz nx));
|}.

(** Modelled from the spec: "all four axis directions are swept each pass:
    forward rows, backward rows, forward columns, backward columns". *)
Definition four_directions : Sweep := {|
  visit t nz nx :=
    pairs nz nx
      (by_rows nz nx ++ reverse (by_rows nz nx) ++
       by_columns nz nx ++ reverse (by_columns nz nx))%list;
|}.

Section Limgrad.
Context {sweeps : Sweep}.

(** Modelled from the spec: the kernel's update of one neighbour,
    [h[neighbor] = min(h[neighbor], h[cell] + g·Δ)]; the flag tells whether a
    value changed ("track whether any value changed during the pass"). *)
Definition relax (c : float) (st : list float * bool) (e : nat * nat)
  : list float * bool :=
  let '(h, changed) := st in
  match h !! e.1, h !! e.2 with
  | Some hk, Some hn =>
      if (hk + c <? hn)%float then (<[e.2 := (hk + c)%float]> h, true) else (h, changed)
  | _, _ => (h, changed)
  end.

(** Modelled from the spec: one pass of the kernel over the grid, in place. *)
Definition sweep (es : list (nat * nat)) (c : float) (h : list float)
  : list float * bool :=
  foldl (relax c) (h, false) es.

(** Modelled from the spec: the kernel's passes are repeated until one
    changes nothing or [imax] are done ("terminate early when a pass produces
    no change or when maxIterations is exhausted"); [t] counts the passes done
    and the flag tells whether the fixed point was reached. *)
Fixpoint iterate (nz nx : nat) (c : float) (t imax : nat) (h : list float)
  : list float * bool :=
  match imax with
  | O => (h, false)
  | S imax' =>
      let '(h', changed) := sweep (visit t nz nx) c h in
      if changed then iterate nz nx c (S t) imax' h' else (h', true)
  end.

(** Modelled from the spec: [FastHJ.limgrad], the compiled gradient-limiting
    kernel, whose source is not part of the Python package.  Section 4.2 of
    the specification: repeat up to [maxIterations] passes; in a pass every
    cell clamps each of its in-bounds 4-neighbours,
    [h[neighbor] = min(h[neighbor], h[cell] + g·Δ)]; stop early when a pass
    produces no change; after the cap the partially limited field is
    returned.  [dims] is [[nz, nx, 1]], the field is a flat list of Python
    floats, column-major. *)
Definition limgrad_run (dims : list nat) (elen grade : float) (imax : nat)
    (ffun : list float) : list float * bool :=
  let nz := default 0 (dims !! 0) in
  let nx := default 0 (dims !! 1) in
  iterate nz nx (grade * elen)%float 0 imax ffun.

(** Modelled from the spec: [FastHJ.limgrad] returns the field only. *)
Definition limgrad (dims : list nat) (elen grade : float) (imax : nat)
    (ffun : list float) : list float :=
  (limgrad_run dims elen grade imax ffun).1.

End Limgrad.
End FastHJ.

Module gradient_limiter.
Section Conversions.
Context {T : Type}.

(** [fun.flatten("F")]: the columns one after the other. *)
Definition flatten_F (nz nx : nat) (m : list (list T)) : list T :=
  j ← seq 0 nx; omap (fun i => Np.cell m i j) (seq 0 nz).

(** [np.reshape(tmp, (nz, nx), "F")]. *)
Definition reshape_F (nz nx : nat) (l : list T) : result (list (list T)) :=
  if decide (length l = nz * nx)
  then Ok ((fun i => omap (fun j => l !! FastHJ.index nz i j) (seq 0 nx)) <$> seq 0 nz)
  else Raise (ValueError "cannot reshape array").

End Conversions.

(** [hj(fun, elen, grade, imax)]: a wrapper to call the gradient limiter. *)
Definition hj {sweeps : Sweep} (fun_ : Np.matrix) (elen grade : float) (imax : nat)
  : result Np.matrix :=
  let '(_nz, _nx) := Np.shape fun_ in
  let ffun := flatten_F _nz _nx fun_ in
  let tmp := FastHJ.limgrad [_nz; _nx; 1] elen grade imax ffun in
  reshape_F _nz _nx tmp.

End gradient_limiter.

(** ** The environment: seg-y files as [segyio] presents them *)

Record segy_file : Type := {
  samples : list float;          (* [f.samples] *)
  trace : list (list float);     (* [f.trace], one array per trace *)
}.

(** What [segyio] does with each file name, in
    [segyio.open(fname, ignore_geometry=True)] and in reading [f.samples] and
    [f.trace]: it presents the samples and the traces of the file, or it
    raises ([OSError] when there is no such file, [IndexError] when the file
    holds no trace, and so on for a file it cannot read).  The reader changes
    no state before it has read the traces, so where in the reading [segyio]
    raises makes no difference to what the reader does. *)
Definition filesystem : Type := string → result segy_file.

(** A trace fits a model of [nz_] samples when it has one value per sample,
    or a single value (which NumPy broadcasts down the column). *)
Definition fits (nz_ : nat) (tr : list float) : Prop :=
  length tr = nz_ ∨ length tr = 1%nat.

#[export] Instance fits_dec (nz_ : nat) (tr : list float) : Decision (fits nz_ tr).
Proof. unfold fits. apply _. Defined.

(** The value row [i] receives from a trace that fits: its [i]-th sample, or
    its single sample when the trace is broadcast. *)
Definition sample_for (nz_ : nat) (tr : list float) (i : nat) : option float :=
  if decide (length tr = nz_) then tr !! i else tr !! 0%nat.

(** ** [class MeshSizeFunction] *)

Module MeshSizeFunction.

Definition class_name : string := "MeshSizeFunction".

(** The names bound in the class body: the properties and the methods. *)
Definition class_body : list string :=
  [ "__init__"; "fh"; "fd"; "bbox"; "hmin"; "vp"; "nz"; "nx"; "segy"; "wl";
    "freq"; "hmax"; "dt"; "cr_max"; "grade"; "build"; "plot";
    "GetDomainMatrices"; "hj"; "__drectangle"; "__ReadVelocityModel";
    "__CreateDomainVectors"; "__CreateDomainMatrices" ].

(** The instance attributes the property setters assign. *)
Definition setter_slots : list string :=
  [ "__fh"; "__fd"; "__bbox"; "__hmin"; "__vp"; "__nz"; "__nx"; "__segy";
    "__wl"; "__freq"; "__hmax"; "__dt"; "__cr_max"; "__grade" ].

(** Both lists are written inside the class, so both are mangled. *)
Definition namespace : list string :=
  mangle class_name <$> (class_body ++ setter_slots)%list.

(** [self.name], written inside the class body. *)
Definition getattr (name : string) : result string :=
  let n := mangle class_name name in
  if bool_decide (n ∈ namespace) then Ok n else Raise (AttributeError n).

(** [RegularGridInterpolator((z_vec, x_vec), hh_m, bounds_error=False)]: the
    grid vectors and the field it interpolates.  The record is what the
    constructor is given; SciPy's own validation of the grid (it raises
    [ValueError] when an axis is not strictly monotone) is outside this
    model, so what is proved of the interpolant is proved of a [build] that
    returned. *)
Record interpolator : Type := {
  points_z : list float;
  points_x : list float;
  values : Np.matrix;
}.

Definition loc : Type := positive.

(** [lambda p: self.drectangle(p, _bbox[0], _bbox[1], _bbox[2], _bbox[3])]:
    the closure keeps [self] and [_bbox]. *)
Record closure : Type := {
  closure_self : loc;
  closure_bbox : list float;
}.

(** The state of an instance.  [None] is Python's [None] (for [vp], which
    [__init__] does not assign: not yet set). *)
Record obj : Type := {
  bbox : list float;
  hmin : float;
  segy : string;
  wl : float;
  freq : float;
  hmax : float;
  dt : float;
  cr_max : float;
  grade : float;
  vp : option Np.matrix;
  nz : option nat;
  nx : option nat;
  fh : option interpolator;
  fd : option closure;
}.

Abbreviation store := (gmap loc obj).

(** Methods: state transformers over the store that may raise. *)
Definition M (A : Type) : Type := store → result A * store.

#[export] Instance M_ret : MRet M := fun A a σ => (Ok a, σ).
#[export] Instance M_bind : MBind M := fun A B k m σ =>
  match m σ with
  | (Ok a, σ') => k a σ'
  | (Raise e, σ') => (Raise e, σ')
  end.

Definition lift {A} (r : result A) : M A := fun σ => (r, σ).

Definition read (self : loc) : M obj := fun σ =>
  match σ !! self with
  | Some o => (Ok o, σ)
  | None => (Raise (TypeError "no such object"), σ)
  end.

Definition write (self : loc) (f : obj → obj) : M () := fun σ =>
  match σ !! self with
  | Some o => (Ok (), <[self := f o]> σ)
  | None => (Raise (TypeError "no such object"), σ)
  end.

(** *** Setters *)

(** [bbox.setter] *)
Definition bbox_setter (value : list float) : result (list float) :=
  if bool_decide (4 ≤ length value)%nat && bool_decide (length value ≤ 6)%nat
  then Ok value
  else Raise (AssertionError "bbox has wrong number of args").

(** [hmin.setter] *)
Definition hmin_setter (value : float) : result float :=
  if (0 <? value)%float then Ok value
  else Raise (AssertionError "hmin must be non-zero").

(** [segy.setter] *)
Definition segy_setter (value : Py.value) : result string :=
  match value with
  | PyStr s => Ok s
  | _ => Raise (AssertionError "segy must be a filename")
  end.

(** The setters of [vp], [nz], [nx], [fh], [fd] check nothing. *)
Definition set_vp (v : Np.matrix) (o : obj) : obj :=
  {| bbox := bbox o; hmin := hmin o; segy := segy o; wl := wl o; freq := freq o;
     hmax := hmax o; dt := dt o; cr_max := cr_max o; grade := grade o;
     vp := Some v; nz := nz o; nx := nx o; fh := fh o; fd := fd o |}.
Definition set_nz (v : nat) (o : obj) : obj :=
  {| bbox := bbox o; hmin := hmin o; segy := segy o; wl := wl o; freq := freq o;
     hmax := hmax o; dt := dt o; cr_max := cr_max o; grade := grade o;
     vp := vp o; nz := Some v; nx := nx o; fh := fh o; fd := fd o |}.
Definition set_nx (v : nat) (o : obj) : obj :=
  {| bbox := bbox o; hmin := hmin o; segy := segy o; wl := wl o; freq := freq o;
     hmax := hmax o; dt := dt o; cr_max := cr_max o; grade := grade o;
     vp := vp o; nz := nz o; nx := Some v; fh := fh o; fd := fd o |}.
Definition set_fh (v : interpolator) (o : obj) : obj :=
  {| bbox := bbox o; hmin := hmin o; segy := segy o; wl := wl o; freq := freq o;
     hmax := hmax o; dt := dt o; cr_max := cr_max o; grade := grade o;
     vp := vp o; nz := nz o; nx := nx o; fh := Some v; fd := fd o |}.
Definition set_fd (v : closure) (o : obj) : obj :=
  {| bbox := bbox o; hmin := hmin o; segy := segy o; wl := wl o; freq := freq o;
     hmax := hmax o; dt := dt o; cr_max := cr_max o; grade := grade o;
     vp := vp o; nz := nz o; nx := nx o; fh := fh o; fd := Some v |}.

(** *** [__init__] *)

(** The keyword arguments with their defaults: [wl=0.0], [freq=5.0],
    [hmax=np.inf], [dt=0.0], [cr_max=0.2], [grade=0.0]. *)
Record kwargs : Type := {
  kw_wl : float;
  kw_freq : float;
  kw_hmax : float;
  kw_dt : float;
  kw_cr_max : float;
  kw_grade : float;
}.

Definition defaults : kwargs :=
  {| kw_wl := 0; kw_freq := 5; kw_hmax := Np.inf; kw_dt := 0;
     kw_cr_max := 0x1.999999999999ap-3; kw_grade := 0 |}.

(** The assignments of [__init__], in order; each goes through its setter. *)
Definition init (bbox_ : list float) (hmin_ : float) (segy_ : Py.value) (kw : kwargs)
  : result obj :=
  b ← bbox_setter bbox_;
  h ← hmin_setter hmin_;
  s ← segy_setter segy_;
  mret {| bbox := b; hmin := h; segy := s;
          wl := kw_wl kw; freq := kw_freq kw; hmax := kw_hmax kw;
          dt := kw_dt kw; cr_max := kw_cr_max kw; grade := kw_grade kw;
          vp := None; nz := None; nx := None; fh := None; fd := None |}.

(** [MeshSizeFunction(bbox, hmin, segy, **kwargs)]: a fresh object, kept only
    if [__init__] returns. *)
Definition new (bbox_ : list float) (hmin_ : float) (segy_ : Py.value) (kw : kwargs)
  : M loc := fun σ =>
  match init bbox_ hmin_ segy_ kw with
  | Ok o => let l := fresh (dom σ) in (Ok l, <[l := o]> σ)
  | Raise e => (Raise e, σ)
  end.

(** *** Private methods *)

(** The builtins [max] and [min] over a sequence: the first element, replaced
    by each later one that compares greater (smaller). *)
Definition py_max (l : list float) : result float :=
  match l with
  | [] => Raise (ValueError "max() arg is an empty sequence")
  | x :: xs => Ok (foldl (fun m y => if (m <? y)%float then y else m) x xs)
  end.
Definition py_min (l : list float) : result float :=
  match l with
  | [] => Raise (ValueError "min() arg is an empty sequence")
  | x :: xs => Ok (foldl (fun m y => if (y <? m)%float then y else m) x xs)
  end.

(** [min(a, b)] of two numbers. *)
Definition min2 (a b : float) : float := if (b <? a)%float then b else a.

(** [x / n] of a Python float by a Python int. *)
Definition py_div (x : float) (n : nat) : result float :=
  if decide (n = 0%nat) then Raise (ZeroDivisionError "float division by zero")
  else Ok (x / Np.of_nat n)%float.

(** [__drectangle(p, x1, x2, y1, y2)] at one point [p = (p[0], p[1])]. *)
Definition drectangle (p : float * float) (x1 x2 y1 y2 : float) : float :=
  (- min2 (min2 (min2 (- y1 + p.2) (y2 - p.2)) (- x1 + p.1)) (x2 - p.1))%float.

(** [vp[:, index] = trace]: the trace must have one value per row (or be a
    single value, which is broadcast). *)
Definition assign_column (vp_ : Np.matrix) (index : nat) (tr : list float)
  : result Np.matrix :=
  if decide (length tr = length vp_)
  then Ok (zip_with (fun row x => <[index := x]> row) vp_ tr)
  else match tr with
       | [x] => Ok ((fun row => <[index := x]> row) <$> vp_)
       | _ => Raise (ValueError "could not broadcast input array")
       end.

(** The loop [for trace in f.trace: vp[:, index] = trace; index += 1]. *)
Fixpoint fill_columns (vp_ : Np.matrix) (index : nat) (traces : list (list float))
  : result Np.matrix :=
  match traces with
  | [] => Ok vp_
  | tr :: rest =>
      vp' ← assign_column vp_ index tr;
      fill_columns vp' (S index) rest
  end.

(** [__ReadVelocityModel]: reads the velocity model from the seg-y file. *)
Definition ReadVelocityModel (fs : filesystem) (o : obj)
  : result (Np.matrix * nat * nat) :=
  let _fname := segy o in
  match fs _fname with
  | Raise e => Raise e
  | Ok f =>
      let nz_ := length (samples f) in
      let nx_ := length (trace f) in
      let vp_ := Np.zeros nz_ nx_ in
      vp_ ← fill_columns vp_ 0 (trace f);
      Ok (Np.flipud vp_, nz_, nx_)
  end.

(** [__CreateDomainVectors] *)
Definition CreateDomainVectors (o : obj) : result (list float * list float) :=
  let _bbox := bbox o in
  match nx o, nz o with
  | Some _nx, Some _nz =>
      width ← py_max _bbox;
      depth ← py_min _bbox;
      let xvec := Np.linspace 0 width _nx in
      let zvec := Np.linspace depth 0 _nz in
      Ok (zvec, xvec)
  | _, _ => Raise (TypeError "object of type NoneType cannot be interpreted as an integer")
  end.

(** *** [build] *)

(** The sizes before gradation: the initial field, the wavelength criterion,
    and the enforcement of the minimum and (optionally) maximum sizes. *)
Definition sizes (_hmin _wl _freq _hmax : float) (_vp : Np.matrix) (_nz _nx : nat)
  : Np.matrix :=
  let hh_m := Np.add_scalar (Np.zeros _nz _nx) _hmin in
  let hh_m := if (0 <? _wl)%float then Np.div_scalar _vp (_freq * _wl)%float else hh_m in
  let hh_m := Np.where_scalar (Np.lt_scalar hh_m _hmin) _hmin hh_m in
  if (_hmax <? Np.inf)%float
  then Np.where_scalar (Np.gt_scalar hh_m _hmax) _hmax hh_m
  else hh_m.

(** The gradation step: [self.__hj(hh_m, width / _nx, _grade, 10000)].  The
    attribute is looked up first, then the arguments are evaluated. *)
Definition gradation (width _grade : float) (_nx : nat) (hh_m : Np.matrix)
  : result Np.matrix :=
  if (0 <? _grade)%float then
    _ ← getattr "__hj";
    elen ← py_div width _nx;
    gradient_limiter.hj hh_m elen _grade (100 * 100)
  else Ok hh_m.

(** The adjustment to the CFL limit. *)
Definition cfl (_dt _cr_max : float) (_vp hh_m : Np.matrix) : Np.matrix :=
  if (0 <? _dt)%float then
    let cr_old := Np.div (Np.mul_scalar _vp _dt) hh_m in
    let dxn := Np.div_scalar (Np.mul_scalar _vp _dt) _cr_max in
    Np.where_ (Np.gt_scalar cr_old _cr_max) dxn hh_m
  else hh_m.

Definition build (fs : filesystem) (self : loc) : M loc :=
  o ← read self;
  let _bbox := bbox o in
  width ← lift (py_max _bbox);
  _ ← lift (getattr "__ReadVelocityModel");
  '(_vp, _nz, _nx) ← lift (ReadVelocityModel fs o);
  write self (set_vp _vp);;
  write self (set_nz _nz);;
  write self (set_nx _nx);;
  o ← read self;
  let _hmax := hmax o in
  let _hmin := hmin o in
  let _grade := grade o in
  let _wl := wl o in
  let _freq := freq o in
  let _dt := dt o in
  let _cr_max := cr_max o in
  let hh_m := sizes _hmin _wl _freq _hmax _vp _nz _nx in
  hh_m ← lift (gradation width _grade _nx hh_m);
  let hh_m := cfl _dt _cr_max _vp hh_m in
  _ ← lift (getattr "__CreateDomainVectors");
  '(z_vec, x_vec) ← lift (CreateDomainVectors o);
  if Np.all (Np.gt_scalar hh_m 0) then
    let interpolant := {| points_z := z_vec; points_x := x_vec; values := hh_m |} in
    write self (set_fh interpolant);;
    write self (set_fd {| closure_self := self; closure_bbox := _bbox |});;
    mret self
  else
    lift (Raise (AssertionError "edge_size_function must be strictly positive.")).

(** Calling [self.fd], the lambda
    [lambda p: self.drectangle(p, _bbox[0], _bbox[1], _bbox[2], _bbox[3])]. *)
Definition call_fd (c : closure) (p : float * float) : result float :=
  _ ← getattr "drectangle";
  match closure_bbox c with
  | x1 :: x2 :: y1 :: y2 :: _ => Ok (drectangle p x1 x2 y1 y2)
  | _ => Raise (IndexError "tuple index out of range")
  end.

(** The field held by the interpolant of the instance at [l]. *)
Definition field_at (l : loc) (σ : store) : option Np.matrix :=
  o ← σ !! l; values <$> fh o.

(** The configuration fields of two states of an instance agree. *)
Definition same_configuration (o o' : obj) : Prop :=
  bbox o' = bbox o ∧ hmin o' = hmin o ∧ segy o' = segy o ∧ wl o' = wl o ∧
  freq o' = freq o ∧ hmax o' = hmax o ∧ dt o' = dt o ∧
  cr_max o' = cr_max o ∧ grade o' = grade o.

(** *** States of an instance during [build] *)

(** The instance after [self.vp], [self.nz], [self.nx] were assigned. *)
Definition loaded (o : obj) (_vp : Np.matrix) (_nz _nx : nat) : obj :=
  set_nx _nx (set_nz _nz (set_vp _vp o)).

(** The instance [build] returns, holding the interpolant of [hh_m]. *)
Definition built (self : loc) (o : obj) (_vp : Np.matrix) (_nz _nx : nat)
    (z_vec x_vec : list float) (hh_m : Np.matrix) : obj :=
  set_fd {| closure_self := self; closure_bbox := bbox o |}
    (set_fh {| points_z := z_vec; points_x := x_vec; values := hh_m |}
       (loaded o _vp _nz _nx)).

(** The field [build] hands to the interpolator when no gradation is asked. *)
Definition field (o : obj) (_vp : Np.matrix) (_nz _nx : nat) : Np.matrix :=
  cfl (dt o) (cr_max o) _vp (sizes (hmin o) (wl o) (freq o) (hmax o) _vp _nz _nx).

(** *** The rest of the public interface *)

(** [__CreateDomainMatrices] *)
Definition CreateDomainMatrices (o : obj) : result (Np.matrix * Np.matrix) :=
  _ ← getattr "__CreateDomainVectors";
  '(zvec, xvec) ← CreateDomainVectors o;
  Ok (Np.meshgrid_ij zvec xvec).

(** [GetDomainMatrices]: accessor to the private method. *)
Definition GetDomainMatrices (self : loc) : M (Np.matrix * Np.matrix) :=
  o ← read self;
  _ ← lift (getattr "__CreateDomainMatrices");
  lift (CreateDomainMatrices o).

(** The assignments a property setter makes. *)
Definition set_bbox (v : list float) (o : obj) : obj :=
  {| bbox := v; hmin := hmin o; segy := segy o; wl := wl o; freq := freq o;
     hmax := hmax o; dt := dt o; cr_max := cr_max o; grade := grade o;
     vp := vp o; nz := nz o; nx := nx o; fh := fh o; fd := fd o |}.
Definition set_hmin (v : float) (o : obj) : obj :=
  {| bbox := bbox o; hmin := v; segy := segy o; wl := wl o; freq := freq o;
     hmax := hmax o; dt := dt o; cr_max := cr_max o; grade := grade o;
     vp := vp o; nz := nz o; nx := nx o; fh := fh o; fd := fd o |}.
Definition set_segy (v : string) (o : obj) : obj :=
  {| bbox := bbox o; hmin := hmin o; segy := v; wl := wl o; freq := freq o;
     hmax := hmax o; dt := dt o; cr_max := cr_max o; grade := grade o;
     vp := vp o; nz := nz o; nx := nx o; fh := fh o; fd := fd o |}.
Definition set_wl (v : float) (o : obj) : obj :=
  {| bbox := bbox o; hmin := hmin o; segy := segy o; wl := v; freq := freq o;
     hmax := hmax o; dt := dt o; cr_max := cr_max o; grade := grade o;
     vp := vp o; nz := nz o; nx := nx o; fh := fh o; fd := fd o |}.
Definition set_freq (v : float) (o : obj) : obj :=
  {| bbox := bbox o; hmin := hmin o; segy := segy o; wl := wl o; freq := v;
     hmax := hmax o; dt := dt o; cr_max := cr_max o; grade := grade o;
     vp := vp o; nz := nz o; nx := nx o; fh := fh o; fd := fd o |}.
Definition set_hmax (v : float) (o : obj) : obj :=
  {| bbox := bbox o; hmin := hmin o; segy := segy o; wl := wl o; freq := freq o;
     hmax := v; dt := dt o; cr_max := cr_max o; grade := grade o;
     vp := vp o; nz := nz o; nx := nx o; fh := fh o; fd := fd o |}.
Definition set_dt (v : float) (o : obj) : obj :=
  {| bbox := bbox o; hmin := hmin o; segy := segy o; wl := wl o; freq := freq o;
     hmax := hmax o; dt := v; cr_max := cr_max o; grade := grade o;
     vp := vp o; nz := nz o; nx := nx o; fh := fh o; fd := fd o |}.
Definition set_cr_max (v : float) (o : obj) : obj :=
  {| bbox := bbox o; hmin := hmin o; segy := segy o; wl := wl o; freq := freq o;
     hmax := hmax o; dt := dt o; cr_max := v; grade := grade o;
     vp := vp o; nz := nz o; nx := nx o; fh := fh o; fd := fd o |}.
Definition set_grade (v : float) (o : obj) : obj :=
  {| bbox := bbox o; hmin := hmin o; segy := segy o; wl := wl o; freq := freq o;
     hmax := hmax o; dt := dt o; cr_max := cr_max o; grade := v;
     vp := vp o; nz := nz o; nx := nx o; fh := fh o; fd := fd o |}.

(** [self.bbox = value], [self.hmin = value], [self.segy = value] from
    outside [__init__]: the setter checks, then assigns. *)
Definition assign_bbox (self : loc) (value : list float) : M () :=
  v ← lift (bbox_setter value); write self (set_bbox v).
Definition assign_hmin (self : loc) (value : float) : M () :=
  v ← lift (hmin_setter value); write self (set_hmin v).
Definition assign_segy (self : loc) (value : Py.value) : M () :=
  v ← lift (segy_setter value); write self (set_segy v).

(** What reading an attribute yields. *)
Inductive attribute : Type :=
| AttrNone
| AttrFloat (x : float)
| AttrFloats (l : list float)
| AttrStr (s : string)
| AttrInt (n : nat)
| AttrArray (m : Np.matrix)
| AttrInterpolant (i : interpolator)
| AttrLambda (c : closure)
| AttrMethod (name : string).

Definition or_none {A} (f : A → attribute) (v : option A) : attribute :=
  match v with Some a => f a | None => AttrNone end.

(** The property getters: each returns its private slot; the slot of [vp]
    does not exist until [vp] is assigned. *)
Definition property_get (o : obj) (name : string) : option (result attribute) :=
  if String.eqb name "bbox" then Some (Ok (AttrFloats (bbox o)))
  else if String.eqb name "hmin" then Some (Ok (AttrFloat (hmin o)))
  else if String.eqb name "segy" then Some (Ok (AttrStr (segy o)))
  else if String.eqb name "wl" then Some (Ok (AttrFloat (wl o)))
  else if String.eqb name "freq" then Some (Ok (AttrFloat (freq o)))
  else if String.eqb name "hmax" then Some (Ok (AttrFloat (hmax o)))
  else if String.eqb name "dt" then Some (Ok (AttrFloat (dt o)))
  else if String.eqb name "cr_max" then Some (Ok (AttrFloat (cr_max o)))
  else if String.eqb name "grade" then Some (Ok (AttrFloat (grade o)))
  else if String.eqb name "vp" then
    Some (match vp o with
          | Some m => Ok (AttrArray m)
          | None => Raise (AttributeError (mangle class_name "__vp"))
          end)
  else if String.eqb name "nz" then Some (Ok (or_none AttrInt (nz o)))
  else if String.eqb name "nx" then Some (Ok (or_none AttrInt (nx o)))
  else if String.eqb name "fh" then Some (Ok (or_none AttrInterpolant (fh o)))
  else if String.eqb name "fd" then Some (Ok (or_none AttrLambda (fd o)))
  else None.

(** [ef.name], written outside the class (no mangling): a property, the
    private slot of a property, a method, or nothing. *)
Definition getattr_public (o : obj) (name : string) : result attribute :=
  match property_get o name with
  | Some r => r
  | None =>
      match List.find (fun p => String.eqb name (mangle class_name ("__" +:+ p)))
                      [ "fh"; "fd"; "bbox"; "hmin"; "vp"; "nz"; "nx"; "segy"; "wl";
                        "freq"; "hmax"; "dt"; "cr_max"; "grade" ] with
      | Some p =>
          match property_get o p with
          | Some (Ok a) => Ok a
          | _ => Raise (AttributeError name)
          end
      | None =>
          if bool_decide (name ∈ namespace) then Ok (AttrMethod name)
          else Raise (AttributeError name)
      end
  end.

(** The four offsets [__drectangle] takes the minimum of: from the sides
    [y1], [y2] ([p[1]]) and [x1], [x2] ([p[0]]). *)
Definition drectangle_offsets (p : float * float) (x1 x2 y1 y2 : float) : list float :=
  [(- y1 + p.2)%float; (y2 - p.2)%float; (- x1 + p.1)%float; (x2 - p.1)%float].

(** An instance as the setters keep it: a bounding box of 4 to 6 values and
    a strictly positive [hmin]. *)
Definition well_formed (o : obj) : Prop :=
  (4 ≤ length (bbox o) ≤ 6)%nat ∧ (0 <? hmin o)%float = true.

End MeshSizeFunction.

(** ** Binary64 numbers as real numbers

    What the correctly rounded operations compute, stated over the reals:
    the real number a float stands for, and the rounding to nearest (ties to
    even) that every operation ends with. *)

Module Real64.

(** [2^e] as a real number. *)
Definition bpow (e : Z) : R := powerRZ 2 e.

(** The real [t] lies in [[m, m+1)] at the place the location tells. *)
Definition inbetween (m : Z) (t : R) (l : location) : Prop :=
  match l with
  | loc_Exact => t = IZR m
  | loc_Inexact Lt => (IZR m < t < IZR m + / 2)%R
  | loc_Inexact Eq => t = (IZR m + / 2)%R
  | loc_Inexact Gt => (IZR m + / 2 < t < IZR m + 1)%R
  end.

(** The real number a finite float stands for, with the infinities at
    [±2^emax] (above every finite float) and a NaN at 0. *)
Definition SF2R (x : spec_float) : R :=
  match x with
  | S754_zero _ => 0
  | S754_infinity s => if s then (- bpow emax)%R else bpow emax
  | S754_nan => 0
  | S754_finite s m e => (IZR (cond_Zopp s (Zpos m)) * bpow e)%R
  end.

Definition F2R (x : float) : R := SF2R (Prim2SF x).

(** A positive normal number: at least [2^-1022], the least of them, and
    finite. *)
Definition is_normal (x : float) : bool :=
  (0x1p-1022 <=? x)%float && is_finite x.

(** The float with sign [s] that the rounded mantissa [m] at exponent [E]
    stands for: a mantissa that reached [2^prec] moves to the next exponent,
    an exponent above [emax - prec] overflows. *)
Definition SFpack (s : bool) (m E : Z) : spec_float :=
  match m with
  | Z0 => S754_zero s
  | Zpos p =>
      if (m <? 2 ^ prec)%Z
      then (if (E <=? emax - prec)%Z then S754_finite s p E else S754_infinity s)
      else (if (E + 1 <=? emax - prec)%Z
            then S754_finite s (Z.to_pos (2 ^ (prec - 1))) (E + 1)
            else S754_infinity s)
  | Zneg _ => S754_nan
  end.

(** [E] is the exponent of the floats around the real [X >= 0]. *)
Definition canon_exp (X : R) (E : Z) : Prop :=
  (emin <= E)%Z ∧ (X < bpow (E + prec))%R ∧ ((emin < E)%Z → (bpow (E + prec - 1) <= X)%R).

(** [z] is the float with sign [s] nearest (ties to even) to the magnitude
    [X >= 0], as the rounding step of the operations computes it. *)
Definition rounds (s : bool) (X : R) (z : spec_float) : Prop :=
  (0 <= X)%R ∧
  ∃ E m l, canon_exp X E ∧ (0 <= m)%Z ∧ inbetween m (X * bpow (- E)) l ∧
           z = SFpack s (round_nearest_even m l) E.

Definition sign_factor (s : bool) : R := if s then (-1)%R else 1%R.

(** The same for a real of either sign. *)
Definition rounds_to (Y : R) (z : spec_float) : Prop :=
  ∃ s X, rounds s X z ∧ Y = (sign_factor s * X)%R.

End Real64.

(** ** Claims as the specification words them *)

Module Spec.

(** Clamp [raw] to [[lo, hi]] as the specification describes it: a value
    below [lo] is raised to [lo]; then, if [hi] is finite, a value above [hi]
    is lowered to [hi]. *)
Definition clamp (raw lo hi : float) : float :=
  let x := if (raw <? lo)%float then lo else raw in
  if is_finite hi then (if (hi <? x)%float then hi else x) else x.

(** The same with the guard the code evaluates, [hi < inf]. *)
Definition clamp_below_inf (raw lo hi : float) : float :=
  let x := if (raw <? lo)%float then lo else raw in
  if (hi <? Np.inf)%float then (if (hi <? x)%float then hi else x) else x.

(** The raw size of a cell with velocity [v]. *)
Definition raw (_hmin _wl _freq v : float) : float :=
  if (0 <? _wl)%float then (v / (_freq * _wl))%float else _hmin.

(** The CFL adjustment is triggered at cell [(i, j)]. *)
Definition cfl_triggered (_dt _cr_max : float) (_vp hh_m : Np.matrix) (i j : nat) : bool :=
  (0 <? _dt)%float &&
  match Np.cell _vp i j, Np.cell hh_m i j with
  | Some v, Some h => (_cr_max <? v * _dt / h)%float
  | _, _ => false
  end.

(** A configuration the constructor must reject: a bounding box with fewer
    than 4 or more than 6 values, an [hmin] that is not strictly positive, or
    a [segy] that is not a string. *)
Definition rejected (bbox_ : list float) (hmin_ : float) (segy_ : Py.value) : Prop :=
  (length bbox_ < 4 ∨ 6 < length bbox_) ∨
  (0 <? hmin_)%float = false ∨
  isinstance_str segy_ = false.

(** Every pass clamps every (cell, neighbour) pair of the grid, and nothing
    else, in whatever order. *)
Definition covers (sweeps : Sweep) : Prop :=
  ∀ t nz nx k n,
    (k, n) ∈ visit t nz nx ↔ k < nz * nx ∧ n ∈ FastHJ.neighbours nz nx k.

(** A field over the flat grid is admissible for the limiter: nowhere above
    [h], and along every (cell, neighbour) pair it grows by at most [c], the
    sum being the binary64 one. *)
Definition below (f h : list float) : Prop :=
  length f = length h ∧
  ∀ k x y, f !! k = Some x → h !! k = Some y → (x <=? y)%float = true.

Definition graded (es : list (nat * nat)) (c : float) (f : list float) : Prop :=
  ∀ k n x y, (k, n) ∈ es → f !! k = Some x → f !! n = Some y →
    (y <=? x + c)%float = true.

(** [x] after [d] steps of growth [c] each: [((x + c) + c) + ...]. *)
Fixpoint steps (c : float) (d : nat) (x : float) : float :=
  match d with
  | O => x
  | S d' => (steps c d' x + c)%float
  end.

(** The number of grid steps between the cells with flat indices [a] and [b]
    of a grid with [nz] rows. *)
Definition dist (nz a b : nat) : nat :=
  (a `mod` nz - b `mod` nz) + (b `mod` nz - a `mod` nz) +
  (a `div` nz - b `div` nz) + (b `div` nz - a `div` nz).

(** The two bounds that [t] passes over the field [h0] maintain: a cell
    within [t] steps of a cell [b] is at most the initial value of [b] grown
    over the steps between them; and every value is at least such a bound for
    some cell [b]. *)
Definition upper (c : float) (dist : nat → nat → nat) (h0 : list float) (t : nat)
    (h : list float) : Prop :=
  ∀ b v x y, (dist b v ≤ t)%nat → h0 !! b = Some x → h !! v = Some y →
    (y <=? steps c (dist b v) x)%float = true.

Definition lower (c : float) (dist : nat → nat → nat) (h0 : list float)
    (h : list float) : Prop :=
  ∀ v y, h !! v = Some y →
    ∃ b x, h0 !! b = Some x ∧ (steps c (dist b v) x <=? y)%float = true.

(** No value of the flat field is a NaN. *)
Definition numbers (h : list float) : Prop :=
  ∀ k x, h !! k = Some x → is_nan x = false.

(** A matrix with [nz] rows of [nx] values each. *)
Definition rectangular {A} (m : list (list A)) (nz nx : nat) : Prop :=
  length m = nz ∧ Forall (fun row => length row = nx) m.

(** Every value of [h'] is the value [h] has there, or a number strictly
    below it. *)
Definition lowered (h' h : list float) : Prop :=
  length h' = length h ∧
  ∀ k x y, h' !! k = Some x → h !! k = Some y → x = y ∨ (x <? y)%float = true.

Definition lowered_field (f h : Np.matrix) : Prop :=
  ∀ i j x y, Np.cell f i j = Some x → Np.cell h i j = Some y →
    x = y ∨ (x <? y)%float = true.

(** Two cells are grid-adjacent: one step apart along one axis. *)
Definition adjacent (a b : nat * nat) : Prop :=
  ((a.1 - b.1) + (b.1 - a.1) + (a.2 - b.2) + (b.2 - a.2) = 1)%nat.

(** [f] is nowhere above [h]. *)
Definition le_field (f h : Np.matrix) : Prop :=
  ∀ i j x y, Np.cell f i j = Some x → Np.cell h i j = Some y →
    (x <=? y)%float = true.

(** No cell of [f] holds a NaN. *)
Definition no_nan (f : Np.matrix) : Prop :=
  ∀ i j x, Np.cell f i j = Some x → is_nan x = false.

(** From a cell to a grid-adjacent one, [f] grows by at most [c]: the value
    there is at most the binary64 sum of the value here and [c].  Adjacency
    is symmetric, so this bounds the difference both ways. *)
Definition graded_field (c : float) (f : Np.matrix) : Prop :=
  ∀ a b x y, adjacent a b →
    Np.cell f a.1 a.2 = Some x → Np.cell f b.1 b.2 = Some y →
    (y <=? x + c)%float = true.

(** The same bound over the reals, up to the rounding of the sum: from a
    cell holding a normal number [x] to a grid-adjacent one holding a finite
    [y], the growth [y - x] is at most [c] and [2^-53] of [y]. *)
Definition graded_real (c : float) (f : Np.matrix) : Prop :=
  ∀ a b x y, adjacent a b →
    Np.cell f a.1 a.2 = Some x → Np.cell f b.1 b.2 = Some y →
    Real64.is_normal x = true → is_finite y = true →
    (Real64.F2R y - Real64.F2R x
       <= Real64.F2R c + Real64.bpow (-53) * Real64.F2R y)%R.

End Spec.

(** ** Concrete configurations *)

Module Examples.
Import MeshSizeFunction.

(** A seg-y file of [nx_] traces with [nz_] samples each, all equal to [v]. *)
Definition uniform_file (nz_ nx_ : nat) (v : float) : segy_file :=
  {| samples := replicate nz_ 0%float; trace := replicate nx_ (replicate nz_ v) |}.

(** A file system that holds one file. *)
Definition one_file (fname : string) (f : segy_file) : filesystem :=
  fun name => if String.eqb name fname then Ok f else Raise (OSError name).

(** The bounding box of the test suite, [(-1e3, 0, 0, 1e3)]. *)
Definition test_bbox : list float := [(-1000)%float; 0%float; 0%float; 1000%float].

Definition testing_segy : filesystem :=
  one_file "testing.segy" (uniform_file 3 2 2000).

(** The keyword arguments of [example.py]: [wl=5, dt=0.001, grade=5]. *)
Definition example_kwargs : kwargs :=
  {| kw_wl := 5; kw_freq := 5; kw_hmax := Np.inf; kw_dt := 0x1.0624dd2f1a9fcp-10;
     kw_cr_max := 0x1.999999999999ap-3; kw_grade := 5 |}.

(** An instance as [__init__] leaves it. *)
Definition instance (_hmin : float) (kw : kwargs) : obj :=
  {| bbox := test_bbox; hmin := _hmin; segy := "testing.segy";
     wl := kw_wl kw; freq := kw_freq kw; hmax := kw_hmax kw;
     dt := kw_dt kw; cr_max := kw_cr_max kw; grade := kw_grade kw;
     vp := None; nz := None; nx := None; fh := None; fd := None |}.

(** [MeshSizeFunction(bbox=(-1e3, 0, 0, 1e3), segy="testing.segy", hmin=..., **kw).build()]
    in an empty store. *)
Definition construct_and_build (_hmin : float) (kw : kwargs) : result loc * store :=
  (l ← new test_bbox _hmin (PyStr "testing.segy") kw; build testing_segy l) ∅.

(** The same over a velocity model that is [v] in its single cell. *)
Definition construct_and_build_on (v _hmin : float) (kw : kwargs) : result loc * store :=
  (l ← new test_bbox _hmin (PyStr "testing.segy") kw;
   build (one_file "testing.segy" (uniform_file 1 1 v)) l) ∅.

(** A store that holds one freshly constructed instance, at location 1. *)
Definition store0 (_hmin : float) (kw : kwargs) : store :=
  {[ 1%positive := instance _hmin kw ]}.

End Examples.

(** ** Sessions: any sequence of uses of the class *)

Module Session.
Import MeshSizeFunction.

(** One statement of a program that uses the class: a construction, an
    assignment to an attribute, or a call of [build]. *)
Inductive stmt : Type :=
| Construct (bbox_ : list float) (hmin_ : float) (segy_ : Py.value) (kw : kwargs)
| AssignBbox (l : loc) (value : list float)
| AssignHmin (l : loc) (value : float)
| AssignSegy (l : loc) (value : Py.value)
| AssignWl (l : loc) (value : float)
| AssignFreq (l : loc) (value : float)
| AssignHmax (l : loc) (value : float)
| AssignDt (l : loc) (value : float)
| AssignCrMax (l : loc) (value : float)
| AssignGrade (l : loc) (value : float)
| AssignVp (l : loc) (value : Np.matrix)
| AssignNz (l : loc) (value : nat)
| AssignNx (l : loc) (value : nat)
| AssignFh (l : loc) (value : interpolator)
| AssignFd (l : loc) (value : closure)
| CallBuild (l : loc).

(** The store after a statement (an exception is caught by the program). *)
Definition exec (fs : filesystem) (s : stmt) (σ : store) : store :=
  match s with
  | Construct b h g kw => (new b h g kw σ).2
  | AssignBbox l v => (assign_bbox l v σ).2
  | AssignHmin l v => (assign_hmin l v σ).2
  | AssignSegy l v => (assign_segy l v σ).2
  | AssignWl l v => (write l (set_wl v) σ).2
  | AssignFreq l v => (write l (set_freq v) σ).2
  | AssignHmax l v => (write l (set_hmax v) σ).2
  | AssignDt l v => (write l (set_dt v) σ).2
  | AssignCrMax l v => (write l (set_cr_max v) σ).2
  | AssignGrade l v => (write l (set_grade v) σ).2
  | AssignVp l v => (write l (set_vp v) σ).2
  | AssignNz l v => (write l (set_nz v) σ).2
  | AssignNx l v => (write l (set_nx v) σ).2
  | AssignFh l v => (write l (set_fh v) σ).2
  | AssignFd l v => (write l (set_fd v) σ).2
  | CallBuild l => (build fs l σ).2
  end.

Definition run (fs : filesystem) (ss : list stmt) (σ : store) : store :=
  foldl (fun σ s => exec fs s σ) σ ss.

(** Every instance of the store is as the setters keep it. *)
Definition all_well_formed (σ : store) : Prop :=
  ∀ l o, σ !! l = Some o → well_formed o.

End Session.

(** ** [test/test_hmin.py] *)

Module test_hmin.
Import MeshSizeFunction.

(** [test_hmin()]: build with [wl=5] and [hmin = 100], then
    [hh = ef.hh; assert hh.min() == hmin]. *)
Definition test_hmin (fs : filesystem) : M () :=
  let fname := "testing.segy" in
  let hmin_ := 100%float in
  ef ← new [(-1000)%float; 0%float; 0%float; 1000%float] hmin_ (PyStr fname)
         {| kw_wl := 5; kw_freq := kw_freq defaults; kw_hmax := kw_hmax defaults;
            kw_dt := kw_dt defaults; kw_cr_max := kw_cr_max defaults;
            kw_grade := kw_grade defaults |};
  ef ← build fs ef;
  o ← read ef;
  hh ← lift (getattr_public o "hh");
  match hh with
  | AttrArray m =>
      v ← lift (Np.amin m);
      if (v =? hmin_)%float then mret () else lift (Raise (AssertionError ""))
  | _ => lift (Raise (AttributeError "min"))
  end.

End test_hmin.

(** * Properties *)

Open Scope list_scope.
Open Scope nat_scope.

(** ** Comparisons of binary64 numbers

    The order facts used below, derived from the IEEE 754 specification of
    the primitive operations ([SpecFloat]). *)

Module F64.

Lemma SFcompare_antisym (x y : spec_float) :
  SFcompare y x = CompOpp <$> SFcompare x y.
Proof.
  destruct x as [sx|sx| |sx mx ex], y as [sy|sy| |sy my ey]; simpl;
    try reflexivity; try (destruct sx; reflexivity); try (destruct sy; reflexivity);
    try (destruct sx, sy; reflexivity).
  change (Pos.compare_cont Eq my mx) with (my ?= mx)%positive.
  change (Pos.compare_cont Eq mx my) with (mx ?= my)%positive.
  rewrite (Z.compare_antisym ex ey), (Pos.compare_antisym mx my).
  destruct sx, sy, (ex ?= ey)%Z, (mx ?= my)%positive; reflexivity.
Qed.

Lemma SFcompare_refl (x : spec_float) :
  x ≠ S754_nan → SFcompare x x = Some Eq.
Proof.
  destruct x as [s|s| |s m e]; simpl; intros Hx; try congruence.
  - destruct s; reflexivity.
  - change (Pos.compare_cont Eq m m) with (m ?= m)%positive.
    rewrite Z.compare_refl, Pos.compare_refl. destruct s; reflexivity.
Qed.

Lemma SFcompare_None (x y : spec_float) :
  SFcompare x y = None ↔ x = S754_nan ∨ y = S754_nan.
Proof.
  destruct x as [sx|sx| |sx mx ex], y as [sy|sy| |sy my ey]; simpl;
    split; try (intros [?|?]; congruence); try discriminate; auto.
Qed.

Lemma SFcompare_lt_trans (x y z : spec_float) :
  SFcompare x y = Some Lt → SFcompare y z = Some Lt → SFcompare x z = Some Lt.
Proof.
  destruct x as [sx|sx| |sx mx ex], y as [sy|sy| |sy my ey],
    z as [sz|sz| |sz mz ez]; simpl; try discriminate;
    try (destruct sx; discriminate || reflexivity);
    try (destruct sy; discriminate || reflexivity);
    try (destruct sz; discriminate || reflexivity);
    try (destruct sx, sy; discriminate || reflexivity);
    try (destruct sy, sz; discriminate || reflexivity);
    try (destruct sx, sz; discriminate || reflexivity);
    try (destruct sx, sy, sz; discriminate || reflexivity).
  change (Pos.compare_cont Eq mx my) with (mx ?= my)%positive.
  change (Pos.compare_cont Eq my mz) with (my ?= mz)%positive.
  change (Pos.compare_cont Eq mx mz) with (mx ?= mz)%positive.
  destruct sx, sy, sz; try discriminate; try reflexivity;
    destruct (Z.compare_spec ex ey), (Z.compare_spec ey ez), (Z.compare_spec ex ez);
    try discriminate; try reflexivity; try lia;
    destruct (Pos.compare_spec mx my), (Pos.compare_spec my mz), (Pos.compare_spec mx mz);
    simpl; try discriminate; try reflexivity; try lia.
Qed.

(** A float is a NaN exactly when its specification is [S754_nan]. *)
Lemma is_nan_spec (x : float) : is_nan x = true ↔ Prim2SF x = S754_nan.
Proof.
  unfold is_nan. rewrite FloatAxioms.eqb_spec. unfold SFeqb. split.
  - intros Hx. destruct (Prim2SF x) eqn:E; try reflexivity;
      rewrite SFcompare_refl in Hx by discriminate; discriminate.
  - intros ->. reflexivity.
Qed.

Lemma not_nan_spec (x : float) : is_nan x = false ↔ Prim2SF x ≠ S754_nan.
Proof.
  rewrite <- is_nan_spec. destruct (is_nan x); split; congruence.
Qed.

Lemma ltb_not_nan (x y : float) :
  (x <? y)%float = true → is_nan x = false ∧ is_nan y = false.
Proof.
  rewrite FloatAxioms.ltb_spec, !not_nan_spec. unfold SFltb. intros Hlt.
  split; intros Hn; rewrite Hn in Hlt; simpl in Hlt; try discriminate.
  destruct (Prim2SF x); discriminate.
Qed.

Lemma ltb_asym (x y : float) : (x <? y)%float = true → (y <? x)%float = false.
Proof.
  rewrite !FloatAxioms.ltb_spec. unfold SFltb. rewrite (SFcompare_antisym (Prim2SF x) (Prim2SF y)).
  destruct (SFcompare (Prim2SF x) (Prim2SF y)) as [[]|]; simpl; congruence.
Qed.

Lemma ltb_irrefl (x : float) : (x <? x)%float = false.
Proof.
  destruct (x <? x)%float eqn:E; [|reflexivity].
  rewrite (ltb_asym _ _ E) in E. discriminate.
Qed.

Lemma ltb_trans (x y z : float) :
  (x <? y)%float = true → (y <? z)%float = true → (x <? z)%float = true.
Proof.
  rewrite !FloatAxioms.ltb_spec. unfold SFltb. intros Hxy Hyz.
  rewrite (SFcompare_lt_trans (Prim2SF x) (Prim2SF y) (Prim2SF z)); [reflexivity| |].
  - destruct (SFcompare (Prim2SF x) (Prim2SF y)) as [[]|]; congruence.
  - destruct (SFcompare (Prim2SF y) (Prim2SF z)) as [[]|]; congruence.
Qed.

Lemma ltb_leb (x y : float) : (x <? y)%float = true → (x <=? y)%float = true.
Proof.
  rewrite FloatAxioms.ltb_spec, FloatAxioms.leb_spec. unfold SFltb, SFleb.
  destruct (SFcompare (Prim2SF x) (Prim2SF y)) as [[]|]; congruence.
Qed.

(** Between two numbers, "not less" is "greater or equal". *)
Lemma ltb_false_leb (x y : float) :
  is_nan x = false → is_nan y = false →
  (x <? y)%float = false → (y <=? x)%float = true.
Proof.
  rewrite !not_nan_spec, FloatAxioms.ltb_spec, FloatAxioms.leb_spec. unfold SFltb, SFleb.
  intros Hx Hy. rewrite (SFcompare_antisym (Prim2SF x) (Prim2SF y)).
  destruct (SFcompare (Prim2SF x) (Prim2SF y)) as [[]|] eqn:E; simpl; try congruence.
  apply SFcompare_None in E. tauto.
Qed.

Lemma leb_refl (x : float) : is_nan x = false → (x <=? x)%float = true.
Proof.
  rewrite not_nan_spec, FloatAxioms.leb_spec. unfold SFleb. intros Hx.
  rewrite SFcompare_refl by assumption. reflexivity.
Qed.

Lemma leb_ltb_false (x y : float) : (x <=? y)%float = true → (y <? x)%float = false.
Proof.
  rewrite FloatAxioms.ltb_spec, FloatAxioms.leb_spec. unfold SFltb, SFleb.
  rewrite (SFcompare_antisym (Prim2SF x) (Prim2SF y)).
  destruct (SFcompare (Prim2SF x) (Prim2SF y)) as [[]|]; simpl; congruence.
Qed.

(** Every finite number is below [+infinity]. *)
Lemma is_finite_ltb_inf (x : float) : is_finite x = true → (x <? infinity)%float = true.
Proof.
  unfold is_finite, is_infinity. intros Hf.
  apply negb_true_iff, orb_false_iff in Hf. destruct Hf as [Hn Hi].
  apply not_nan_spec in Hn.
  rewrite FloatAxioms.eqb_spec, FloatAxioms.abs_spec in Hi. rewrite FloatAxioms.ltb_spec.
  change (Prim2SF infinity) with (S754_infinity false) in *.
  unfold SFeqb, SFltb in *.
  destruct (Prim2SF x) as [s|s| |s m e]; simpl in *; try reflexivity; congruence.
Qed.

(** Adding a positive number to [0.0] returns it unchanged. *)
Lemma add_zero_pos (x : float) : (0 <? x)%float = true → (0 + x)%float = x.
Proof.
  intros Hx. apply Prim2SF_inj. rewrite FloatAxioms.add_spec.
  rewrite FloatAxioms.ltb_spec in Hx. unfold SFltb in Hx.
  change (Prim2SF 0) with (S754_zero false) in *.
  unfold SF64add, SFadd.
  destruct (Prim2SF x) as [s|s| |s m e]; simpl in *; try reflexivity; discriminate.
Qed.

End F64.

(** ** Rounding, over the reals

    The operations on [float] are specified by the functions of [SpecFloat]
    on mantissas and exponents.  This part relates them to the reals: the
    result of an addition or a division is the exact result, rounded; the
    rounding is monotone and leaves a float as it is; and the comparisons of
    floats are the comparisons of the reals they stand for. *)

Module Real64Facts.
Import Real64.
Local Open Scope R_scope.

Lemma bpow_pos (e : Z) : 0 < bpow e.
Proof. apply powerRZ_lt. lra. Qed.

Lemma bpow_add (a b : Z) : bpow (a + b) = bpow a * bpow b.
Proof. apply powerRZ_add. lra. Qed.

Lemma bpow_0 : bpow 0 = 1.
Proof. reflexivity. Qed.

Lemma bpow_1 : bpow 1 = 2.
Proof. unfold bpow. simpl. lra. Qed.

Lemma bpow_m1 : bpow (-1) = / 2.
Proof. unfold bpow. simpl. f_equal. lra. Qed.

Lemma bpow_opp (a : Z) : bpow (- a) = / bpow a.
Proof. apply powerRZ_neg'. Qed.

Lemma bpow_IZR (e : Z) : (0 <= e)%Z → bpow e = IZR (2 ^ e).
Proof.
  intros He. unfold bpow. destruct e as [|p|p]; [reflexivity| |lia].
  symmetry. apply (Zpower_pos_powerRZ 2 p).
Qed.

Lemma bpow_le (a b : Z) : (a <= b)%Z → bpow a <= bpow b.
Proof.
  intros Hab. replace b with (a + (b - a))%Z by lia. rewrite bpow_add.
  rewrite (bpow_IZR (b - a)) by lia.
  assert (1 <= IZR (2 ^ (b - a))).
  { apply IZR_le. pose proof (Z.pow_pos_nonneg 2 (b - a)). lia. }
  pose proof (bpow_pos a). nra.
Qed.

Lemma bpow_lt (a b : Z) : (a < b)%Z → bpow a < bpow b.
Proof.
  intros Hab. replace b with (a + (b - a))%Z by lia. rewrite bpow_add.
  rewrite (bpow_IZR (b - a)) by lia.
  assert (2 <= IZR (2 ^ (b - a))).
  { apply IZR_le. replace (b - a)%Z with (Z.succ (b - a - 1)) by lia.
    rewrite Z.pow_succ_r by lia. pose proof (Z.pow_pos_nonneg 2 (b - a - 1)). lia. }
  pose proof (bpow_pos a). nra.
Qed.

Lemma bpow_lt_inv (a b : Z) : bpow a < bpow b → (a < b)%Z.
Proof.
  intros H. destruct (Z_lt_le_dec a b) as [|Hle]; [assumption|].
  apply bpow_le in Hle. lra.
Qed.

(** An integer below a power of two. *)
Lemma IZR_lt_bpow (m k : Z) : (0 <= k)%Z → IZR m < bpow k → (m < 2 ^ k)%Z.
Proof. intros Hk. rewrite bpow_IZR by assumption. apply lt_IZR. Qed.

Lemma bpow_le_IZR (m k : Z) : (0 <= k)%Z → bpow k <= IZR m → (2 ^ k <= m)%Z.
Proof. intros Hk. rewrite bpow_IZR by assumption. apply le_IZR. Qed.

(** *** Digits *)

Lemma digits2_pos_bounds (p : positive) :
  (2 ^ (Zpos (digits2_pos p) - 1) <= Zpos p < 2 ^ Zpos (digits2_pos p))%Z.
Proof.
  induction p as [p IH|p IH|]; cbn [digits2_pos].
  - rewrite Pos2Z.inj_succ. replace (Z.succ (Z.pos (digits2_pos p)) - 1)%Z
      with (Z.succ (Z.pos (digits2_pos p) - 1)) by lia.
    rewrite !Z.pow_succ_r by lia. lia.
  - rewrite Pos2Z.inj_succ. replace (Z.succ (Z.pos (digits2_pos p)) - 1)%Z
      with (Z.succ (Z.pos (digits2_pos p) - 1)) by lia.
    rewrite !Z.pow_succ_r by lia. lia.
  - simpl. lia.
Qed.

Lemma Zdigits2_bounds (m : Z) :
  (0 < m)%Z → (2 ^ (Zdigits2 m - 1) <= m < 2 ^ Zdigits2 m)%Z ∧ (0 < Zdigits2 m)%Z.
Proof.
  destruct m as [|p|p]; try lia. intros _. split; [apply digits2_pos_bounds|].
  simpl. lia.
Qed.

(** *** Shifting to the right *)

Lemma shr_1_inbetween (mrs : shr_record) (t : R) :
  (0 <= shr_m mrs)%Z →
  inbetween (shr_m mrs) t (loc_of_shr_record mrs) →
  (0 <= shr_m (shr_1 mrs))%Z ∧
  inbetween (shr_m (shr_1 mrs)) (t * / 2) (loc_of_shr_record (shr_1 mrs)).
Proof.
  destruct mrs as [m r s]. cbn [shr_m]. intros Hm.
  destruct m as [|[p|p|]|p]; [| | | |lia];
    destruct r, s; cbn [shr_1 shr_m loc_of_shr_record orb inbetween];
    try change (Z.pos p~1) with (2 * Z.pos p + 1)%Z;
    try change (Z.pos p~0) with (2 * Z.pos p)%Z;
    rewrite ?plus_IZR, ?mult_IZR; intros Ht; (split; [lia|]); lra.
Qed.

Lemma iter_shr_1_inbetween (p : positive) :
  ∀ (mrs : shr_record) (t : R),
  (0 <= shr_m mrs)%Z →
  inbetween (shr_m mrs) t (loc_of_shr_record mrs) →
  (0 <= shr_m (SpecFloat.iter_pos shr_1 p mrs))%Z ∧
  inbetween (shr_m (SpecFloat.iter_pos shr_1 p mrs)) (t * bpow (- Zpos p))
            (loc_of_shr_record (SpecFloat.iter_pos shr_1 p mrs)).
Proof.
  induction p as [p IH|p IH|]; intros mrs t Hm Ht; cbn [SpecFloat.iter_pos].
  - destruct (shr_1_inbetween mrs t Hm Ht) as [H1 H1'].
    destruct (IH _ _ H1 H1') as [H2 H2'].
    destruct (IH _ _ H2 H2') as [H3 H3']. split; [exact H3|].
    replace (t * bpow (- Z.pos p~1)) with (t * / 2 * bpow (- Z.pos p) * bpow (- Z.pos p));
      [exact H3'|].
    replace (- Z.pos p~1)%Z with (-1 + (- Z.pos p + - Z.pos p))%Z by lia.
    rewrite !bpow_add, bpow_m1. lra.
  - destruct (IH _ _ Hm Ht) as [H2 H2'].
    destruct (IH _ _ H2 H2') as [H3 H3']. split; [exact H3|].
    replace (t * bpow (- Z.pos p~0)) with (t * bpow (- Z.pos p) * bpow (- Z.pos p));
      [exact H3'|].
    replace (- Z.pos p~0)%Z with (- Z.pos p + - Z.pos p)%Z by lia.
    rewrite !bpow_add. lra.
  - change (- Z.pos 1)%Z with (-1)%Z. rewrite bpow_m1. by apply shr_1_inbetween.
Qed.

Lemma loc_of_shr_record_of_loc (m : Z) (l : location) :
  loc_of_shr_record (shr_record_of_loc m l) = l ∧ shr_m (shr_record_of_loc m l) = m.
Proof. destruct l as [|[]]; split; reflexivity. Qed.

(** [shr] by [n] places, when [0 <= n]: the exponent grows by [n] and the
    mantissa is located in the scaled real. *)
Lemma shr_inbetween (m : Z) (l : location) (e n : Z) (t : R) :
  (0 <= m)%Z → (0 <= n)%Z →
  inbetween m t l →
  let '(mrs', e') := shr (shr_record_of_loc m l) e n in
  e' = (e + n)%Z ∧ (0 <= shr_m mrs')%Z ∧
  inbetween (shr_m mrs') (t * bpow (- n)) (loc_of_shr_record mrs').
Proof.
  intros Hm Hn Ht. destruct (loc_of_shr_record_of_loc m l) as [Hl Hm'].
  unfold shr. destruct n as [|p|p]; [| |lia].
  - rewrite Hl, Hm', Z.add_0_r. change (- 0)%Z with 0%Z.
    rewrite bpow_0, Rmult_1_r. auto.
  - split; [reflexivity|].
    apply iter_shr_1_inbetween; by rewrite ?Hl, ?Hm'.
Qed.

(** *** Rounding to nearest, ties to even *)

Lemma round_nearest_even_bounds (m : Z) (t : R) (l : location) :
  inbetween m t l →
  (m <= round_nearest_even m l <= m + 1)%Z ∧
  Rabs (IZR (round_nearest_even m l) - t) <= / 2 ∧
  (l = loc_Exact → round_nearest_even m l = m).
Proof.
  destruct l as [|[]]; cbn [inbetween round_nearest_even]; intros Ht.
  - subst t. split; [lia|]. split; [|auto].
    rewrite Rminus_diag. rewrite Rabs_R0. lra.
  - subst t. destruct (Z.even m).
    + split; [lia|]. split; [|discriminate].
      rewrite Rabs_left1; lra.
    + split; [lia|]. split; [|discriminate].
      rewrite plus_IZR. rewrite Rabs_right; lra.
  - split; [lia|]. split; [|discriminate]. rewrite Rabs_left1; lra.
  - split; [lia|]. split; [|discriminate]. rewrite plus_IZR.
    rewrite Rabs_right; lra.
Qed.

Lemma inbetween_bounds (m : Z) (t : R) (l : location) :
  inbetween m t l → IZR m <= t < IZR m + 1.
Proof. destruct l as [|[]]; cbn [inbetween]; lra. Qed.

(** Rounding is monotone. *)
Lemma round_nearest_even_mono (a b : Z) (t1 t2 : R) (la lb : location) :
  inbetween a t1 la → inbetween b t2 lb → t1 <= t2 →
  (round_nearest_even a la <= round_nearest_even b lb)%Z.
Proof.
  intros Ha Hb Ht.
  pose proof (inbetween_bounds _ _ _ Ha) as Ba.
  pose proof (inbetween_bounds _ _ _ Hb) as Bb.
  destruct (round_nearest_even_bounds _ _ _ Ha) as [Ra _].
  destruct (round_nearest_even_bounds _ _ _ Hb) as [Rb _].
  destruct (Z_lt_le_dec a b) as [Hab|Hba]; [lia|].
  assert (a = b) as ->.
  { destruct (Z.eq_dec a b) as [|Hne]; [assumption|].
    assert (b + 1 <= a)%Z as H by lia. apply IZR_le in H. rewrite plus_IZR in H. lra. }
  destruct la as [|[]], lb as [|[]]; cbn [inbetween round_nearest_even] in *;
    try destruct (Z.even b); try lia; lra.
Qed.

(** *** The rounding step shared by the operations *)

Ltac z64 := unfold canon_exp, fexp, SpecFloat.emin, prec, emax in *.

Lemma fexp_ge_emin (k : Z) : (emin <= fexp prec emax k)%Z.
Proof. z64. lia. Qed.

Lemma canon_exp_of_mantissa (mx ex : Z) (lx : location) (X : R) :
  (0 <= mx)%Z →
  inbetween mx (X * bpow (- ex)) lx →
  (ex <= fexp prec emax (Zdigits2 mx + ex))%Z →
  canon_exp X (fexp prec emax (Zdigits2 mx + ex)).
Proof.
  intros Hmx Hin Hex. apply inbetween_bounds in Hin.
  assert (HX : IZR mx * bpow ex <= X < (IZR mx + 1) * bpow ex).
  { pose proof (bpow_pos ex) as Hp. pose proof (bpow_pos (- ex)) as Hn.
    assert (bpow (- ex) * bpow ex = 1) as Hinv
      by (rewrite <- bpow_add; replace (- ex + ex)%Z with 0%Z by lia; apply bpow_0).
    split.
    - replace X with (X * bpow (- ex) * bpow ex) by (rewrite Rmult_assoc, Hinv; lra). nra.
    - replace X with (X * bpow (- ex) * bpow ex) at 1 by (rewrite Rmult_assoc, Hinv; lra). nra. }
  destruct (Z.eq_dec mx 0%Z) as [->|Hne].
  - change (Zdigits2 0%Z) with 0%Z in *. rewrite Z.add_0_l in *.
    z64. assert (ex <= 3 - 1024 - 53)%Z by lia.
    rewrite Z.max_r by lia. split; [lia|]. split; [|lia].
    simpl in HX. pose proof (bpow_le ex (3 - 1024 - 53 + 53) ltac:(lia)). lra.
  - destruct (Zdigits2_bounds mx ltac:(lia)) as [[Hlo Hhi] Hd].
    set (d := Zdigits2 mx) in *.
    assert (Hlo' : bpow (d - 1 + ex) <= X).
    { rewrite bpow_add, (bpow_IZR (d - 1)) by lia. apply IZR_le in Hlo.
      pose proof (bpow_pos ex). nra. }
    assert (Hhi' : X < bpow (d + ex)).
    { rewrite bpow_add, (bpow_IZR d) by lia.
      assert (mx + 1 <= 2 ^ d)%Z as H1 by lia. apply IZR_le in H1. rewrite plus_IZR in H1.
      pose proof (bpow_pos ex). nra. }
    z64. split; [lia|]. split.
    + eapply Rlt_le_trans; [exact Hhi'|]. apply bpow_le. lia.
    + intros HE. eapply Rle_trans; [|exact Hlo']. apply bpow_le. lia.
Qed.

Lemma Zdigits2_le_prec (m : Z) : (0 < m < 2 ^ prec)%Z → (Zdigits2 m <= prec)%Z.
Proof.
  intros Hm. destruct (Zdigits2_bounds m ltac:(lia)) as [[Hlo _] Hd].
  destruct (Z_le_gt_dec (Zdigits2 m) prec) as [|Hgt]; [assumption|].
  assert (2 ^ prec <= 2 ^ (Zdigits2 m - 1))%Z by (apply Z.pow_le_mono_r; lia). lia.
Qed.

(** The mantissa located at the canonical exponent has at most [prec]
    digits, and exactly [prec] above the smallest exponent. *)
Lemma canon_mantissa (X : R) (E m : Z) (l : location) :
  canon_exp X E → inbetween m (X * bpow (- E)) l → (0 <= m)%Z →
  (m < 2 ^ prec)%Z ∧ ((emin < E)%Z → (2 ^ (prec - 1) <= m)%Z).
Proof.
  intros (HE & Hhi & Hlo) Hin Hm. apply inbetween_bounds in Hin.
  pose proof (bpow_pos (- E)) as Hn.
  assert (Hs : ∀ k, bpow (E + k) * bpow (- E) = bpow k).
  { intros k. rewrite <- bpow_add. f_equal. lia. }
  split.
  - apply IZR_lt_bpow; [unfold prec; lia|].
    rewrite <- (Hs prec). nra.
  - intros HE'. specialize (Hlo HE').
    replace (E + prec - 1)%Z with (E + (prec - 1))%Z in Hlo by lia.
    assert (H : bpow (prec - 1)%Z <= X * bpow (- E)).
    { rewrite <- (Hs (prec - 1)%Z). nra. }
    rewrite (bpow_IZR (prec - 1)%Z) in H by (unfold prec; lia).
    assert (IZR (2 ^ (prec - 1)) < IZR (m + 1)) as H1 by (rewrite plus_IZR; lra).
    apply lt_IZR in H1. lia.
Qed.

Lemma binary_round_aux_spec (sx : bool) (mx ex : Z) (lx : location) (X : R) :
  (0 <= mx)%Z →
  inbetween mx (X * bpow (- ex)) lx →
  (ex <= fexp prec emax (Zdigits2 mx + ex))%Z →
  ∃ E m' l',
    canon_exp X E ∧ (0 <= m')%Z ∧ inbetween m' (X * bpow (- E)) l' ∧
    binary_round_aux prec emax sx mx ex lx = SFpack sx (round_nearest_even m' l') E.
Proof.
  intros Hmx Hin Hex.
  pose proof (canon_exp_of_mantissa mx ex lx X Hmx Hin Hex) as Hcanon.
  set (E := fexp prec emax (Zdigits2 mx + ex)) in *.
  unfold binary_round_aux, shr_fexp. fold E.
  pose proof (shr_inbetween mx lx ex (E - ex) _ Hmx ltac:(lia) Hin) as Hshr.
  destruct (shr (shr_record_of_loc mx lx) ex (E - ex)) as [mrs' e'].
  destruct Hshr as (-> & Hm' & Hin').
  replace (ex + (E - ex))%Z with E by lia.
  replace (X * bpow (- ex) * bpow (- (E - ex))) with (X * bpow (- E)) in Hin'.
  2:{ rewrite Rmult_assoc, <- bpow_add. do 2 f_equal. lia. }
  exists E, (shr_m mrs'), (loc_of_shr_record mrs').
  split; [exact Hcanon|]. split; [exact Hm'|]. split; [exact Hin'|].
  destruct (canon_mantissa X E _ _ Hcanon Hin' Hm') as [Hlt Hge].
  destruct (round_nearest_even_bounds _ _ _ Hin') as [Hr _].
  set (m1 := round_nearest_even (shr_m mrs') (loc_of_shr_record mrs')) in *.
  destruct Hcanon as (HE & _ & _).
  destruct (loc_of_shr_record_of_loc m1 loc_Exact) as [_ Hrec].
  destruct (Z.eq_dec m1 (2 ^ prec)%Z) as [Hcarry|Hno].
  - rewrite Hcarry.
    assert (Hsh : (fexp prec emax (Zdigits2 (2 ^ prec) + E) - E = 1)%Z).
    { change (Zdigits2 (2 ^ prec)%Z) with 54%Z. z64. lia. }
    rewrite Hsh. change (2 ^ prec)%Z with 9007199254740992%Z.
    unfold shr, SFpack.
    cbn [SpecFloat.iter_pos shr_record_of_loc shr_1 shr_m orb].
    change (9007199254740992 <? 2 ^ prec)%Z with false.
    change (Z.to_pos (2 ^ (prec - 1))) with 4503599627370496%positive.
    reflexivity.
  - assert (Hn : (fexp prec emax (Zdigits2 m1 + E) - E <= 0)%Z).
    { destruct (Z.eq_dec m1 0%Z) as [->|Hpos].
      - change (Zdigits2 0%Z) with 0%Z. z64. lia.
      - pose proof (Zdigits2_le_prec m1 ltac:(lia)). z64. lia. }
    unfold shr. destruct (fexp prec emax (Zdigits2 m1 + E) - E)%Z as [|p|p] eqn:En;
      [|lia|]; rewrite Hrec; unfold SFpack;
      (destruct m1 as [|p1|p1]; [reflexivity| |lia]);
      rewrite (proj2 (Z.ltb_lt _ _)) by lia; reflexivity.
Qed.

(** *** Valid floats and their order *)

Lemma valid_finite_bounds (s : bool) (m : positive) (e : Z) :
  valid_binary (S754_finite s m e) = true →
  (emin <= e <= emax - prec)%Z ∧ (Zpos m < 2 ^ prec)%Z ∧
  ((emin < e)%Z → (2 ^ (prec - 1) <= Zpos m)%Z).
Proof.
  cbn [valid_binary]. unfold bounded, canonical_mantissa.
  intros [Hc He%Z.leb_le]%andb_true_iff. apply Z.eqb_eq in Hc.
  pose proof (digits2_pos_bounds m) as [Hlo Hhi].
  set (d := Z.pos (digits2_pos m)) in *.
  assert (0 < d)%Z by (subst d; lia).
  z64. split; [lia|]. split.
  - assert (d <= 53)%Z by lia.
    assert (2 ^ d <= 2 ^ 53)%Z by (apply Z.pow_le_mono_r; lia). lia.
  - intros Hgt. assert (d = 53)%Z as Hd by lia. rewrite Hd in Hlo. exact Hlo.
Qed.

Lemma SF2R_finite_pos (m : positive) (e : Z) :
  valid_binary (S754_finite false m e) = true →
  bpow emin <= SF2R (S754_finite false m e) < bpow emax.
Proof.
  intros (He & Hhi & Hlo)%valid_finite_bounds. cbn [SF2R cond_Zopp].
  pose proof (bpow_pos e) as Hp.
  assert (1 <= IZR (Z.pos m)) by (apply IZR_le; lia).
  apply IZR_lt in Hhi. rewrite <- bpow_IZR in Hhi by (unfold prec; lia).
  split.
  - pose proof (bpow_le emin e ltac:(lia)). nra.
  - pose proof (bpow_le (prec + e) emax ltac:(lia)) as Hle.
    rewrite bpow_add in Hle. nra.
Qed.

(** Among valid positive floats the order of the exponents decides. *)
Lemma finite_pos_lt_exp (m1 m2 : positive) (e1 e2 : Z) :
  valid_binary (S754_finite false m1 e1) = true →
  valid_binary (S754_finite false m2 e2) = true →
  (e1 < e2)%Z →
  IZR (Z.pos m1) * bpow e1 < IZR (Z.pos m2) * bpow e2.
Proof.
  intros (He1 & Hhi1 & _)%valid_finite_bounds (He2 & _ & Hlo2)%valid_finite_bounds Hlt.
  specialize (Hlo2 ltac:(lia)).
  apply IZR_lt in Hhi1. rewrite <- bpow_IZR in Hhi1 by (unfold prec; lia).
  apply IZR_le in Hlo2. rewrite <- bpow_IZR in Hlo2 by (unfold prec; lia).
  pose proof (bpow_pos e1). pose proof (bpow_pos e2).
  pose proof (bpow_le (prec + e1) (prec - 1 + e2) ltac:(lia)) as Hle.
  rewrite !bpow_add in Hle. nra.
Qed.

Lemma finite_pos_compare (m1 m2 : positive) (e1 e2 : Z) :
  valid_binary (S754_finite false m1 e1) = true →
  valid_binary (S754_finite false m2 e2) = true →
  match (match (e1 ?= e2)%Z with
         | Lt => Lt | Gt => Gt | Eq => Pos.compare_cont Eq m1 m2 end) with
  | Lt => IZR (Z.pos m1) * bpow e1 < IZR (Z.pos m2) * bpow e2
  | Eq => IZR (Z.pos m1) * bpow e1 = IZR (Z.pos m2) * bpow e2
  | Gt => IZR (Z.pos m2) * bpow e2 < IZR (Z.pos m1) * bpow e1
  end.
Proof.
  intros H1 H2. destruct (Z.compare_spec e1 e2) as [->|Hlt|Hgt].
  - change (Pos.compare_cont Eq m1 m2) with (m1 ?= m2)%positive.
    pose proof (bpow_pos e2).
    destruct (Pos.compare_spec m1 m2) as [->|Hm|Hm]; [reflexivity| |].
    + assert (IZR (Z.pos m1) < IZR (Z.pos m2)) by (apply IZR_lt; lia). nra.
    + assert (IZR (Z.pos m2) < IZR (Z.pos m1)) by (apply IZR_lt; lia). nra.
  - by apply finite_pos_lt_exp.
  - by apply finite_pos_lt_exp.
Qed.

Lemma valid_flip (s s' : bool) (m : positive) (e : Z) :
  valid_binary (S754_finite s m e) = true →
  valid_binary (S754_finite s' m e) = true.
Proof. auto. Qed.

Lemma SF2R_finite (s : bool) (m : positive) (e : Z) :
  SF2R (S754_finite s m e) = (if s then -1 else 1) * (IZR (Z.pos m) * bpow e).
Proof.
  cbn [SF2R]. destruct s; cbn [cond_Zopp]; [|lra].
  change (- Z.pos m)%Z with (Z.opp (Z.pos m)). rewrite opp_IZR. lra.
Qed.

(** The order of valid floats is the order of the reals they stand for. *)
Lemma SFcompare_SF2R (x y : spec_float) :
  valid_binary x = true → valid_binary y = true →
  x ≠ S754_nan → y ≠ S754_nan →
  match SFcompare x y with
  | Some Lt => SF2R x < SF2R y
  | Some Eq => SF2R x = SF2R y
  | Some Gt => SF2R y < SF2R x
  | None => False
  end.
Proof.
  intros Vx Vy Nx Ny. pose proof (bpow_pos emax) as Hmax.
  pose proof (bpow_pos emin) as Hmin.
  assert (Hfin : ∀ s m e, valid_binary (S754_finite s m e) = true →
            bpow emin <= IZR (Z.pos m) * bpow e < bpow emax).
  { intros s m e V. pose proof (SF2R_finite_pos m e (valid_flip _ false _ _ V)) as H.
    rewrite SF2R_finite in H. lra. }
  destruct x as [sx|sx| |sx mx ex], y as [sy|sy| |sy my ey]; try congruence;
    cbn [SFcompare]; rewrite ?SF2R_finite;
    try pose proof (Hfin _ _ _ Vx) as Hx; try pose proof (Hfin _ _ _ Vy) as Hy.
  - reflexivity.
  - destruct sy; cbn [SF2R]; lra.
  - destruct sy; cbn [SF2R]; lra.
  - destruct sx; cbn [SF2R]; lra.
  - destruct sx, sy; cbn [SF2R]; lra.
  - destruct sx, sy; cbn [SF2R]; lra.
  - destruct sx; cbn [SF2R]; lra.
  - destruct sx, sy; cbn [SF2R]; lra.
  - pose proof (finite_pos_compare mx my ex ey (valid_flip _ false _ _ Vx)
                  (valid_flip _ false _ _ Vy)) as Hc.
    destruct sx, sy; try lra;
      destruct (ex ?= ey)%Z; try destruct (Pos.compare_cont Eq mx my);
      cbn [CompOpp]; lra.
Qed.

(** *** The value of a rounded mantissa *)

Lemma SFpack_value (s : bool) (m E : Z) :
  (0 <= m <= 2 ^ prec)%Z → (emin <= E)%Z →
  ((emin < E)%Z → (2 ^ (prec - 1) <= m)%Z) →
  SFpack s m E ≠ S754_nan ∧
  SF2R (SFpack s m E) =
  (if s then -1 else 1) * Rmin (IZR m * bpow E) (bpow emax).
Proof.
  intros Hm HE Hlo. unfold SFpack. pose proof (bpow_pos E) as HpE.
  pose proof (bpow_pos emax) as Hmax.
  destruct m as [|p|p]; [| |lia].
  - split; [discriminate|]. cbn [SF2R]. rewrite Rmult_0_l, Rmin_left by lra.
    destruct s; lra.
  - assert (HpR : IZR (Z.pos p) <= bpow prec).
    { rewrite bpow_IZR by (unfold prec; lia). apply IZR_le. lia. }
    destruct (Z.ltb_spec (Z.pos p) (2 ^ prec)) as [Hlt|Hge].
    + assert (HpR' : IZR (Z.pos p) < bpow prec).
      { rewrite bpow_IZR by (unfold prec; lia). by apply IZR_lt. }
      destruct (Z.leb_spec E (emax - prec)) as [HE'|HE'].
      * split; [discriminate|]. rewrite SF2R_finite.
        pose proof (bpow_le (prec + E) emax ltac:(lia)) as Hle.
        rewrite bpow_add in Hle.
        rewrite Rmin_left by nra. reflexivity.
      * split; [discriminate|]. cbn [SF2R].
        specialize (Hlo ltac:(z64; lia)).
        apply IZR_le in Hlo. rewrite <- bpow_IZR in Hlo by (unfold prec; lia).
        pose proof (bpow_le emax (prec - 1 + E) ltac:(lia)) as Hle.
        rewrite bpow_add in Hle.
        rewrite Rmin_right by nra.
        destruct s; lra.
    + assert (Z.pos p = 2 ^ prec)%Z as Hp by lia. rewrite Hp.
      rewrite <- bpow_IZR by (unfold prec; lia). rewrite <- bpow_add.
      destruct (Z.leb_spec (E + 1) (emax - prec)) as [HE'|HE'].
      * split; [discriminate|]. rewrite SF2R_finite.
        pose proof (bpow_le (prec + E) emax ltac:(lia)) as Hle.
        rewrite Rmin_left by lra.
        change (Z.to_pos (2 ^ (prec - 1))) with 4503599627370496%positive.
        change (Z.pos 4503599627370496) with (2 ^ (prec - 1))%Z.
        assert (Hv : IZR (2 ^ (prec - 1)) * bpow (E + 1) = bpow (prec + E)).
        { rewrite <- bpow_IZR by (unfold prec; lia). rewrite <- bpow_add.
          f_equal. lia. }
        rewrite Hv. reflexivity.
      * split; [discriminate|]. cbn [SF2R].
        pose proof (bpow_le emax (prec + E) ltac:(lia)) as Hle.
        rewrite Rmin_right by lra.
        destruct s; lra.
Qed.

(** *** What [rounds] gives *)

Lemma rounds_value (s : bool) (X : R) (z : spec_float) :
  rounds s X z →
  ∃ E m l, canon_exp X E ∧ (0 <= m)%Z ∧ inbetween m (X * bpow (- E)) l ∧
    (round_nearest_even m l <= 2 ^ prec)%Z ∧
    ((emin < E)%Z → (2 ^ (prec - 1) <= m)%Z) ∧
    z ≠ S754_nan ∧
    SF2R z = sign_factor s *
             Rmin (IZR (round_nearest_even m l) * bpow E) (bpow emax).
Proof.
  intros (HX & E & m & l & Hc & Hm & Hin & ->).
  destruct (canon_mantissa X E m l Hc Hin Hm) as [Hlt Hge].
  destruct (round_nearest_even_bounds _ _ _ Hin) as [Hr _].
  exists E, m, l. do 3 (split; [assumption|]). split; [lia|]. split; [exact Hge|].
  apply SFpack_value; [lia|apply Hc|].
  intros HE. specialize (Hge HE). lia.
Qed.

Lemma canon_exp_le (X1 X2 : R) (E1 E2 : Z) :
  canon_exp X1 E1 → canon_exp X2 E2 → X1 <= X2 → (E1 <= E2)%Z.
Proof.
  intros (H1 & Hhi1 & Hlo1) (H2 & Hhi2 & Hlo2) HX.
  destruct (Z_le_gt_dec E1 E2) as [|Hgt]; [assumption|].
  specialize (Hlo1 ltac:(lia)).
  pose proof (bpow_le (E2 + prec) (E1 + prec - 1) ltac:(lia)). lra.
Qed.

(** The rounded magnitude grows with the real. *)
Lemma rounds_mono (s1 s2 : bool) (X1 X2 : R) (z1 z2 : spec_float) :
  rounds s1 X1 z1 → rounds s2 X2 z2 → X1 <= X2 →
  sign_factor s1 * SF2R z1 <= sign_factor s2 * SF2R z2.
Proof.
  intros H1 H2 HX.
  pose proof H1 as [HX1 _]. pose proof H2 as [HX2 _].
  destruct (rounds_value _ _ _ H1) as (E1 & a & la & Hc1 & Ha & Hina & Ha53 & Halo & _ & ->).
  destruct (rounds_value _ _ _ H2) as (E2 & b & lb & Hc2 & Hb & Hinb & Hb53 & Hblo & _ & ->).
  assert (Hss : ∀ s v, sign_factor s * (sign_factor s * v) = v)
    by (intros [] v; unfold sign_factor; lra).
  rewrite !Hss. apply Rle_min_compat_r.
  pose proof (canon_exp_le _ _ _ _ Hc1 Hc2 HX) as HE.
  destruct (round_nearest_even_bounds _ _ _ Hinb) as [Hrb _].
  destruct (Z.eq_dec E1 E2) as [->|Hne].
  - pose proof (bpow_pos E2). pose proof (bpow_pos (- E2)).
    assert (round_nearest_even a la <= round_nearest_even b lb)%Z as Hr.
    { apply (round_nearest_even_mono a b _ _ la lb Hina Hinb). nra. }
    apply IZR_le in Hr. nra.
  - specialize (Hblo ltac:(destruct Hc1; lia)).
    apply IZR_le in Ha53. rewrite <- bpow_IZR in Ha53 by (unfold prec; lia).
    assert (IZR (2 ^ (prec - 1)) <= IZR (round_nearest_even b lb)) as Hb52
      by (apply IZR_le; lia).
    rewrite <- bpow_IZR in Hb52 by (unfold prec; lia).
    pose proof (bpow_pos E1). pose proof (bpow_pos E2).
    pose proof (bpow_le (prec + E1) (prec - 1 + E2) ltac:(lia)) as Hle.
    rewrite !bpow_add in Hle. nra.
Qed.

Lemma rounds_sign (s : bool) (X : R) (z : spec_float) :
  rounds s X z → 0 <= sign_factor s * SF2R z.
Proof.
  intros H. pose proof H as [HX _].
  destruct (rounds_value _ _ _ H) as (E & m & l & _ & Hm & Hin & _ & _ & _ & ->).
  destruct (round_nearest_even_bounds _ _ _ Hin) as [Hr _].
  assert (0 <= IZR (round_nearest_even m l)) by (apply IZR_le; lia).
  pose proof (bpow_pos E). pose proof (bpow_pos emax).
  assert (0 <= Rmin (IZR (round_nearest_even m l) * bpow E) (bpow emax))
    by (apply Rmin_glb; nra).
  destruct s; unfold sign_factor; lra.
Qed.

Lemma rounds_zero (s : bool) (z : spec_float) : rounds s 0 z → SF2R z = 0.
Proof.
  intros H. destruct (rounds_value _ _ _ H) as (E & m & l & _ & Hm & Hin & _ & _ & _ & ->).
  rewrite Rmult_0_l in Hin.
  assert (m = 0%Z) as ->.
  { apply inbetween_bounds in Hin. destruct Hin as [H1 H2].
    apply le_IZR in H1. lia. }
  assert (l = loc_Exact) as ->.
  { destruct l as [|[]]; cbn [inbetween] in Hin; try reflexivity; lra. }
  cbn [round_nearest_even]. rewrite Rmult_0_l.
  pose proof (bpow_pos emax). rewrite Rmin_left by lra. lra.
Qed.

Lemma rounds_to_not_nan (Y : R) (z : spec_float) : rounds_to Y z → z ≠ S754_nan.
Proof.
  intros (s & X & H & _). by destruct (rounds_value _ _ _ H) as (? & ? & ? & ? & ? & ? & ? & ? & ? & ?).
Qed.

(** Rounding is monotone on the reals. *)
Lemma rounds_to_mono (Y1 Y2 : R) (z1 z2 : spec_float) :
  rounds_to Y1 z1 → rounds_to Y2 z2 → Y1 <= Y2 → SF2R z1 <= SF2R z2.
Proof.
  intros (s1 & X1 & H1 & ->) (s2 & X2 & H2 & ->) HY.
  pose proof H1 as [HX1 _]. pose proof H2 as [HX2 _].
  pose proof (rounds_sign _ _ _ H1) as S1. pose proof (rounds_sign _ _ _ H2) as S2.
  destruct s1, s2; unfold sign_factor in *.
  - pose proof (rounds_mono _ _ _ _ _ _ H2 H1 ltac:(lra)) as Hm.
    unfold sign_factor in Hm. lra.
  - lra.
  - assert (X1 = 0) as -> by lra. assert (X2 = 0) as -> by lra.
    rewrite (rounds_zero _ _ H1), (rounds_zero _ _ H2). lra.
  - pose proof (rounds_mono _ _ _ _ _ _ H1 H2 ltac:(lra)) as Hm.
    unfold sign_factor in Hm. lra.
Qed.

(** A valid float is its own rounding. *)
Lemma rounds_self (s : bool) (m : positive) (e : Z) :
  valid_binary (S754_finite s m e) = true →
  rounds s (IZR (Z.pos m) * bpow e) (S754_finite s m e).
Proof.
  intros V. pose proof (valid_finite_bounds _ _ _ V) as (He & Hhi & Hlo).
  pose proof (bpow_pos e) as Hp.
  assert (0 < IZR (Z.pos m)) by (apply IZR_lt; lia).
  split; [nra|]. exists e, (Z.pos m), loc_Exact.
  split; [|split; [lia|split]].
  - split; [lia|]. split.
    + rewrite Z.add_comm, bpow_add.
      apply IZR_lt in Hhi. rewrite <- bpow_IZR in Hhi by (unfold prec; lia). nra.
    + intros HE. specialize (Hlo HE).
      replace (e + prec - 1)%Z with ((prec - 1) + e)%Z by lia. rewrite bpow_add.
      apply IZR_le in Hlo. rewrite <- bpow_IZR in Hlo by (unfold prec; lia). nra.
  - cbn [inbetween]. rewrite Rmult_assoc, <- bpow_add.
    replace (e + - e)%Z with 0%Z by lia. rewrite bpow_0. lra.
  - cbn [round_nearest_even]. unfold SFpack.
    rewrite (proj2 (Z.ltb_lt _ _)) by lia.
    rewrite (proj2 (Z.leb_le _ _)) by lia. reflexivity.
Qed.

Lemma rounds_to_self (x : spec_float) :
  valid_binary x = true → x ≠ S754_nan →
  (∀ s, x ≠ S754_infinity s) →
  rounds_to (SF2R x) x.
Proof.
  intros V Hn Hi. destruct x as [s|s| |s m e]; try congruence.
  - exists s, 0. split; [|cbn [SF2R]; lra].
    split; [lra|]. exists emin, 0%Z, loc_Exact.
    split; [|split; [lia|split]].
    + split; [lia|]. split; [apply bpow_pos|lia].
    + cbn [inbetween]. lra.
    + reflexivity.
  - exists s, (IZR (Z.pos m) * bpow e). split; [by apply rounds_self|].
    apply SF2R_finite.
Qed.

(** *** Addition *)

Lemma pos_iter_xO (m d : positive) :
  Z.pos (Pos.iter xO m d) = (Z.pos m * 2 ^ Z.pos d)%Z ∧
  digits2_pos (Pos.iter xO m d) = (digits2_pos m + d)%positive.
Proof.
  induction d as [|d [IH1 IH2]] using Pos.peano_ind.
  - cbn [Pos.iter digits2_pos]. split; [lia|]. lia.
  - rewrite Pos.iter_succ. cbn [digits2_pos]. split.
    + rewrite Pos2Z.inj_xO, IH1, Pos2Z.inj_succ, Z.pow_succ_r by lia. lia.
    + rewrite IH2. lia.
Qed.

Lemma shl_align_spec (mx : positive) (ex ez : Z) :
  (ez <= ex)%Z →
  ∃ m', shl_align mx ex ez = (m', ez) ∧
        Z.pos m' = (Z.pos mx * 2 ^ (ex - ez))%Z ∧
        Z.pos (digits2_pos m') = (Z.pos (digits2_pos mx) + (ex - ez))%Z.
Proof.
  intros Hle. unfold shl_align.
  destruct (ez - ex)%Z as [|d|d] eqn:Hd; [|lia|].
  - assert (ez = ex) as -> by lia. exists mx. rewrite Z.sub_diag. split; [reflexivity|].
    split; lia.
  - destruct (pos_iter_xO mx d) as [H1 H2]. exists (Pos.iter xO mx d).
    replace (ex - ez)%Z with (Z.pos d) by lia. split; [reflexivity|].
    split; [exact H1|]. rewrite H2. lia.
Qed.

Lemma shl_align_value (mx : positive) (ex ez : Z) :
  (ez <= ex)%Z →
  IZR (Z.pos (shl_align mx ex ez).1) * bpow ez = IZR (Z.pos mx) * bpow ex.
Proof.
  intros Hle. destruct (shl_align_spec mx ex ez Hle) as (m' & -> & Hv & _).
  cbn [fst]. rewrite Hv, mult_IZR, <- bpow_IZR by lia.
  rewrite Rmult_assoc, <- bpow_add. do 2 f_equal. lia.
Qed.

Lemma binary_round_rounds (s : bool) (mx : positive) (ex : Z) :
  rounds s (IZR (Z.pos mx) * bpow ex) (binary_round prec emax s mx ex).
Proof.
  pose proof (bpow_pos ex) as Hp.
  assert (0 < IZR (Z.pos mx)) by (apply IZR_lt; lia).
  split; [nra|]. unfold binary_round.
  set (E := fexp prec emax (Z.pos (digits2_pos mx) + ex)).
  assert (Hpre : ∃ mz ez, shl_align mx ex E = (mz, ez) ∧
            IZR (Z.pos mz) * bpow ez = IZR (Z.pos mx) * bpow ex ∧
            (ez <= fexp prec emax (Zdigits2 (Z.pos mz) + ez))%Z).
  { destruct (Z_le_gt_dec E ex) as [Hle|Hgt].
    - destruct (shl_align_spec mx ex E Hle) as (m' & Heq & Hv & Hd).
      exists m', E. split; [exact Heq|]. split.
      + pose proof (shl_align_value mx ex E Hle) as Hval. by rewrite Heq in Hval.
      + cbn [Zdigits2]. rewrite Hd.
        replace (Z.pos (digits2_pos mx) + (ex - E) + E)%Z
          with (Z.pos (digits2_pos mx) + ex)%Z by lia.
        fold E. lia.
    - exists mx, ex. unfold shl_align.
      destruct (E - ex)%Z as [|d|d] eqn:Hd; [lia| |lia].
      split; [reflexivity|]. split; [reflexivity|]. cbn [Zdigits2]. fold E. lia. }
  destruct Hpre as (mz & ez & -> & Hval & Hpre).
  destruct (binary_round_aux_spec s (Z.pos mz) ez loc_Exact (IZR (Z.pos mx) * bpow ex))
    as (E' & m' & l' & Hc & Hm' & Hin & ->); [lia| |exact Hpre|].
  - cbn [inbetween]. rewrite <- Hval, Rmult_assoc, <- bpow_add.
    replace (ez + - ez)%Z with 0%Z by lia. rewrite bpow_0. lra.
  - exists E', m', l'. auto.
Qed.

Lemma binary_normalize_rounds_to (M e : Z) (sz : bool) :
  rounds_to (IZR M * bpow e) (binary_normalize prec emax M e sz).
Proof.
  destruct M as [|p|p]; cbn [binary_normalize].
  - exists sz, 0. split; [|lra].
    split; [lra|]. exists emin, 0%Z, loc_Exact.
    split; [|split; [lia|split]].
    + split; [lia|]. split; [apply bpow_pos|lia].
    + cbn [inbetween]. lra.
    + reflexivity.
  - exists false, (IZR (Z.pos p) * bpow e). split; [apply binary_round_rounds|].
    unfold sign_factor. lra.
  - exists true, (IZR (Z.pos p) * bpow e). split; [apply binary_round_rounds|].
    unfold sign_factor. change (Z.neg p) with (Z.opp (Z.pos p)). rewrite opp_IZR. lra.
Qed.

(** A number: neither a NaN nor an infinity. *)
Lemma SFadd_rounds_to (x y : spec_float) :
  valid_binary x = true → valid_binary y = true →
  x ≠ S754_nan → y ≠ S754_nan →
  (∀ s, x ≠ S754_infinity s) → (∀ s, y ≠ S754_infinity s) →
  rounds_to (SF2R x + SF2R y) (SFadd prec emax x y).
Proof.
  intros Vx Vy Nx Ny Ix Iy.
  destruct x as [sx|sx| |sx mx ex]; try congruence;
    destruct y as [sy|sy| |sy my ey]; try congruence; cbn [SFadd].
  - replace (SF2R (S754_zero sx) + SF2R (S754_zero sy)) with (SF2R (S754_zero false))
      by (cbn [SF2R]; lra).
    destruct sx, sy;
      match goal with |- rounds_to _ ?z =>
        replace (SF2R (S754_zero false)) with (SF2R z) by reflexivity end;
      by apply rounds_to_self.
  - replace (SF2R (S754_zero sx) + SF2R (S754_finite sy my ey))
      with (SF2R (S754_finite sy my ey)) by (cbn [SF2R]; lra).
    by apply rounds_to_self.
  - replace (SF2R (S754_finite sx mx ex) + SF2R (S754_zero sy))
      with (SF2R (S754_finite sx mx ex)) by (cbn [SF2R]; lra).
    by apply rounds_to_self.
  - set (ez := Z.min ex ey).
    match goal with |- rounds_to _ (binary_normalize _ _ ?M _ _) =>
      replace (SF2R (S754_finite sx mx ex) + SF2R (S754_finite sy my ey))
        with (IZR M * bpow ez); [apply binary_normalize_rounds_to|] end.
    rewrite plus_IZR, Rmult_plus_distr_r, !SF2R_finite.
    pose proof (shl_align_value mx ex ez ltac:(lia)) as Hx.
    pose proof (shl_align_value my ey ez ltac:(lia)) as Hy.
    destruct sx, sy; cbn [cond_Zopp]; rewrite ?opp_IZR; lra.
Qed.

End Real64Facts.

(** ** Order and addition of binary64 numbers *)

Module Float64Facts.
Import Real64 Real64Facts.
Local Open Scope R_scope.

Lemma F2R_valid (x : float) : valid_binary (Prim2SF x) = true.
Proof. apply Prim2SF_valid. Qed.

(** A float that is a number: zero or finite. *)
Lemma is_finite_spec (x : float) :
  is_finite x = true ↔
  Prim2SF x ≠ S754_nan ∧ ∀ s, Prim2SF x ≠ S754_infinity s.
Proof.
  unfold is_finite, is_infinity.
  rewrite negb_true_iff, orb_false_iff, F64.not_nan_spec.
  rewrite FloatAxioms.eqb_spec, FloatAxioms.abs_spec.
  change (Prim2SF infinity) with (S754_infinity false).
  split.
  - intros [Hn Hi]. split; [exact Hn|]. intros s Hs. rewrite Hs in Hi. discriminate.
  - intros [Hn Hi]. split; [exact Hn|].
    destruct (Prim2SF x) as [s|s| |s m e]; try reflexivity.
    exfalso. by apply (Hi s).
Qed.

Lemma SF2R_range (z : spec_float) :
  valid_binary z = true →
  - bpow emax <= SF2R z <= bpow emax ∧
  (SF2R z = bpow emax → z = S754_infinity false) ∧
  (SF2R z = - bpow emax → z = S754_infinity true).
Proof.
  intros V. pose proof (bpow_pos emax) as Hmax.
  destruct z as [s|s| |s m e]; cbn [SF2R].
  - repeat split; intros; lra.
  - destruct s; repeat split; intros; try lra; reflexivity.
  - repeat split; intros; lra.
  - pose proof (SF2R_finite_pos m e (valid_flip _ false _ _ V)) as H.
    pose proof (bpow_pos emin).
    rewrite SF2R_finite in H. fold (SF2R (S754_finite s m e)).
    rewrite SF2R_finite. destruct s; repeat split; intros; lra.
Qed.

(** The comparisons of floats are the comparisons of the reals. *)
Lemma leb_F2R (x y : float) :
  is_nan x = false → is_nan y = false →
  ((x <=? y)%float = true ↔ F2R x <= F2R y).
Proof.
  intros Hx%F64.not_nan_spec Hy%F64.not_nan_spec.
  rewrite FloatAxioms.leb_spec. unfold SFleb, F2R.
  pose proof (SFcompare_SF2R _ _ (F2R_valid x) (F2R_valid y) Hx Hy) as Hc.
  destruct (SFcompare (Prim2SF x) (Prim2SF y)) as [[]|]; split; intros; try lra;
    try reflexivity; try discriminate; try contradiction.
Qed.

Lemma ltb_F2R (x y : float) :
  is_nan x = false → is_nan y = false →
  ((x <? y)%float = true ↔ F2R x < F2R y).
Proof.
  intros Hx%F64.not_nan_spec Hy%F64.not_nan_spec.
  rewrite FloatAxioms.ltb_spec. unfold SFltb, F2R.
  pose proof (SFcompare_SF2R _ _ (F2R_valid x) (F2R_valid y) Hx Hy) as Hc.
  destruct (SFcompare (Prim2SF x) (Prim2SF y)) as [[]|]; split; intros; try lra;
    try reflexivity; try discriminate; try contradiction.
Qed.

Lemma leb_not_nan (x y : float) :
  (x <=? y)%float = true → is_nan x = false ∧ is_nan y = false.
Proof.
  rewrite FloatAxioms.leb_spec, !F64.not_nan_spec. unfold SFleb. intros H.
  split; intros Hn; rewrite Hn in H; simpl in H; try discriminate.
  destruct (Prim2SF x); discriminate.
Qed.

Lemma leb_trans (x y z : float) :
  (x <=? y)%float = true → (y <=? z)%float = true → (x <=? z)%float = true.
Proof.
  intros Hxy Hyz.
  destruct (leb_not_nan _ _ Hxy) as [Hx Hy]. destruct (leb_not_nan _ _ Hyz) as [_ Hz].
  apply leb_F2R in Hxy, Hyz; try assumption. apply leb_F2R; try assumption. lra.
Qed.

Lemma leb_total (x y : float) :
  is_nan x = false → is_nan y = false →
  (x <=? y)%float = true ∨ (y <=? x)%float = true.
Proof.
  intros Hx Hy. destruct (Rle_or_lt (F2R x) (F2R y)) as [H|H].
  - left. by apply leb_F2R.
  - right. apply leb_F2R; try assumption. lra.
Qed.

(** What the sum of a number [x] (or an infinity) and a finite [c] is. *)
Lemma add_cases (x c : float) :
  is_nan x = false → is_finite c = true →
  (∃ s, Prim2SF x = S754_infinity s ∧ Prim2SF (x + c) = S754_infinity s) ∨
  ((∀ s, Prim2SF x ≠ S754_infinity s) ∧
   rounds_to (F2R x + F2R c) (Prim2SF (x + c))).
Proof.
  intros Hx%F64.not_nan_spec [Hcn Hci]%is_finite_spec.
  rewrite FloatAxioms.add_spec. unfold SF64add.
  destruct (Prim2SF x) as [s|s| |s m e] eqn:Ex; try congruence.
  2:{ left. exists s. split; [reflexivity|].
      destruct (Prim2SF c) as [sc|sc| |sc mc ec]; try congruence; try reflexivity. }
  all: right; (split; [discriminate|]); unfold F2R; rewrite Ex;
    apply SFadd_rounds_to; try discriminate; try assumption;
    try apply F2R_valid; rewrite <- Ex; apply F2R_valid.
Qed.

(** F1.  The sum of a number or an infinity and a finite number is no NaN. *)
Lemma add_not_nan (x c : float) :
  is_nan x = false → is_finite c = true → is_nan (x + c) = false.
Proof.
  intros Hx Hc. apply F64.not_nan_spec.
  destruct (add_cases x c Hx Hc) as [(s & _ & ->)|[_ H]]; [discriminate|].
  by apply rounds_to_not_nan in H.
Qed.

(** F2.  Adding the same finite number keeps the order. *)
Lemma add_mono (x y c : float) :
  (x <=? y)%float = true → is_finite c = true →
  (x + c <=? y + c)%float = true.
Proof.
  intros Hxy Hc. destruct (leb_not_nan _ _ Hxy) as [Hx Hy].
  pose proof (add_not_nan x c Hx Hc) as Nx. pose proof (add_not_nan y c Hy Hc) as Ny.
  apply leb_F2R; try assumption. apply leb_F2R in Hxy; try assumption.
  pose proof (SF2R_range _ (F2R_valid x)) as (Rx & Tx & Bx).
  pose proof (SF2R_range _ (F2R_valid y)) as (Ry & Ty & By).
  pose proof (SF2R_range _ (F2R_valid (x + c))) as (Rxc & _ & _).
  pose proof (SF2R_range _ (F2R_valid (y + c))) as (Ryc & _ & _).
  pose proof (bpow_pos emax) as Hmax.
  unfold F2R in *.
  destruct (add_cases x c Hx Hc) as [(sx & Ex & Exc)|[Ix Hrx]];
    destruct (add_cases y c Hy Hc) as [(sy & Ey & Eyc)|[Iy Hry]].
  - rewrite Exc, Eyc. rewrite Ex, Ey in Hxy. exact Hxy.
  - rewrite Exc. rewrite Ex in Hxy. destruct sx; cbn [SF2R] in *; [lra|].
    exfalso. assert (SF2R (Prim2SF y) = bpow emax) as H by lra.
    apply Ty in H. by apply (Iy false).
  - rewrite Eyc. rewrite Ey in Hxy. destruct sy; cbn [SF2R] in *; [|lra].
    exfalso. assert (SF2R (Prim2SF x) = - bpow emax) as H by lra.
    apply Bx in H. by apply (Ix true).
  - apply (rounds_to_mono _ _ _ _ Hrx Hry). unfold F2R. lra.
Qed.

(** F3.  Adding a finite number that is not negative does not lower. *)
Lemma add_increasing (x c : float) :
  is_nan x = false → is_finite c = true → (0 <=? c)%float = true →
  (x <=? x + c)%float = true.
Proof.
  intros Hx Hc H0. destruct (leb_not_nan _ _ H0) as [_ Hcn].
  pose proof (add_not_nan x c Hx Hc) as Nx.
  apply leb_F2R; try assumption.
  apply leb_F2R in H0; [|reflexivity|assumption].
  change (F2R 0) with 0 in H0.
  destruct (add_cases x c Hx Hc) as [(sx & Ex & Exc)|[Ix Hrx]].
  - unfold F2R. rewrite Ex, Exc. lra.
  - apply (rounds_to_mono (F2R x) (F2R x + F2R c)); [|exact Hrx|lra].
    apply rounds_to_self; [apply F2R_valid|by apply F64.not_nan_spec|exact Ix].
Qed.

End Float64Facts.

(** ** Division *)

Module DivFacts.
Import Real64 Real64Facts.
Local Open Scope R_scope.

Lemma new_location_inbetween (nb k q : Z) :
  (0 < nb)%Z → (0 <= k < nb)%Z →
  inbetween q (IZR q + IZR k / IZR nb) (new_location nb k).
Proof.
  intros Hnb Hk.
  assert (Hn : 0 < IZR nb) by (apply IZR_lt; lia).
  set (t := IZR k / IZR nb).
  assert (Ht : t * IZR nb = IZR k) by (unfold t; field; lra).
  assert (Hk0 : (k = 0)%Z → t = 0).
  { intros ->. unfold t. rewrite Rdiv_0_l. reflexivity. }
  assert (Hkp : (0 < k)%Z → 0 < t).
  { intros H. apply IZR_lt in H. unfold t. apply Rdiv_lt_0_compat; lra. }
  assert (Hk1 : t < 1).
  { assert (IZR k < IZR nb) by (apply IZR_lt; lia). nra. }
  assert (Hcmp : ∀ a : Z, (a < nb)%Z → (a = 2 * k)%Z → t < / 2).
  { intros a Ha ->. apply IZR_lt in Ha. rewrite mult_IZR in Ha. nra. }
  assert (Hcmp' : ∀ a : Z, (nb < a)%Z → (a = 2 * k)%Z → / 2 < t).
  { intros a Ha ->. apply IZR_lt in Ha. rewrite mult_IZR in Ha. nra. }
  unfold new_location, new_location_even, new_location_odd.
  destruct (Z.even nb) eqn:Hev.
  - destruct (Z.eqb_spec k 0) as [->|Hne]; cbn [inbetween].
    + rewrite (Hk0 eq_refl). lra.
    + specialize (Hkp ltac:(lia)).
      destruct (Z.compare_spec (2 * k) nb) as [Heq|Hlt|Hgt]; cbn [inbetween].
      * assert (t = / 2); [|lra].
        apply (f_equal IZR) in Heq. rewrite mult_IZR in Heq. nra.
      * specialize (Hcmp (2 * k)%Z Hlt eq_refl). lra.
      * specialize (Hcmp' (2 * k)%Z Hgt eq_refl). lra.
  - destruct (Z.eqb_spec k 0) as [->|Hne]; cbn [inbetween].
    + rewrite (Hk0 eq_refl). lra.
    + specialize (Hkp ltac:(lia)).
      assert (Hodd : (nb ≠ 2 * k)%Z).
      { intros ->. rewrite Z.even_mul in Hev. discriminate. }
      destruct (Z.compare_spec (2 * k + 1) nb) as [Heq|Hlt|Hgt]; cbn [inbetween].
      * specialize (Hcmp (2 * k)%Z ltac:(lia) eq_refl). lra.
      * specialize (Hcmp (2 * k)%Z ltac:(lia) eq_refl). lra.
      * specialize (Hcmp' (2 * k)%Z ltac:(lia) eq_refl). lra.
Qed.

Lemma SFdiv_core_binary_spec (mx my : positive) (ex ey : Z) :
  ∃ q e' l,
    SFdiv_core_binary prec emax (Z.pos mx) ex (Z.pos my) ey = (q, e', l) ∧
    (0 <= q)%Z ∧
    inbetween q (IZR (Z.pos mx) * bpow ex / (IZR (Z.pos my) * bpow ey) * bpow (- e')) l ∧
    (e' <= fexp prec emax (Zdigits2 q + e'))%Z.
Proof.
  unfold SFdiv_core_binary.
  set (d1 := Zdigits2 (Z.pos mx)). set (d2 := Zdigits2 (Z.pos my)).
  set (e' := Z.min (fexp prec emax (d1 + ex - (d2 + ey))) (ex - ey)).
  set (s := (ex - ey - e')%Z).
  assert (Hs : (0 <= s)%Z) by (subst s e'; lia).
  set (m' := match s with Z.pos _ => Z.shiftl (Z.pos mx) s | 0%Z => Z.pos mx | Z.neg _ => 0%Z end).
  assert (Hm' : m' = (Z.pos mx * 2 ^ s)%Z).
  { subst m'. destruct s as [|p|p] eqn:Es; [simpl; lia| |lia].
    apply Z.shiftl_mul_pow2. lia. }
  pose proof (Z_div_mod m' (Z.pos my) ltac:(lia)) as Hdiv.
  destruct (Z.div_eucl m' (Z.pos my)) as [q r]. destruct Hdiv as [Heq Hr].
  assert (Hpow : (0 < 2 ^ s)%Z) by (apply Z.pow_pos_nonneg; lia).
  assert (Hq : (0 <= q)%Z) by nia.
  exists q, e', (new_location (Z.pos my) r).
  split; [reflexivity|]. split; [exact Hq|]. split.
  - assert (Hy : 0 < IZR (Z.pos my)) by (apply IZR_lt; lia).
    pose proof (bpow_pos ey) as Hpy.
    replace (IZR (Z.pos mx) * bpow ex / (IZR (Z.pos my) * bpow ey) * bpow (- e'))
      with (IZR q + IZR r / IZR (Z.pos my)); [by apply new_location_inbetween|].
    assert (Hb : bpow ex * bpow (- e') = bpow ey * IZR (2 ^ s)).
    { rewrite <- (bpow_IZR s) by assumption. rewrite <- !bpow_add. f_equal.
      subst s. lia. }
    assert (Hm : IZR (Z.pos mx) * IZR (2 ^ s) = IZR (Z.pos my) * IZR q + IZR r).
    { rewrite <- mult_IZR, <- Hm', Heq, plus_IZR, mult_IZR. reflexivity. }
    transitivity (IZR (Z.pos mx) * (bpow ex * bpow (- e')) / (IZR (Z.pos my) * bpow ey));
      [|field; lra].
    rewrite Hb.
    transitivity (IZR (Z.pos mx) * IZR (2 ^ s) / IZR (Z.pos my)); [|field; lra].
    rewrite Hm. field; lra.
  - destruct (Z_le_gt_dec e' emin) as [Hle|Hgt].
    + pose proof (fexp_ge_emin (Zdigits2 q + e')). lia.
    + assert (HD : (e' + prec <= d1 + ex - (d2 + ey))%Z) by (subst e'; z64; lia).
      destruct (Zdigits2_bounds (Z.pos mx) ltac:(lia)) as [[Hlo1 _] Hd1].
      destruct (Zdigits2_bounds (Z.pos my) ltac:(lia)) as [[_ Hhi2] Hd2].
      fold d1 in Hlo1, Hd1. fold d2 in Hhi2, Hd2.
      assert (Hbig : (Z.pos my * 2 ^ (prec - 1) <= m')%Z).
      { rewrite Hm'.
        assert (2 ^ d2 * 2 ^ (prec - 1) <= 2 ^ (d1 - 1) * 2 ^ s)%Z.
        { rewrite <- !Z.pow_add_r by (unfold prec; lia).
          apply Z.pow_le_mono_r; [lia|]. subst s. unfold prec in *. lia. }
        assert (0 < 2 ^ (prec - 1))%Z by (apply Z.pow_pos_nonneg; unfold prec; lia).
        nia. }
      assert (Hq52 : (2 ^ (prec - 1) <= q)%Z).
      { assert (0 < 2 ^ (prec - 1))%Z by (apply Z.pow_pos_nonneg; unfold prec; lia).
        nia. }
      assert (0 < 2 ^ (prec - 1))%Z by (apply Z.pow_pos_nonneg; unfold prec; lia).
      destruct (Zdigits2_bounds q ltac:(lia)) as [[_ Hqhi] Hdq].
      assert (prec - 1 < Zdigits2 q)%Z.
      { apply (Z.pow_lt_mono_r_iff 2); lia. }
      z64. lia.
Qed.

Lemma SFdiv_rounds (sx sy : bool) (mx my : positive) (ex ey : Z) :
  rounds (xorb sx sy) (IZR (Z.pos mx) * bpow ex / (IZR (Z.pos my) * bpow ey))
         (SFdiv prec emax (S754_finite sx mx ex) (S754_finite sy my ey)).
Proof.
  assert (HX : 0 < IZR (Z.pos mx) * bpow ex / (IZR (Z.pos my) * bpow ey)).
  { pose proof (bpow_pos ex). pose proof (bpow_pos ey).
    assert (0 < IZR (Z.pos mx)) by (apply IZR_lt; lia).
    assert (0 < IZR (Z.pos my)) by (apply IZR_lt; lia).
    apply Rdiv_lt_0_compat; nra. }
  split; [lra|]. cbn [SFdiv].
  destruct (SFdiv_core_binary_spec mx my ex ey) as (q & e' & l & -> & Hq & Hin & Hpre).
  destruct (binary_round_aux_spec (xorb sx sy) q e' l _ Hq Hin Hpre)
    as (E & m & l' & Hc & Hm & Hin' & ->).
  exists E, m, l'. auto.
Qed.

End DivFacts.

(** ** The error of a rounding *)

Module ErrFacts.
Import Real64 Real64Facts.
Local Open Scope R_scope.

Lemma Rabs_le_both (x a : R) : Rabs x <= a → - a <= x <= a.
Proof. unfold Rabs. destruct (Rcase_abs x); lra. Qed.

(** The rounded mantissa of a result that is at least the least normal number
    has all its [prec] bits. *)
Lemma rounds_normal_mantissa (X : R) (E m : Z) (l : location) :
  canon_exp X E → (0 <= m)%Z → inbetween m (X * bpow (- E)) l →
  ((emin < E)%Z → (2 ^ (prec - 1) <= m)%Z) →
  bpow (emin + prec - 1) <= IZR (round_nearest_even m l) * bpow E →
  bpow (prec - 1) <= IZR (round_nearest_even m l).
Proof.
  intros Hc Hm Hin Hlo Hn.
  destruct (round_nearest_even_bounds _ _ _ Hin) as [Hr _].
  destruct (Z_le_gt_dec E emin) as [Hle|Hgt].
  - assert (E = emin) as -> by (destruct Hc; lia).
    replace (emin + prec - 1)%Z with ((prec - 1) + emin)%Z in Hn by lia.
    rewrite bpow_add in Hn. pose proof (bpow_pos emin). nra.
  - specialize (Hlo ltac:(lia)). rewrite bpow_IZR by (unfold prec; lia).
    apply IZR_le. lia.
Qed.

(** A result that is at least the least normal number is not more than the
    exact value by more than [2^-prec] of itself. *)
Lemma rounds_lower (s : bool) (X : R) (z : spec_float) :
  rounds s X z →
  bpow (emin + prec - 1) <= sign_factor s * SF2R z →
  sign_factor s * SF2R z * (1 - bpow (- prec)) <= X.
Proof.
  intros H Hn.
  destruct (rounds_value _ _ _ H) as (E & m & l & Hc & Hm & Hin & _ & Hlo & _ & Hv).
  assert (Hss : ∀ v, sign_factor s * (sign_factor s * v) = v)
    by (intros v; destruct s; unfold sign_factor; lra).
  rewrite Hv, Hss in Hn |- *.
  set (r := IZR (round_nearest_even m l)) in *.
  pose proof (Rmin_l (r * bpow E) (bpow emax)) as Hmin.
  assert (Hr52 : bpow (prec - 1) <= r).
  { apply (rounds_normal_mantissa X E m l); try assumption. fold r. lra. }
  destruct (round_nearest_even_bounds _ _ _ Hin) as (_ & Herr & _). fold r in Herr.
  apply Rabs_le_both in Herr.
  pose proof (bpow_pos E) as HE. pose proof (bpow_pos (- E)) as HE'.
  assert (HEE : bpow E * bpow (- E) = 1).
  { rewrite <- bpow_add. replace (E + - E)%Z with 0%Z by lia. apply bpow_0. }
  assert (Hu : bpow (prec - 1) * bpow (- prec) = / 2).
  { rewrite <- bpow_add. replace (prec - 1 + - prec)%Z with (-1)%Z by lia. apply bpow_m1. }
  pose proof (bpow_pos (- prec)) as Hup. pose proof (bpow_pos (prec - 1)) as H52.
  assert (Hu1 : bpow (- prec) < 1).
  { rewrite <- bpow_0. apply bpow_lt. unfold prec. lia. }
  assert (Hhalf : / 2 <= r * bpow (- prec)) by nra.
  assert (Hx : (r - / 2) * bpow E <= X).
  { assert (r - / 2 <= X * bpow (- E)) by lra.
    assert ((r - / 2) * bpow E <= X * bpow (- E) * bpow E) by nra.
    replace (X * bpow (- E) * bpow E) with (X * (bpow E * bpow (- E))) in * by ring.
    rewrite HEE in *. lra. }
  assert (r * bpow E * (1 - bpow (- prec)) <= X) by nra.
  assert (0 <= r * bpow E) by nra.
  nra.
Qed.

(** A finite result that is at least the least normal number is not less than
    the exact value by more than [2^-prec] of itself. *)
Lemma rounds_upper (s : bool) (X : R) (z : spec_float) :
  rounds s X z →
  bpow (emin + prec - 1) <= sign_factor s * SF2R z < bpow emax →
  X <= sign_factor s * SF2R z * (1 + bpow (- prec)).
Proof.
  intros H Hn.
  destruct (rounds_value _ _ _ H) as (E & m & l & Hc & Hm & Hin & _ & Hlo & _ & Hv).
  assert (Hss : ∀ v, sign_factor s * (sign_factor s * v) = v)
    by (intros v; destruct s; unfold sign_factor; lra).
  rewrite Hv, Hss in Hn |- *.
  set (r := IZR (round_nearest_even m l)) in *.
  assert (Hmin : Rmin (r * bpow E) (bpow emax) = r * bpow E).
  { unfold Rmin in *. destruct (Rle_dec (r * bpow E) (bpow emax)); lra. }
  rewrite Hmin in *.
  assert (Hr52 : bpow (prec - 1) <= r).
  { apply (rounds_normal_mantissa X E m l); try assumption. fold r. lra. }
  destruct (round_nearest_even_bounds _ _ _ Hin) as (_ & Herr & _). fold r in Herr.
  apply Rabs_le_both in Herr.
  pose proof (bpow_pos E) as HE. pose proof (bpow_pos (- E)) as HE'.
  assert (HEE : bpow E * bpow (- E) = 1).
  { rewrite <- bpow_add. replace (E + - E)%Z with 0%Z by lia. apply bpow_0. }
  assert (Hu : bpow (prec - 1) * bpow (- prec) = / 2).
  { rewrite <- bpow_add. replace (prec - 1 + - prec)%Z with (-1)%Z by lia. apply bpow_m1. }
  pose proof (bpow_pos (- prec)) as Hup. pose proof (bpow_pos (prec - 1)) as H52.
  assert (Hhalf : / 2 <= r * bpow (- prec)) by nra.
  assert (Hx : X <= (r + / 2) * bpow E).
  { assert (X * bpow (- E) <= r + / 2) by lra.
    assert (X * bpow (- E) * bpow E <= (r + / 2) * bpow E) by nra.
    replace (X * bpow (- E) * bpow E) with (X * (bpow E * bpow (- E))) in * by ring.
    rewrite HEE in *. lra. }
  nra.
Qed.

End ErrFacts.

(** ** Quotients of binary64 numbers *)

Module Float64Div.
Import Real64 Real64Facts Float64Facts DivFacts ErrFacts.
Local Open Scope R_scope.

(** A positive float is a finite positive number or plus infinity. *)
Lemma positive_cases (x : float) :
  (0 <? x)%float = true →
  Prim2SF x = S754_infinity false ∨ ∃ m e, Prim2SF x = S754_finite false m e.
Proof.
  rewrite FloatAxioms.ltb_spec. unfold SFltb.
  change (Prim2SF 0) with (S754_zero false).
  destruct (Prim2SF x) as [s|[]| |[] m e]; cbn; try discriminate; eauto.
Qed.

Lemma positive_finite (x : float) :
  (0 <? x)%float = true → is_finite x = true →
  ∃ m e, Prim2SF x = S754_finite false m e.
Proof.
  intros [H|H]%positive_cases [_ Hi]%is_finite_spec; [|exact H].
  by apply Hi in H.
Qed.

(** The quotient of two finite positive numbers is the exact quotient,
    rounded. *)
Lemma div_finite (x y : float) (mx my : positive) (ex ey : Z) :
  Prim2SF x = S754_finite false mx ex → Prim2SF y = S754_finite false my ey →
  rounds false (F2R x / F2R y) (Prim2SF (x / y)).
Proof.
  intros Ex Ey. rewrite FloatAxioms.div_spec. unfold SF64div, F2R.
  rewrite Ex, Ey. rewrite !SF2R_finite, !Rmult_1_l.
  apply (SFdiv_rounds false false).
Qed.

Lemma F2R_least_normal : F2R 0x1p-1022 = bpow (emin + prec - 1).
Proof.
  unfold F2R. change (Prim2SF 0x1p-1022) with (S754_finite false (Z.to_pos (2 ^ (prec - 1))) emin).
  rewrite SF2R_finite, Rmult_1_l.
  change (Z.pos (Z.to_pos (2 ^ (prec - 1)))) with (2 ^ (prec - 1))%Z.
  rewrite <- bpow_IZR by (unfold prec; lia). rewrite <- bpow_add. f_equal.
Qed.

(** D1.  When [cr < x / h] for positive [cr] and [h], the quotient [x / cr]
    is at least [h]. *)
Lemma div_back_ge (x h cr : float) :
  (0 <? cr)%float = true → (0 <? h)%float = true →
  (cr <? x / h)%float = true → (h <=? x / cr)%float = true.
Proof.
  intros Hcr Hh Hlt.
  pose proof Hlt as Hlt'. rewrite FloatAxioms.ltb_spec in Hlt'. unfold SFltb in Hlt'.
  rewrite FloatAxioms.div_spec in Hlt'. unfold SF64div in Hlt'.
  destruct (positive_cases _ Hcr) as [Ec|(mc & ec & Ec)];
    [rewrite Ec in Hlt';
     match type of Hlt' with context [SFcompare _ ?z] =>
       destruct z as [?|[]| |[] ? ?] end; cbn in Hlt'; discriminate|].
  rewrite Ec in Hlt'.
  destruct (Prim2SF x) as [sx|sx| |sx mx ex] eqn:Ex.
  - destruct (positive_cases _ Hh) as [Eh|(mh & eh & Eh)]; rewrite Eh in Hlt';
      cbn in Hlt'; discriminate.
  - destruct (positive_cases _ Hh) as [Eh|(mh & eh & Eh)]; rewrite Eh in Hlt';
      cbn in Hlt'; [discriminate|].
    rewrite FloatAxioms.leb_spec, FloatAxioms.div_spec. unfold SFleb, SF64div.
    rewrite Ex, Eh, Ec. cbn. destruct sx; [discriminate|reflexivity].
  - destruct (positive_cases _ Hh) as [Eh|(mh & eh & Eh)]; rewrite Eh in Hlt';
      cbn in Hlt'; discriminate.
  - destruct (positive_cases _ Hh) as [Eh|(mh & eh & Eh)];
      [rewrite Eh in Hlt'; cbn in Hlt'; discriminate|].
    clear Hlt'.
    assert (Nh : is_nan h = false) by (apply F64.not_nan_spec; congruence).
    assert (Nc : is_nan cr = false) by (apply F64.not_nan_spec; congruence).
    pose proof (SFdiv_rounds sx false mx mh ex eh) as R1.
    pose proof (SFdiv_rounds sx false mx mc ex ec) as R2.
    change (SFdiv prec emax) with SF64div in R1, R2.
    rewrite <- Ex, <- Eh, <- FloatAxioms.div_spec in R1.
    rewrite <- Ex, <- Ec, <- FloatAxioms.div_spec in R2.
    rewrite xorb_false_r in R1, R2.
    assert (N1 : is_nan (x / h) = false).
    { apply F64.not_nan_spec. eapply rounds_to_not_nan.
      eexists sx, _. split; [exact R1|reflexivity]. }
    assert (N2 : is_nan (x / cr) = false).
    { apply F64.not_nan_spec. eapply rounds_to_not_nan.
      eexists sx, _. split; [exact R2|reflexivity]. }
    apply ltb_F2R in Hlt; try assumption.
    apply leb_F2R; try assumption.
    assert (HC : F2R cr = IZR (Z.pos mc) * bpow ec)
      by (unfold F2R; rewrite Ec, SF2R_finite; lra).
    assert (HH : F2R h = IZR (Z.pos mh) * bpow eh)
      by (unfold F2R; rewrite Eh, SF2R_finite; lra).
    pose proof (bpow_pos ec). pose proof (bpow_pos eh). pose proof (bpow_pos ex).
    assert (0 < IZR (Z.pos mc)) by (apply IZR_lt; lia).
    assert (0 < IZR (Z.pos mh)) by (apply IZR_lt; lia).
    assert (0 < IZR (Z.pos mx)) by (apply IZR_lt; lia).
    assert (HCp : 0 < F2R cr) by (rewrite HC; nra).
    assert (HHp : 0 < F2R h) by (rewrite HH; nra).
    rewrite <- HH in R1. rewrite <- HC in R2.
    destruct sx.
    { pose proof (rounds_sign _ _ _ R1) as S1. unfold sign_factor, F2R in *. lra. }
    set (X := IZR (Z.pos mx) * bpow ex) in *. assert (0 < X) by (unfold X; nra).
    assert (Vh : rounds_to (F2R h) (Prim2SF h)).
    { apply rounds_to_self; [apply F2R_valid|congruence|congruence]. }
    assert (Vc : rounds_to (F2R cr) (Prim2SF cr)).
    { apply rounds_to_self; [apply F2R_valid|congruence|congruence]. }
    assert (T1 : rounds_to (X / F2R h) (Prim2SF (x / h))).
    { exists false, (X / F2R h). split; [exact R1|unfold sign_factor; lra]. }
    assert (T2 : rounds_to (X / F2R cr) (Prim2SF (x / cr))).
    { exists false, (X / F2R cr). split; [exact R2|unfold sign_factor; lra]. }
    destruct (Rle_or_lt (F2R h) (X / F2R cr)) as [Hle|Hgt].
    + apply (rounds_to_mono _ _ _ _ Vh T2 Hle).
    + exfalso.
      assert (Hq : X / F2R h <= F2R cr).
      { apply (Rmult_lt_compat_r (F2R cr)) in Hgt; [|assumption].
        replace (X / F2R cr * F2R cr) with X in Hgt by (field; lra).
        apply (Rmult_le_reg_r (F2R h)); [assumption|].
        replace (X / F2R h * F2R h) with X by (field; lra). lra. }
      pose proof (rounds_to_mono _ _ _ _ T1 Vc Hq). unfold F2R in *. lra.
Qed.

(** The quotient of a number by a finite positive quotient is a number. *)
Lemma div_back_not_nan (x cr : float) :
  (0x1p-1022 <=? cr)%float = true → is_finite cr = true →
  (0x1p-1022 <=? x / cr)%float = true → is_finite (x / cr) = true →
  is_nan (x / (x / cr)) = false.
Proof.
  intros Hc Fc Hz Fz.
  assert (Pc : (0 <? cr)%float = true).
  { destruct (leb_not_nan _ _ Hc) as [_ Nc].
    apply leb_F2R in Hc; [|reflexivity|assumption]. rewrite F2R_least_normal in Hc.
    pose proof (bpow_pos (emin + prec - 1)).
    apply ltb_F2R; [reflexivity|assumption|]. change (F2R 0) with 0. lra. }
  assert (Pz : (0 <? x / cr)%float = true).
  { destruct (leb_not_nan _ _ Hz) as [_ Nz].
    apply leb_F2R in Hz; [|reflexivity|assumption]. rewrite F2R_least_normal in Hz.
    pose proof (bpow_pos (emin + prec - 1)).
    apply ltb_F2R; [reflexivity|assumption|]. change (F2R 0) with 0. lra. }
  destruct (positive_finite _ Pc Fc) as (mc & ec & Ec).
  destruct (positive_finite _ Pz Fz) as (mz & ez & Ez).
  apply F64.not_nan_spec. rewrite FloatAxioms.div_spec. unfold SF64div.
  rewrite Ez.
  pose proof Ez as Ez'. rewrite FloatAxioms.div_spec in Ez'. unfold SF64div in Ez'.
  rewrite Ec in Ez'.
  destruct (Prim2SF x) as [sx|sx| |sx mx ex]; try discriminate.
  eapply rounds_to_not_nan. eexists _, _. split; [apply SFdiv_rounds|reflexivity].
Qed.

(** D2.  For a normal [cr], when the quotient [x / cr] is a normal number,
    dividing [x] by it gives [cr] again up to [2^-51] of it. *)
Lemma div_back_le (x cr : float) :
  (0x1p-1022 <=? cr)%float = true → is_finite cr = true →
  (0x1p-1022 <=? x / cr)%float = true → is_finite (x / cr) = true →
  F2R (x / (x / cr)) <= F2R cr * (1 + bpow (-51)).
Proof.
  intros Hc Fc Hz Fz.
  destruct (leb_not_nan _ _ Hc) as [_ Nc]. destruct (leb_not_nan _ _ Hz) as [_ Nz].
  apply leb_F2R in Hc, Hz; try assumption; try reflexivity.
  rewrite F2R_least_normal in Hc, Hz.
  pose proof (bpow_pos (emin + prec - 1)) as Hn.
  assert (Pc : (0 <? cr)%float = true).
  { apply ltb_F2R; [reflexivity|assumption|]. change (F2R 0) with 0. lra. }
  assert (Pz : (0 <? x / cr)%float = true).
  { apply ltb_F2R; [reflexivity|assumption|]. change (F2R 0) with 0. lra. }
  destruct (positive_finite _ Pc Fc) as (mc & ec & Ec).
  destruct (positive_finite _ Pz Fz) as (mz & ez & Ez).
  assert (Hx : ∃ mx ex, Prim2SF x = S754_finite false mx ex).
  { pose proof Ez as Ez'. rewrite FloatAxioms.div_spec in Ez'. unfold SF64div in Ez'.
    rewrite Ec in Ez'.
    destruct (Prim2SF x) as [sx|sx| |sx mx ex] eqn:Ex; try discriminate.
    destruct sx; [|eauto].
    pose proof (SFdiv_rounds true false mx mc ex ec) as R1. rewrite Ez' in R1.
    apply rounds_sign in R1. rewrite SF2R_finite in R1.
    pose proof (bpow_pos ez). assert (0 < IZR (Z.pos mz)) by (apply IZR_lt; lia).
    unfold sign_factor in R1. cbn [xorb] in R1. nra. }
  destruct Hx as (mx & ex & Ex).
  pose proof (div_finite x cr mx mc ex ec Ex Ec) as R1.
  pose proof (div_finite x (x / cr) mx mz ex ez Ex Ez) as R2.
  set (X := F2R x) in *. set (C := F2R cr) in *. set (Z1 := F2R (x / cr)) in *.
  fold (F2R (x / (x / cr))). set (Z2 := F2R (x / (x / cr))).
  assert (HX : 0 < X).
  { unfold X, F2R. rewrite Ex, SF2R_finite. pose proof (bpow_pos ex).
    assert (0 < IZR (Z.pos mx)) by (apply IZR_lt; lia). nra. }
  assert (HZ1 : Z1 < bpow emax).
  { unfold Z1, F2R. rewrite Ez.
    apply (SF2R_finite_pos mz ez). rewrite <- Ez. apply F2R_valid. }
  assert (Hu : 0 < bpow (- prec) < / 2).
  { split; [apply bpow_pos|]. rewrite <- bpow_m1. apply bpow_lt. unfold prec. lia. }
  assert (H4u : bpow (-51) = 4 * bpow (- prec)).
  { change 4 with (IZR (2 ^ 2)). rewrite <- bpow_IZR by lia. rewrite <- bpow_add.
    f_equal. }
  assert (U1 : X / C <= Z1 * (1 + bpow (- prec))).
  { pose proof (rounds_upper false _ _ R1) as U. unfold sign_factor in U.
    fold (F2R (x / cr)) in U. fold Z1 in U. rewrite !Rmult_1_l in U. apply U. lra. }
  assert (U1' : X <= C * (Z1 * (1 + bpow (- prec)))).
  { apply (Rmult_le_compat_r C) in U1; [|lra].
    replace (X / C * C) with X in U1 by (field; lra). lra. }
  destruct (Rle_or_lt (bpow (emin + prec - 1)) Z2) as [Hbig|Hsmall].
  - assert (L2 : Z2 * (1 - bpow (- prec)) <= X / Z1).
    { pose proof (rounds_lower false _ _ R2) as L. unfold sign_factor in L.
      fold (F2R (x / (x / cr))) in L. fold Z2 in L. rewrite !Rmult_1_l in L.
      apply L. lra. }
    assert (L2' : Z2 * (1 - bpow (- prec)) * Z1 <= X).
    { apply (Rmult_le_compat_r Z1) in L2; [|lra].
      replace (X / Z1 * Z1) with X in L2 by (field; lra). lra. }
    assert (K : Z2 * (1 - bpow (- prec)) <= C * (1 + bpow (- prec))).
    { apply (Rmult_le_reg_r Z1); [lra|]. lra. }
    rewrite H4u.
    assert (K2 : C * (1 + bpow (- prec)) <= C * (1 + 4 * bpow (- prec)) * (1 - bpow (- prec))).
    { assert (1 + bpow (- prec) <= (1 + 4 * bpow (- prec)) * (1 - bpow (- prec))) by nra.
      rewrite Rmult_assoc. apply Rmult_le_compat_l; lra. }
    apply (Rmult_le_reg_r (1 - bpow (- prec))); lra.
  - pose proof (bpow_pos (-51)). nra.
Qed.

Lemma F2R_2p1023 : F2R 0x1p1023 = bpow 1023.
Proof.
  unfold F2R.
  change (Prim2SF 0x1p1023) with (S754_finite false (Z.to_pos (2 ^ (prec - 1))) 971).
  rewrite SF2R_finite, Rmult_1_l.
  change (Z.pos (Z.to_pos (2 ^ (prec - 1)))) with (2 ^ (prec - 1))%Z.
  rewrite <- bpow_IZR by (unfold prec; lia). rewrite <- bpow_add. f_equal.
Qed.

(** A number that stands for a real below [2^emax] and is not negative is
    finite. *)
Lemma finite_of_bound (z : float) :
  is_nan z = false → 0 <= F2R z < bpow emax → is_finite z = true.
Proof.
  intros Hn%F64.not_nan_spec [H0 Hlt]. apply is_finite_spec. split; [exact Hn|].
  intros s Hs. unfold F2R in *. rewrite Hs in *. cbn [SF2R] in *.
  pose proof (bpow_pos emax). destruct s; lra.
Qed.

(** D3.  With [cr] at most [2^1023] besides, that quotient is finite. *)
Lemma div_back_finite (x cr : float) :
  (0x1p-1022 <=? cr)%float = true → (cr <=? 0x1p1023)%float = true →
  (0x1p-1022 <=? x / cr)%float = true → is_finite (x / cr) = true →
  is_finite (x / (x / cr)) = true.
Proof.
  intros Hc Hc' Hz Fz.
  destruct (leb_not_nan _ _ Hc) as [_ Nc].
  assert (Fc : is_finite cr = true).
  { apply finite_of_bound; [exact Nc|].
    apply leb_F2R in Hc, Hc'; try assumption; try reflexivity.
    rewrite F2R_least_normal in Hc. rewrite F2R_2p1023 in Hc'.
    pose proof (bpow_pos (emin + prec - 1)).
    pose proof (bpow_lt 1023 emax ltac:(unfold emax; lia)). lra. }
  pose proof (div_back_le x cr Hc Fc Hz Fz) as Hle.
  pose proof (div_back_not_nan x cr Hc Fc Hz Fz) as Nq.
  apply finite_of_bound; [exact Nq|].
  apply leb_F2R in Hc'; try assumption; try reflexivity. rewrite F2R_2p1023 in Hc'.
  assert (H51 : 0 < bpow (-51) < 1).
  { split; [apply bpow_pos|]. rewrite <- bpow_0. apply bpow_lt. lia. }
  assert (H24 : bpow emax = 2 * bpow 1023).
  { rewrite <- bpow_1, <- bpow_add. f_equal. }
  pose proof (bpow_pos 1023). split; [|nra].
  (* the quotient is not negative *)
  destruct (leb_not_nan _ _ Hz) as [_ Nz].
  assert (Pz : (0 <? x / cr)%float = true).
  { apply leb_F2R in Hz; [|reflexivity|assumption]. rewrite F2R_least_normal in Hz.
    pose proof (bpow_pos (emin + prec - 1)).
    apply ltb_F2R; [reflexivity|assumption|]. change (F2R 0) with 0. lra. }
  destruct (positive_finite _ Pz Fz) as (mz & ez & Ez).
  unfold F2R. rewrite FloatAxioms.div_spec. unfold SF64div. rewrite Ez.
  destruct (Prim2SF x) as [sx|sx| |sx mx ex] eqn:Ex; cbn [SFdiv SF2R]; try lra.
  - pose proof Ez as Ez'. rewrite FloatAxioms.div_spec in Ez'. unfold SF64div in Ez'.
    rewrite Ex in Ez'. destruct (Prim2SF cr) as [?|?| |? ? ?]; discriminate.
  - pose proof Ez as Ez'. rewrite FloatAxioms.div_spec in Ez'. unfold SF64div in Ez'.
    rewrite Ex in Ez'.
    assert (sx = false) as ->.
    { destruct (positive_finite cr) as (mc & ec & Ec).
      - apply leb_F2R in Hc; [|reflexivity|assumption]. rewrite F2R_least_normal in Hc.
        pose proof (bpow_pos (emin + prec - 1)).
        apply ltb_F2R; [reflexivity|assumption|]. change (F2R 0) with 0. lra.
      - exact Fc.
      - rewrite Ec in Ez'. destruct sx; [|reflexivity]. exfalso.
        pose proof (SFdiv_rounds true false mx mc ex ec) as R1. rewrite Ez' in R1.
        apply rounds_sign in R1. rewrite SF2R_finite in R1.
        pose proof (bpow_pos ez). assert (0 < IZR (Z.pos mz)) by (apply IZR_lt; lia).
        unfold sign_factor in R1. cbn [xorb] in R1. nra. }
    pose proof (SFdiv_rounds false false mx mz ex ez) as R2.
    apply rounds_sign in R2. unfold sign_factor in R2. cbn [xorb] in R2.
    cbn [SFdiv] in R2. lra.
Qed.

(** The sum of a normal number and a finite number that is not negative is
    above the exact sum by at most [2^-53] of itself. *)
Lemma add_error_below (x c : float) :
  (0x1p-1022 <=? x)%float = true → is_finite c = true → (0 <=? c)%float = true →
  F2R (x + c) * (1 - bpow (-53)) <= F2R x + F2R c.
Proof.
  intros Hx Fc Hc.
  destruct (leb_not_nan _ _ Hx) as [_ Nx]. destruct (leb_not_nan _ _ Hc) as [_ Nc].
  pose proof (add_not_nan x c Nx Fc) as Ns.
  pose proof (add_increasing x c Nx Fc Hc) as Hinc.
  apply leb_F2R in Hx, Hc, Hinc; try assumption; try reflexivity.
  rewrite F2R_least_normal in Hx. change (F2R 0) with 0 in Hc.
  pose proof (bpow_pos (emin + prec - 1)) as Hn.
  assert (Hu : 0 < bpow (-53) < 1).
  { split; [apply bpow_pos|]. rewrite <- bpow_0. apply bpow_lt. lia. }
  destruct (add_cases x c Nx Fc) as [(s & Ex & Exc)|[_ (s & X & HR & HY)]].
  - unfold F2R in *. rewrite Ex, Exc in *. cbn [SF2R] in *.
    pose proof (bpow_pos emax). destruct s; nra.
  - pose proof HR as [HX _].
    destruct s; unfold sign_factor in HY; [lra|].
    pose proof (rounds_lower false X _ HR) as HL. unfold sign_factor in HL.
    fold (F2R (x + c)) in HL. rewrite !Rmult_1_l in HL.
    change (- prec)%Z with (-53)%Z in HL.
    specialize (HL ltac:(lra)). lra.
Qed.

End Float64Div.

(** ** Cells of the arrays built by the NumPy operations *)

Module NpFacts.
Import Np.

Section Cells.
Context {A B C : Type}.

Lemma cell_fmap (f : A → B) (m : list (list A)) (i j : nat) :
  cell (fmap (M:=list) (fmap (M:=list) f) m) i j = f <$> cell m i j.
Proof.
  unfold cell. rewrite list_lookup_fmap.
  destruct (m !! i) as [row|]; simpl; [apply list_lookup_fmap|reflexivity].
Qed.

Lemma cell_zip_with (f : A → B → C) (a : list (list A)) (b : list (list B)) (i j : nat) :
  cell (zip_with (zip_with f) a b) i j =
  match cell a i j, cell b i j with
  | Some x, Some y => Some (f x y)
  | _, _ => None
  end.
Proof.
  unfold cell. rewrite lookup_zip_with.
  destruct (a !! i) as [ra|], (b !! i) as [rb|]; simpl; try reflexivity.
  - rewrite lookup_zip_with.
    destruct (ra !! j), (rb !! j); reflexivity.
  - destruct (ra !! j); reflexivity.
Qed.

Lemma cell_replicate (x : A) (n m i j : nat) :
  i < n → j < m → cell (replicate n (replicate m x)) i j = Some x.
Proof.
  intros Hi Hj. unfold cell.
  rewrite (lookup_replicate_2 n _ i Hi). simpl. by apply lookup_replicate_2.
Qed.

Lemma cell_Some_elem (m : list (list A)) (i j : nat) (x : A) :
  cell m i j = Some x → ∃ row, row ∈ m ∧ x ∈ row.
Proof.
  unfold cell. destruct (m !! i) as [row|] eqn:E; simpl; [|discriminate].
  intros Hj. exists row. split; eapply list_elem_of_lookup_2; eassumption.
Qed.

Lemma elem_cell_Some (m : list (list A)) (row : list A) (x : A) :
  row ∈ m → x ∈ row → ∃ i j, cell m i j = Some x.
Proof.
  intros [i Hi]%list_elem_of_lookup_1 [j Hj]%list_elem_of_lookup_1.
  exists i, j. unfold cell. rewrite Hi. exact Hj.
Qed.

End Cells.

(** [np.where(m < s, s, m)], cell by cell. *)
Lemma cell_where_lt (m : matrix) (s : float) (i j : nat) :
  cell (where_scalar (lt_scalar m s) s m) i j =
  (fun x => if (x <? s)%float then s else x) <$> cell m i j.
Proof.
  unfold where_scalar, lt_scalar. rewrite cell_zip_with, cell_fmap.
  destruct (cell m i j); reflexivity.
Qed.

(** [np.where(m > s, s, m)], cell by cell. *)
Lemma cell_where_gt (m : matrix) (s : float) (i j : nat) :
  cell (where_scalar (gt_scalar m s) s m) i j =
  (fun x => if (s <? x)%float then s else x) <$> cell m i j.
Proof.
  unfold where_scalar, gt_scalar. rewrite cell_zip_with, cell_fmap.
  destruct (cell m i j); reflexivity.
Qed.

(** [np.where(c, a, m)], cell by cell. *)
Lemma cell_where (c : list (list bool)) (a m : matrix) (i j : nat) :
  cell (where_ c a m) i j =
  match cell c i j, cell a i j, cell m i j with
  | Some b, Some x, Some y => Some (if b then x else y)
  | _, _, _ => None
  end.
Proof.
  unfold where_, cell. rewrite !lookup_zip_with.
  destruct (c !! i) as [rc|], (a !! i) as [ra|], (m !! i) as [rm|]; simpl;
    try reflexivity.
  all: rewrite ?lookup_zip_with;
    repeat (match goal with |- context [?l !! ?k] => destruct (l !! k) end);
    reflexivity.
Qed.

(** [np.all(m > s)] holds exactly when every cell is above [s]. *)
Lemma all_gt_scalar (m : matrix) (s : float) :
  all (gt_scalar m s) = true ↔
  ∀ i j x, cell m i j = Some x → (s <? x)%float = true.
Proof.
  unfold all, gt_scalar. rewrite forallb_forall. split.
  - intros Hall i j x Hx.
    assert (Hc : cell (fmap (M:=list) (fmap (M:=list) (fun y => (s <? y)%float)) m) i j
                 = Some (s <? x)%float) by (rewrite cell_fmap, Hx; reflexivity).
    apply cell_Some_elem in Hc as (row & Hrow & Hin).
    apply list_elem_of_In, Hall in Hrow.
    rewrite forallb_forall in Hrow. apply (Hrow _ (proj1 (list_elem_of_In _ _) Hin)).
  - intros Hcells brow Hbrow. apply forallb_forall. intros b Hb.
    apply list_elem_of_In in Hbrow, Hb.
    destruct (elem_cell_Some _ _ _ Hbrow Hb) as (i & j & Hc).
    rewrite cell_fmap in Hc.
    destruct (cell m i j) as [x|] eqn:E; simpl in Hc; [|discriminate].
    injection Hc as <-. exact (Hcells i j x E).
Qed.

Lemma forallb_false_lookup {A} (p : A → bool) (l : list A) :
  forallb p l = false → ∃ i x, l !! i = Some x ∧ p x = false.
Proof.
  induction l as [|y l IH]; simpl; [discriminate|].
  destruct (p y) eqn:Hy; simpl.
  - intros (i & x & Hi & Hx)%IH. exists (S i), x. auto.
  - intros _. exists 0, y. auto.
Qed.

(** [np.all(m > s)] fails exactly when some cell is not above [s]. *)
Lemma all_gt_scalar_false (m : matrix) (s : float) :
  all (gt_scalar m s) = false →
  ∃ i j x, cell m i j = Some x ∧ (s <? x)%float = false.
Proof.
  unfold all, gt_scalar.
  intros (i & brow & Hi & Hrow)%forallb_false_lookup.
  apply forallb_false_lookup in Hrow as (j & b & Hj & Hb).
  rewrite list_lookup_fmap in Hi.
  destruct (m !! i) as [row|] eqn:Em; simpl in Hi; [|discriminate].
  injection Hi as <-. rewrite list_lookup_fmap in Hj.
  destruct (row !! j) as [x|] eqn:Er; simpl in Hj; [|discriminate].
  injection Hj as <-. exists i, j, x. unfold cell. rewrite Em. simpl. auto.
Qed.

(** Arrays whose cells are all equal. *)
Lemma fmap_uniform {A B} (f : A → B) (x : A) (n m : nat) :
  fmap (M:=list) (fmap (M:=list) f) (replicate n (replicate m x))
  = replicate n (replicate m (f x)).
Proof. by rewrite !fmap_replicate. Qed.

Lemma zip_with_uniform {A B C} (f : A → B → C) (x : A) (y : B) (n m : nat) :
  zip_with (zip_with f) (replicate n (replicate m x)) (replicate n (replicate m y))
  = replicate n (replicate m (f x y)).
Proof. by rewrite !zip_with_replicate. Qed.

Lemma all_uniform (n m : nat) : all (replicate n (replicate m true)) = true.
Proof.
  unfold all. apply forallb_forall. intros row Hrow%list_elem_of_In.
  apply elem_of_replicate in Hrow as [-> _].
  apply forallb_forall. intros b Hb%list_elem_of_In.
  apply elem_of_replicate in Hb as [-> _]. reflexivity.
Qed.

End NpFacts.

(** ** How [build] runs *)

Module BuildFacts.
Import MeshSizeFunction.

Lemma getattr_ReadVelocityModel :
  getattr "__ReadVelocityModel" = Ok "_MeshSizeFunction__ReadVelocityModel".
Proof. reflexivity. Qed.

Lemma getattr_CreateDomainVectors :
  getattr "__CreateDomainVectors" = Ok "_MeshSizeFunction__CreateDomainVectors".
Proof. reflexivity. Qed.

Lemma getattr_hj : getattr "__hj" = Raise (AttributeError "_MeshSizeFunction__hj").
Proof. reflexivity. Qed.

Lemma getattr_drectangle : getattr "drectangle" = Raise (AttributeError "drectangle").
Proof. reflexivity. Qed.

(** With a positive [grade] the gradation step raises; otherwise it leaves
    the field as it is. *)
Lemma gradation_grade (width _grade : float) (_nx : nat) (hh_m : Np.matrix) :
  gradation width _grade _nx hh_m =
  if (0 <? _grade)%float then Raise (AttributeError "_MeshSizeFunction__hj")
  else Ok hh_m.
Proof. unfold gradation. destruct (0 <? _grade)%float; reflexivity. Qed.

Lemma py_max_cons (x : float) (xs : list float) : ∃ w, py_max (x :: xs) = Ok w.
Proof. eexists. reflexivity. Qed.

Lemma py_min_cons (x : float) (xs : list float) : ∃ w, py_min (x :: xs) = Ok w.
Proof. eexists. reflexivity. Qed.

(** [build], once the instance is found, its [bbox] is not empty and the
    velocity model was read. *)
Lemma build_loaded (fs : filesystem) (self : loc) (σ : store) (o : obj)
    (_vp : Np.matrix) (_nz _nx : nat) :
  σ !! self = Some o →
  bbox o ≠ [] →
  ReadVelocityModel fs o = Ok (_vp, _nz, _nx) →
  ∃ width z_vec x_vec,
    py_max (bbox o) = Ok width ∧
    CreateDomainVectors (loaded o _vp _nz _nx) = Ok (z_vec, x_vec) ∧
    build fs self σ =
    match gradation width (grade o) _nx
            (sizes (hmin o) (wl o) (freq o) (hmax o) _vp _nz _nx) with
    | Raise e => (Raise e, <[self := loaded o _vp _nz _nx]> σ)
    | Ok hh_m =>
        let hh_m := cfl (dt o) (cr_max o) _vp hh_m in
        if Np.all (Np.gt_scalar hh_m 0)
        then (Ok self, <[self := built self o _vp _nz _nx z_vec x_vec hh_m]> σ)
        else (Raise (AssertionError "edge_size_function must be strictly positive."),
              <[self := loaded o _vp _nz _nx]> σ)
    end.
Proof.
  intros Hσ Hb Hread.
  assert (∃ width, py_max (bbox o) = Ok width) as [width Hw]
    by (destruct (bbox o); [congruence|apply py_max_cons]).
  assert (∃ depth, py_min (bbox o) = Ok depth) as [depth Hd]
    by (destruct (bbox o); [congruence|apply py_min_cons]).
  assert (HC : CreateDomainVectors (loaded o _vp _nz _nx)
               = Ok (Np.linspace depth 0 _nz, Np.linspace 0 width _nx)).
  { unfold CreateDomainVectors. simpl. rewrite Hw, Hd. reflexivity. }
  exists width, (Np.linspace depth 0 _nz), (Np.linspace 0 width _nx).
  split; [exact Hw|]. split; [exact HC|].
  unfold build, mbind, M_bind, read, write, lift.
  rewrite Hσ, Hw, getattr_ReadVelocityModel, Hread. simpl.
  rewrite Hσ, !lookup_insert_eq, !insert_insert_eq. simpl.
  fold (loaded o _vp _nz _nx).
  destruct (gradation _ _ _ _) as [hh_m|e]; [|reflexivity].
  rewrite HC.
  destruct (Np.all _); [|reflexivity].
  rewrite !lookup_insert_eq, !insert_insert_eq. reflexivity.
Qed.

(** When [build] returns, this is how it ran. *)
Lemma build_Ok_inv (fs : filesystem) (self l : loc) (σ σ' : store) :
  build fs self σ = (Ok l, σ') →
  ∃ o _vp _nz _nx z_vec x_vec,
    σ !! self = Some o ∧
    ReadVelocityModel fs o = Ok (_vp, _nz, _nx) ∧
    (0 <? grade o)%float = false ∧
    Np.all (Np.gt_scalar (field o _vp _nz _nx) 0) = true ∧
    l = self ∧
    σ' = <[self := built self o _vp _nz _nx z_vec x_vec (field o _vp _nz _nx)]> σ.
Proof.
  intros Hbuild.
  destruct (σ !! self) as [o|] eqn:Hσ.
  2: { unfold build, mbind, M_bind, read in Hbuild. rewrite Hσ in Hbuild. discriminate. }
  destruct (decide (bbox o = [])) as [Hb|Hb].
  { unfold build, mbind, M_bind, read, lift in Hbuild.
    rewrite Hσ, Hb in Hbuild. discriminate. }
  destruct (ReadVelocityModel fs o) as [[[_vp _nz] _nx]|e] eqn:Hread.
  2: { assert (∃ width, py_max (bbox o) = Ok width) as [width Hw]
         by (destruct (bbox o); [congruence|apply py_max_cons]).
       unfold build, mbind, M_bind, read, lift in Hbuild.
       rewrite Hσ, Hw, getattr_ReadVelocityModel, Hread in Hbuild. discriminate. }
  destruct (build_loaded fs self σ o _vp _nz _nx Hσ Hb Hread)
    as (width & z_vec & x_vec & _ & _ & Heq).
  rewrite Heq, gradation_grade in Hbuild.
  destruct (0 <? grade o)%float eqn:Hg; [discriminate|].
  fold (field o _vp _nz _nx) in Hbuild. cbv zeta in Hbuild.
  destruct (Np.all _) eqn:Hall; [|discriminate].
  injection Hbuild as <- <-.
  exists o, _vp, _nz, _nx, z_vec, x_vec. auto 10.
Qed.

(** The sizes before gradation, cell by cell: the raw size, clamped. *)
Lemma cell_sizes (_hmin _wl _freq _hmax : float) (_vp : Np.matrix) (_nz _nx i j : nat)
    (v : float) :
  (0 <? _hmin)%float = true →
  i < _nz → j < _nx →
  Np.cell _vp i j = Some v →
  Np.cell (sizes _hmin _wl _freq _hmax _vp _nz _nx) i j
  = Some (Spec.clamp_below_inf (Spec.raw _hmin _wl _freq v) _hmin _hmax).
Proof.
  intros Hmin Hi Hj Hv. unfold sizes, Spec.clamp_below_inf, Spec.raw.
  assert (Hraw : Np.cell (if (0 <? _wl)%float
                          then Np.div_scalar _vp (_freq * _wl)%float
                          else Np.add_scalar (Np.zeros _nz _nx) _hmin) i j
                 = Some (if (0 <? _wl)%float then (v / (_freq * _wl))%float else _hmin)).
  { destruct (0 <? _wl)%float.
    - unfold Np.div_scalar. rewrite NpFacts.cell_fmap, Hv. reflexivity.
    - unfold Np.add_scalar, Np.zeros.
      rewrite NpFacts.cell_fmap, NpFacts.cell_replicate by assumption.
      simpl. by rewrite F64.add_zero_pos. }
  destruct (_hmax <? Np.inf)%float.
  - rewrite NpFacts.cell_where_gt, NpFacts.cell_where_lt, Hraw. reflexivity.
  - rewrite NpFacts.cell_where_lt, Hraw. reflexivity.
Qed.

(** Every cell of the sizes before gradation is a clamped value. *)
Lemma cell_sizes_inv (_hmin _wl _freq _hmax : float) (_vp : Np.matrix) (_nz _nx i j : nat)
    (s : float) :
  Np.cell (sizes _hmin _wl _freq _hmax _vp _nz _nx) i j = Some s →
  ∃ r, s = Spec.clamp_below_inf r _hmin _hmax.
Proof.
  unfold sizes, Spec.clamp_below_inf.
  destruct (_hmax <? Np.inf)%float;
    rewrite ?NpFacts.cell_where_gt, NpFacts.cell_where_lt;
    match goal with |- context [Np.cell ?m i j] => destruct (Np.cell m i j) as [r|] end;
    simpl; intros [= <-]; eauto.
Qed.

(** The CFL adjustment, cell by cell. *)
Lemma cell_cfl (_dt _cr_max : float) (_vp hh_m : Np.matrix) (i j : nat) :
  (0 <? _dt)%float = true →
  Np.cell (cfl _dt _cr_max _vp hh_m) i j =
  match Np.cell _vp i j, Np.cell hh_m i j with
  | Some v, Some h =>
      Some (if (_cr_max <? v * _dt / h)%float then (v * _dt / _cr_max)%float else h)
  | _, _ => None
  end.
Proof.
  intros Hdt. unfold cfl. rewrite Hdt.
  unfold Np.gt_scalar, Np.div, Np.div_scalar, Np.mul_scalar.
  rewrite NpFacts.cell_where, !NpFacts.cell_fmap, NpFacts.cell_zip_with,
    !NpFacts.cell_fmap.
  destruct (Np.cell _vp i j) as [v|], (Np.cell hh_m i j) as [h|]; reflexivity.
Qed.

(** A cell the CFL adjustment is not triggered at keeps its value. *)
Lemma cell_cfl_untouched (_dt _cr_max : float) (_vp hh_m : Np.matrix) (i j : nat)
    (h : float) :
  Np.cell (cfl _dt _cr_max _vp hh_m) i j = Some h →
  Spec.cfl_triggered _dt _cr_max _vp hh_m i j = false →
  Np.cell hh_m i j = Some h.
Proof.
  unfold Spec.cfl_triggered. destruct (0 <? _dt)%float eqn:Hdt.
  - rewrite cell_cfl by assumption. simpl.
    destruct (Np.cell _vp i j) as [v|], (Np.cell hh_m i j) as [s|]; try discriminate.
    intros Hh Hc. rewrite Hc in Hh. exact Hh.
  - unfold cfl. rewrite Hdt. auto.
Qed.

(** The clamped value is between [hmin] and [hmax], when it is a number. *)
Lemma clamp_lower (r _hmin _hmax : float) :
  (0 <? _hmin)%float = true →
  is_nan (Spec.clamp_below_inf r _hmin _hmax) = false →
  (_hmax <? _hmin)%float = false →
  (_hmin <=? Spec.clamp_below_inf r _hmin _hmax)%float = true.
Proof.
  intros Hmin. apply F64.ltb_not_nan in Hmin as [_ Hmin].
  unfold Spec.clamp_below_inf.
  set (x := if (r <? _hmin)%float then _hmin else r).
  assert (Hx : is_nan x = false → (_hmin <=? x)%float = true).
  { subst x. destruct (r <? _hmin)%float eqn:Hr; intros Hn.
    - by apply F64.leb_refl.
    - by apply F64.ltb_false_leb. }
  destruct (_hmax <? Np.inf)%float eqn:Hinf; [|auto].
  destruct (F64.ltb_not_nan _ _ Hinf) as [Hmax _].
  destruct (_hmax <? x)%float eqn:Hlt; [|auto].
  intros _ Hle. by apply F64.ltb_false_leb.
Qed.

Lemma clamp_upper (r _hmin _hmax : float) :
  is_nan (Spec.clamp_below_inf r _hmin _hmax) = false →
  (_hmax <? Np.inf)%float = true →
  (Spec.clamp_below_inf r _hmin _hmax <=? _hmax)%float = true.
Proof.
  unfold Spec.clamp_below_inf.
  set (x := if (r <? _hmin)%float then _hmin else r).
  intros Hs Hinf. rewrite Hinf in *.
  destruct (F64.ltb_not_nan _ _ Hinf) as [Hmax _].
  destruct (_hmax <? x)%float eqn:Hlt.
  - by apply F64.leb_refl.
  - by apply F64.ltb_false_leb.
Qed.

(** The guard [hmax < inf] is finiteness, except at [-infinity]. *)
Lemma ltb_inf_is_finite (x : float) :
  x ≠ neg_infinity → (x <? Np.inf)%float = is_finite x.
Proof.
  intros Hx. unfold Np.inf.
  destruct (is_finite x) eqn:Hf; [by apply F64.is_finite_ltb_inf|].
  unfold is_finite, is_infinity in Hf.
  apply negb_false_iff, orb_true_iff in Hf.
  rewrite FloatAxioms.ltb_spec. change (Prim2SF infinity) with (S754_infinity false).
  destruct Hf as [Hn|Hi].
  - apply F64.is_nan_spec in Hn. rewrite Hn. reflexivity.
  - rewrite FloatAxioms.eqb_spec, FloatAxioms.abs_spec in Hi.
    change (Prim2SF infinity) with (S754_infinity false) in Hi.
    destruct (Prim2SF x) as [sx|[]| |sx mx ex] eqn:E; try discriminate Hi;
      try reflexivity.
    exfalso. apply Hx. rewrite <- (SF2Prim_Prim2SF x), E. reflexivity.
Qed.

Lemma clamp_below_inf_clamp (r _hmin _hmax : float) :
  _hmax ≠ neg_infinity →
  Spec.clamp_below_inf r _hmin _hmax = Spec.clamp r _hmin _hmax.
Proof.
  intros Hx. unfold Spec.clamp_below_inf, Spec.clamp.
  by rewrite ltb_inf_is_finite.
Qed.

(** Reading a file whose traces all hold the value [v]. *)
Lemma fill_columns_uniform (v : float) (nz_ a b : nat) :
  fill_columns (replicate nz_ (replicate a v ++ replicate b 0%float)) a
               (replicate b (replicate nz_ v))
  = Ok (replicate nz_ (replicate (a + b) v)).
Proof.
  revert a. induction b as [|b IH]; intros a.
  - simpl. by rewrite app_nil_r, Nat.add_0_r.
  - cbn [replicate fill_columns]. unfold assign_column.
    rewrite !length_replicate. destruct (decide (nz_ = nz_)) as [_|]; [|congruence].
    rewrite zip_with_replicate.
    replace (<[a:=v]> (replicate a v ++ 0%float :: replicate b 0%float))
      with (replicate (S a) v ++ replicate b 0%float).
    + change (mbind ?k (Ok ?x)) with (k x). cbv beta.
      rewrite IH. do 3 f_equal. lia.
    + rewrite (insert_app_r_alt _ _ a) by (rewrite length_replicate; lia).
      rewrite length_replicate, Nat.sub_diag. cbn [list_insert].
      rewrite replicate_S_end, <- app_assoc. reflexivity.
Qed.

Lemma ReadVelocityModel_uniform (fs : filesystem) (o : obj) (f : segy_file)
    (v : float) (nz_ nx_ : nat) :
  fs (segy o) = Ok f →
  length (samples f) = nz_ →
  trace f = replicate nx_ (replicate nz_ v) →
  ReadVelocityModel fs o = Ok (replicate nz_ (replicate nx_ v), nz_, nx_).
Proof.
  intros Hfs Hs Ht. unfold ReadVelocityModel. rewrite Hfs, Hs, Ht, length_replicate.
  pose proof (fill_columns_uniform v nz_ 0 nx_) as Hfill.
  cbn [replicate app Nat.add] in Hfill. unfold Np.zeros. rewrite Hfill.
  change (mbind ?k (Ok ?x)) with (k x). cbv beta.
  unfold Np.flipud. by rewrite reverse_replicate.
Qed.

(** The method [__drectangle] itself, on the box of the test suite: negative
    strictly inside, positive strictly outside, and beyond a corner the
    smaller of the two offsets (10) rather than the Euclidean distance. *)
Lemma drectangle_signs :
  drectangle ((-500)%float, 500%float) (-1000) 0 0 1000 = (-500)%float ∧
  drectangle (250%float, 500%float) (-1000) 0 0 1000 = 250%float ∧
  drectangle (10%float, 1010%float) (-1000) 0 0 1000 = 10%float.
Proof. repeat split; reflexivity. Qed.

(** The lambda stored in [self.fd] raises on every call: the class binds
    [_MeshSizeFunction__drectangle], not [drectangle]. *)
Lemma call_fd_raises (c : closure) (p : float * float) :
  call_fd c p = Raise (AttributeError "drectangle").
Proof. reflexivity. Qed.

End BuildFacts.

(** ** The claims about construction, gradation and the receiver *)

Module Claims.
Import MeshSizeFunction BuildFacts.

(** C7.  Constructing a [MeshSizeFunction] fails at once, with the store left
    as it was, whenever the bounding box has fewer than 4 or more than 6
    values, or [hmin] is not strictly positive, or [segy] is not a string;
    every other configuration yields a new instance that holds the arguments
    as given and has [vp], [nz], [nx], [fh], [fd] unset. *)
Theorem new_rejects_exactly (bbox_ : list float) (hmin_ : float) (segy_ : Py.value)
    (kw : kwargs) (σ : store) :
  (Spec.rejected bbox_ hmin_ segy_ →
   ∃ msg, new bbox_ hmin_ segy_ kw σ = (Raise (AssertionError msg), σ)) ∧
  (¬ Spec.rejected bbox_ hmin_ segy_ →
   ∃ l o, new bbox_ hmin_ segy_ kw σ = (Ok l, <[l := o]> σ) ∧ σ !! l = None ∧
     bbox o = bbox_ ∧ hmin o = hmin_ ∧ PyStr (segy o) = segy_ ∧
     wl o = kw_wl kw ∧ freq o = kw_freq kw ∧ hmax o = kw_hmax kw ∧
     dt o = kw_dt kw ∧ cr_max o = kw_cr_max kw ∧ grade o = kw_grade kw ∧
     vp o = None ∧ nz o = None ∧ nx o = None ∧ fh o = None ∧ fd o = None).
Proof.
  unfold Spec.rejected, new, init, bbox_setter, hmin_setter, segy_setter.
  destruct (decide (length bbox_ < 4 ∨ 6 < length bbox_)%nat) as [Hlen|Hlen].
  { replace (bool_decide (4 ≤ length bbox_)%nat && bool_decide (length bbox_ ≤ 6)%nat)
      with false
      by (symmetry; apply andb_false_iff; rewrite !bool_decide_eq_false; lia).
    simpl. split; [eauto|]. intros Hn. exfalso. apply Hn. left. exact Hlen. }
  replace (bool_decide (4 ≤ length bbox_)%nat && bool_decide (length bbox_ ≤ 6)%nat)
    with true
    by (symmetry; apply andb_true_iff; rewrite !bool_decide_eq_true; lia).
  simpl. destruct (0 <? hmin_)%float eqn:Hh; simpl.
  2: { split; [eauto|]. intros Hn. exfalso. apply Hn. right. left. reflexivity. }
  destruct segy_ as [ | | |s]; simpl;
    try (split; [eauto|intros Hn; exfalso; apply Hn; right; right; reflexivity]).
  split.
  - intros [?|[?|?]]; [tauto|discriminate|discriminate].
  - intros _. eexists _, _. split; [reflexivity|].
    split; [apply not_elem_of_dom, is_fresh|]. simpl. auto 20.
Qed.

(** C9.  Whenever [build] reaches the gradation step with [grade > 0] it
    raises [AttributeError]: [self.__hj] is looked up under the mangled name
    [_MeshSizeFunction__hj], which the class (that defines [hj]) does not
    bind.  Only [vp], [nz], [nx] were assigned; no field is returned. *)
Theorem build_gradation_raises (fs : filesystem) (self : loc) (σ : store) (o : obj)
    (_vp : Np.matrix) (_nz _nx : nat) :
  σ !! self = Some o →
  bbox o ≠ [] →
  ReadVelocityModel fs o = Ok (_vp, _nz, _nx) →
  (0 <? grade o)%float = true →
  getattr "__hj" = Raise (AttributeError "_MeshSizeFunction__hj") ∧
  getattr "hj" = Ok "hj" ∧
  build fs self σ =
    (Raise (AttributeError "_MeshSizeFunction__hj"), <[self := loaded o _vp _nz _nx]> σ) ∧
  fh (loaded o _vp _nz _nx) = fh o ∧
  fd (loaded o _vp _nz _nx) = fd o.
Proof.
  intros Hσ Hb Hread Hg.
  destruct (build_loaded fs self σ o _vp _nz _nx Hσ Hb Hread)
    as (width & z_vec & x_vec & _ & _ & Heq).
  rewrite Heq, gradation_grade, Hg. repeat split; reflexivity.
Qed.

Lemma build_gradation_raises_example :
  let o := Examples.instance 10 Examples.example_kwargs in
  let σ := {[ 1%positive := o ]} in
  let _vp := replicate 3 (replicate 2 2000%float) in
  getattr "__hj" = Raise (AttributeError "_MeshSizeFunction__hj") ∧
  getattr "hj" = Ok "hj" ∧
  build Examples.testing_segy 1%positive σ =
    (Raise (AttributeError "_MeshSizeFunction__hj"), <[1%positive := loaded o _vp 3 2]> σ) ∧
  fh (loaded o _vp 3 2) = fh o ∧
  fd (loaded o _vp 3 2) = fd o.
Proof.
  intros o σ _vp.
  apply (build_gradation_raises Examples.testing_segy 1%positive σ o _vp 3 2);
    [reflexivity|discriminate|reflexivity|reflexivity].
Defined.

(** C10.  When [build] returns, it returns its receiver; in the store only
    the receiver changed, and of the receiver only [vp], [nz], [nx], [fh] and
    [fd], each of which was assigned; [bbox], [hmin], [segy], [wl], [freq],
    [hmax], [dt], [cr_max] and [grade] are as before. *)
Theorem build_mutates_receiver (fs : filesystem) (self l : loc) (σ σ' : store) :
  build fs self σ = (Ok l, σ') →
  l = self ∧
  ∃ o o', σ !! self = Some o ∧ σ' = <[self := o']> σ ∧
    (∃ v n m i c, o' = set_fd c (set_fh i (set_nx m (set_nz n (set_vp v o))))) ∧
    is_Some (vp o') ∧ is_Some (nz o') ∧ is_Some (nx o') ∧
    is_Some (fh o') ∧ is_Some (fd o') ∧
    same_configuration o o'.
Proof.
  intros Hbuild.
  apply build_Ok_inv in Hbuild
    as (o & _vp & _nz & _nx & z_vec & x_vec & Hσ & _ & _ & _ & -> & ->).
  split; [reflexivity|].
  eexists o, _. split; [exact Hσ|]. split; [reflexivity|].
  split; [unfold built, loaded; eauto 10|].
  unfold same_configuration. simpl. auto 20.
Qed.

Lemma build_mutates_receiver_example :
  let σ := Examples.store0 100 defaults in
  let σ' := (build Examples.testing_segy 1%positive σ).2 in
  1%positive = 1%positive ∧
  ∃ o o', σ !! 1%positive = Some o ∧ σ' = <[1%positive := o']> σ ∧
    (∃ v n m i c, o' = set_fd c (set_fh i (set_nx m (set_nz n (set_vp v o))))) ∧
    is_Some (vp o') ∧ is_Some (nz o') ∧ is_Some (nx o') ∧
    is_Some (fh o') ∧ is_Some (fd o') ∧
    same_configuration o o'.
Proof.
  intros σ σ'.
  apply (build_mutates_receiver Examples.testing_segy 1%positive 1%positive σ σ').
  vm_compute. reflexivity.
Defined.

(** C8.  With the bounding box [(-1000, 0, 0, 1000)], a velocity model that
    is 2000 m/s everywhere, [hmin = 100] and every option at its default
    ([wl = 0], [hmax = +infinity], [dt = 0], [grade = 0]), [build] returns and
    the field it hands to the interpolator is 100 in every cell, whatever the
    size of the grid. *)
Theorem build_uniform_hmin (fs : filesystem) (fname : string) (f : segy_file)
    (nz_ nx_ : nat) (σ : store) :
  fs fname = Ok f →
  length (samples f) = nz_ →
  trace f = replicate nx_ (replicate nz_ 2000%float) →
  ∃ l σ',
    (l ← new Examples.test_bbox 100 (PyStr fname) defaults; build fs l) σ = (Ok l, σ') ∧
    field_at l σ' = Some (replicate nz_ (replicate nx_ 100%float)).
Proof.
  intros Hfs Hs Ht.
  set (l := fresh (dom σ)).
  set (o := {| bbox := Examples.test_bbox; hmin := 100; segy := fname;
               wl := 0; freq := 5; hmax := Np.inf; dt := 0;
               cr_max := 0x1.999999999999ap-3; grade := 0;
               vp := None; nz := None; nx := None; fh := None; fd := None |}).
  assert (Hread : ReadVelocityModel fs o
                  = Ok (replicate nz_ (replicate nx_ 2000%float), nz_, nx_))
    by (apply (ReadVelocityModel_uniform fs o f); assumption).
  destruct (build_loaded fs l (<[l := o]> σ) o _ nz_ nx_
              (lookup_insert_eq σ l o) ltac:(discriminate) Hread)
    as (width & z_vec & x_vec & _ & _ & Heq).
  assert (Hfield : field o (replicate nz_ (replicate nx_ 2000%float)) nz_ nx_
                   = replicate nz_ (replicate nx_ 100%float)).
  { unfold field, cfl, sizes, Np.zeros, Np.add_scalar, Np.where_scalar, Np.lt_scalar.
    cbn [dt cr_max hmin wl freq hmax o].
    change (0 <? 0)%float with false. change (Np.inf <? Np.inf)%float with false.
    cbv iota. rewrite !NpFacts.fmap_uniform, NpFacts.zip_with_uniform. reflexivity. }
  rewrite gradation_grade in Heq. cbn [grade o] in Heq.
  change (0 <? 0)%float with false in Heq. cbv iota zeta in Heq.
  fold (field o (replicate nz_ (replicate nx_ 2000%float)) nz_ nx_) in Heq.
  rewrite Hfield in Heq.
  unfold Np.gt_scalar in Heq. rewrite NpFacts.fmap_uniform in Heq.
  change (0 <? 100)%float with true in Heq. rewrite NpFacts.all_uniform in Heq.
  exists l. eexists. split.
  - unfold mbind, M_bind, new. cbn [init]. fold o. fold l. exact Heq.
  - unfold field_at. rewrite lookup_insert_eq. reflexivity.
Qed.

Lemma build_uniform_hmin_example :
  ∃ l σ',
    (l ← new Examples.test_bbox 100 (PyStr "testing.segy") defaults;
     build Examples.testing_segy l) ∅ = (Ok l, σ') ∧
    field_at l σ' = Some (replicate 3 (replicate 2 100%float)).
Proof.
  apply (build_uniform_hmin Examples.testing_segy "testing.segy"
           (Examples.uniform_file 3 2 2000) 3 2 ∅); reflexivity.
Defined.

(** C6.  After [build], calling [fd] at a point strictly inside the bounding
    box raises [AttributeError] instead of returning a negative distance:
    the lambda calls [self.drectangle], while the class defines
    [__drectangle], reachable only as [_MeshSizeFunction__drectangle].  The
    function it was meant to call returns -500 at this point. *)
Lemma fd_of_build_raises :
  ∃ σ' o c,
    Examples.construct_and_build 100 defaults = (Ok 1%positive, σ') ∧
    σ' !! 1%positive = Some o ∧ fd o = Some c ∧
    call_fd c ((-500)%float, 500%float) = Raise (AttributeError "drectangle") ∧
    getattr "__drectangle" = Ok "_MeshSizeFunction__drectangle" ∧
    drectangle ((-500)%float, 500%float) (-1000) 0 0 1000 = (-500)%float.
Proof.
  eexists _, _, _. split; [vm_compute; reflexivity|].
  split; [vm_compute; reflexivity|].
  split; [reflexivity|]. split; [apply call_fd_raises|]. split; reflexivity.
Qed.

End Claims.

(** ** The claims about the sizes: clamping, CFL, positivity *)

Module FieldClaims.
Import MeshSizeFunction BuildFacts.

(** C4 (amended).  Before the gradation and CFL steps every cell of the
    field is the raw size ([velocity / (freq * wl)] when [wl > 0], [hmin]
    otherwise), raised to [hmin] when below it and then, when
    [hmax < +infinity], lowered to [hmax] when above it.  For every [hmax]
    other than [-infinity] the guard [hmax < +infinity] says that [hmax] is
    finite. *)
Theorem sizes_clamped (_hmin _wl _freq _hmax : float) (_vp : Np.matrix)
    (_nz _nx i j : nat) (v : float) :
  (0 <? _hmin)%float = true →
  i < _nz → j < _nx →
  Np.cell _vp i j = Some v →
  Np.cell (sizes _hmin _wl _freq _hmax _vp _nz _nx) i j
    = Some (Spec.clamp_below_inf (Spec.raw _hmin _wl _freq v) _hmin _hmax) ∧
  (_hmax ≠ neg_infinity →
   Spec.clamp_below_inf (Spec.raw _hmin _wl _freq v) _hmin _hmax
   = Spec.clamp (Spec.raw _hmin _wl _freq v) _hmin _hmax).
Proof.
  intros Hmin Hi Hj Hv. split.
  - by apply cell_sizes.
  - apply clamp_below_inf_clamp.
Qed.

Lemma sizes_clamped_example :
  Np.cell (sizes 100 5 5 110 [[2000; 3000]%float] 1 2) 0 1
    = Some (Spec.clamp_below_inf (Spec.raw 100 5 5 3000) 100 110) ∧
  (110%float ≠ neg_infinity →
   Spec.clamp_below_inf (Spec.raw 100 5 5 3000) 100 110
   = Spec.clamp (Spec.raw 100 5 5 3000) 100 110).
Proof.
  apply (sizes_clamped 100 5 5 110 [[2000; 3000]%float] 1 2 0 1 3000);
    [reflexivity|lia|lia|reflexivity].
Defined.

(** C4 as stated fails at [hmax = -infinity]: it is not finite, yet the guard
    [hmax < inf] holds and every cell is lowered to it. *)
Lemma sizes_lowered_to_neg_infinity :
  is_finite neg_infinity = false ∧
  Np.cell (sizes 100 0 5 neg_infinity [[2000%float]] 1 1) 0 0 = Some neg_infinity ∧
  Spec.clamp (Spec.raw 100 0 5 2000) 100 neg_infinity = 100%float.
Proof. repeat split; reflexivity. Qed.

(** C3 (amended).  When [dt > 0] the CFL step replaces a cell by
    [velocity * dt / cr_max] exactly when its Courant number
    [velocity * dt / h] is above [cr_max], and leaves it as it is otherwise.
    A replacement never lowers the cell (for positive [cr_max] and [h]).
    After the step the Courant number of a cell left as it is is at most
    [cr_max] (unless one of the two is a NaN), and the Courant number of a
    replaced cell is a finite number that exceeds [cr_max] by at most [2^-51]
    of it, when [cr_max] is a normal number not above [2^1023] and the new
    size is a normal number. *)
Theorem cfl_replaces_exactly (_dt _cr_max : float) (_vp hh_m : Np.matrix) (i j : nat)
    (v h : float) :
  (0 <? _dt)%float = true →
  Np.cell _vp i j = Some v →
  Np.cell hh_m i j = Some h →
  ∃ h', Np.cell (cfl _dt _cr_max _vp hh_m) i j = Some h' ∧
    (((_cr_max <? v * _dt / h)%float = true ∧
      h' = (v * _dt / _cr_max)%float ∧
      ((0 <? _cr_max)%float = true → (0 <? h)%float = true →
       (h <=? h')%float = true) ∧
      (Real64.is_normal _cr_max = true → (_cr_max <=? 0x1p1023)%float = true →
       Real64.is_normal h' = true →
       is_finite (v * _dt / h') = true ∧
       (Real64.F2R (v * _dt / h') <= Real64.F2R _cr_max * (1 + Real64.bpow (-51)))%R))
     ∨
     ((_cr_max <? v * _dt / h)%float = false ∧
      h' = h ∧
      (is_nan (v * _dt / h) = false → is_nan _cr_max = false →
       (v * _dt / h' <=? _cr_max)%float = true))).
Proof.
  intros Hdt Hv Hh. rewrite cell_cfl, Hv, Hh by assumption.
  destruct (_cr_max <? v * _dt / h)%float eqn:Ht; eexists; (split; [reflexivity|]).
  - left. split; [reflexivity|]. split; [reflexivity|]. split.
    + intros Hc Hp. by apply Float64Div.div_back_ge.
    + unfold Real64.is_normal.
      intros [Hc Fc]%andb_true_iff Hc' [Hz Fz]%andb_true_iff. split.
      * by apply Float64Div.div_back_finite.
      * by apply Float64Div.div_back_le.
  - right. split; [reflexivity|]. split; [reflexivity|].
    intros Hq Hm. by apply F64.ltb_false_leb.
Qed.

Lemma cfl_replaces_exactly_example :
  let v := 0x1.901999999999ap+10%float in
  let _dt := 0x1.0624dd2f1a9fcp-10%float in
  let _cr_max := 0x1.999999999999ap-3%float in
  ∃ h', Np.cell (cfl _dt _cr_max [[v; 9]%float] [[1; 9]%float]) 0 0 = Some h' ∧
    h' = (v * _dt / _cr_max)%float ∧
    (1 <=? h')%float = true ∧
    is_finite (v * _dt / h') = true ∧
    (Real64.F2R (v * _dt / h') <= Real64.F2R _cr_max * (1 + Real64.bpow (-51)))%R.
Proof.
  intros v _dt _cr_max.
  destruct (cfl_replaces_exactly _dt _cr_max [[v; 9]%float] [[1; 9]%float] 0 0 v 1)
    as (h' & Hcell & [(_ & Hnew & Hge & Hle)|(Hno & _)]);
    [reflexivity..| |vm_compute in Hno; discriminate].
  exists h'. split; [exact Hcell|]. split; [exact Hnew|].
  split; [apply Hge; reflexivity|].
  apply Hle; [reflexivity|reflexivity|]. rewrite Hnew. vm_compute. reflexivity.
Defined.

(** C3 as stated fails in binary64 arithmetic.  With velocity 1600.4,
    [hmin = 1], [dt = 0.001] and the default [cr_max = 0.2], the cell of size
    1 has Courant number 1.6004 and is replaced by [1600.4 * 0.001 / 0.2],
    which rounds to 8.001999999999999; [build] returns that field, and the
    Courant number of the new size, 0.20000000000000004, is still above
    [cr_max]. *)
Lemma cfl_bound_missed_by_rounding :
  let v := 0x1.901999999999ap+10%float in
  let _dt := 0x1.0624dd2f1a9fcp-10%float in
  let _cr_max := 0x1.999999999999ap-3%float in
  let kw := {| kw_wl := 0; kw_freq := 5; kw_hmax := Np.inf; kw_dt := _dt;
               kw_cr_max := _cr_max; kw_grade := 0 |} in
  ∃ σ' h',
    Examples.construct_and_build_on v 1 kw = (Ok 1%positive, σ') ∧
    field_at 1%positive σ' = Some [[h']] ∧
    Np.cell (cfl _dt _cr_max [[v]] [[1%float]]) 0 0 = Some h' ∧
    (_cr_max <? v * _dt / 1)%float = true ∧
    (v * _dt / h' <=? _cr_max)%float = false ∧
    (_cr_max <? v * _dt / h')%float = true.
Proof.
  intros v _dt _cr_max kw. eexists _, _.
  split; [vm_compute; reflexivity|]. repeat split; vm_compute; reflexivity.
Qed.

(** Nor does a replacement always increase the cell: a cell that already
    holds 8.001999999999999 is "replaced" by the same value. *)
Lemma cfl_replacement_not_larger :
  let h := (0x1.901999999999ap+10 * 0x1.0624dd2f1a9fcp-10 / 0x1.999999999999ap-3)%float in
  Spec.cfl_triggered 0x1.0624dd2f1a9fcp-10 0x1.999999999999ap-3
    [[0x1.901999999999ap+10%float]] [[h]] 0 0 = true ∧
  Np.cell (cfl 0x1.0624dd2f1a9fcp-10 0x1.999999999999ap-3
               [[0x1.901999999999ap+10%float]] [[h]]) 0 0 = Some h.
Proof. split; reflexivity. Qed.

(** With a negative [cr_max] a replacement lowers the cell: the cell of size
    2 with [velocity * dt = 1] and [cr_max = -1] is replaced by [-1]. *)
Lemma cfl_lowers_for_negative_cr_max :
  (-1 <? 1 * 1 / 2)%float = true ∧
  Np.cell (cfl 1 (-1) [[1%float]] [[2%float]]) 0 0 = Some (-1)%float ∧
  (2 <=? -1)%float = false.
Proof. repeat split; vm_compute; reflexivity. Qed.

(** Where the new size is not a normal number the Courant number can stay
    far above [cr_max]: with [velocity * dt] seven times the least positive
    number, [cr_max = 5] and a cell holding the least positive number, the
    quotient [7/5] of that number rounds back to it, the cell is "replaced"
    by its own value and its Courant number stays 7. *)
Lemma cfl_bound_lost_by_underflow :
  let v := 0x1.cp-1072%float in
  let h := 0x1p-1074%float in
  (5 <? v * 1 / h)%float = true ∧
  Np.cell (cfl 1 5 [[v]] [[h]]) 0 0 = Some h ∧
  Real64.is_normal h = false ∧
  (v * 1 / h)%float = 7%float.
Proof. repeat split; vm_compute; reflexivity. Qed.

(** C2 (amended).  In the field [build] produces, every cell at which the
    CFL adjustment was not triggered is at least [hmin] provided [hmax] is
    not below [hmin], and is at most [hmax] when [hmax] is finite.  ([build]
    produces a field only when [grade] is not positive, so no cell of it was
    changed by gradation.) *)
Theorem build_field_bounds (fs : filesystem) (self l : loc) (σ σ' : store) (o : obj)
    (_vp hh_m : Np.matrix) (_nz _nx i j : nat) (h : float) :
  build fs self σ = (Ok l, σ') →
  σ !! self = Some o →
  (0 <? hmin o)%float = true →
  ReadVelocityModel fs o = Ok (_vp, _nz, _nx) →
  field_at l σ' = Some hh_m →
  Np.cell hh_m i j = Some h →
  Spec.cfl_triggered (dt o) (cr_max o) _vp
    (sizes (hmin o) (wl o) (freq o) (hmax o) _vp _nz _nx) i j = false →
  ((hmax o <? hmin o)%float = false → (hmin o <=? h)%float = true) ∧
  (is_finite (hmax o) = true → (h <=? hmax o)%float = true).
Proof.
  intros Hbuild Hσ Hmin Hread Hfield Hcell Hcfl.
  apply build_Ok_inv in Hbuild
    as (o0 & vp0 & nz0 & nx0 & z_vec & x_vec & Hσ0 & Hread0 & _ & Hall & -> & ->).
  assert (o0 = o) as -> by congruence.
  assert (vp0 = _vp ∧ nz0 = _nz ∧ nx0 = _nx) as (-> & -> & ->)
    by (rewrite Hread in Hread0; injection Hread0; auto).
  unfold field_at in Hfield. rewrite lookup_insert_eq in Hfield.
  injection Hfield as <-.
  assert (Hpos : (0 <? h)%float = true)
    by (eapply NpFacts.all_gt_scalar; eassumption).
  apply cell_cfl_untouched in Hcell; [|assumption].
  apply cell_sizes_inv in Hcell as [r ->].
  apply F64.ltb_not_nan in Hpos as [_ Hnan].
  split.
  - intros Hle. by apply clamp_lower.
  - intros Hfin. apply clamp_upper; [assumption|by apply F64.is_finite_ltb_inf].
Qed.

Lemma build_field_bounds_example :
  let kw := {| kw_wl := 5; kw_freq := 5; kw_hmax := 110; kw_dt := 0;
               kw_cr_max := 0x1.999999999999ap-3; kw_grade := 0 |} in
  ((110 <? 100)%float = false → (100 <=? 100)%float = true) ∧
  (is_finite 110 = true → (100 <=? 110)%float = true).
Proof.
  intros kw.
  apply (build_field_bounds Examples.testing_segy 1%positive 1%positive
           (Examples.store0 100 kw)
           (build Examples.testing_segy 1%positive (Examples.store0 100 kw)).2
           (Examples.instance 100 kw)
           (replicate 3 (replicate 2 2000%float)) (replicate 3 (replicate 2 100%float))
           3 2 1 1 100%float);
    vm_compute; reflexivity.
Defined.

(** C2 as stated fails when [hmax] is below [hmin]: with [hmin = 100] and
    [hmax = 50] the constructor accepts the configuration, [build] returns,
    the CFL adjustment is off ([dt = 0]) and every cell is 50. *)
Lemma build_field_below_hmin :
  let kw := {| kw_wl := 0; kw_freq := 5; kw_hmax := 50; kw_dt := 0;
               kw_cr_max := 0x1.999999999999ap-3; kw_grade := 0 |} in
  ∃ σ',
    Examples.construct_and_build 100 kw = (Ok 1%positive, σ') ∧
    field_at 1%positive σ' = Some (replicate 3 (replicate 2 50%float)) ∧
    Spec.cfl_triggered (kw_dt kw) (kw_cr_max kw) (replicate 3 (replicate 2 2000%float))
      (sizes 100 (kw_wl kw) (kw_freq kw) (kw_hmax kw)
         (replicate 3 (replicate 2 2000%float)) 3 2) 0 0 = false ∧
    (100 <=? 50)%float = false.
Proof.
  intros kw. eexists. split; [vm_compute; reflexivity|].
  repeat split; vm_compute; reflexivity.
Qed.

(** C5 (amended).  Once the velocity model is read and no gradation is asked,
    [build] fails with the assertion exactly when some cell of the field is
    not strictly positive (non-positive or NaN; a cell that is [+infinity]
    passes).  When it fails, [fh] and [fd] are as before and only [vp],
    [nz], [nx] were assigned; and whenever [build] returns, it returns the
    receiver and the interpolant holds that field, unchanged. *)
Theorem build_asserts_positive (fs : filesystem) (self : loc) (σ : store) (o : obj)
    (_vp : Np.matrix) (_nz _nx : nat) :
  σ !! self = Some o →
  bbox o ≠ [] →
  ReadVelocityModel fs o = Ok (_vp, _nz, _nx) →
  (0 <? grade o)%float = false →
  ((∃ msg σ', build fs self σ = (Raise (AssertionError msg), σ')) ↔
   (∃ i j h, Np.cell (field o _vp _nz _nx) i j = Some h ∧ (0 <? h)%float = false)) ∧
  (∀ msg σ', build fs self σ = (Raise (AssertionError msg), σ') →
     msg = "edge_size_function must be strictly positive." ∧
     σ' = <[self := loaded o _vp _nz _nx]> σ ∧
     fh (loaded o _vp _nz _nx) = fh o ∧ fd (loaded o _vp _nz _nx) = fd o) ∧
  (∀ l σ', build fs self σ = (Ok l, σ') →
     l = self ∧ field_at l σ' = Some (field o _vp _nz _nx)).
Proof.
  intros Hσ Hb Hread Hg.
  destruct (build_loaded fs self σ o _vp _nz _nx Hσ Hb Hread)
    as (width & z_vec & x_vec & _ & _ & Heq).
  rewrite gradation_grade, Hg in Heq. cbv zeta in Heq.
  fold (field o _vp _nz _nx) in Heq. rewrite Heq.
  destruct (Np.all (Np.gt_scalar (field o _vp _nz _nx) 0)) eqn:Hall.
  - pose proof (proj1 (NpFacts.all_gt_scalar _ _) Hall) as Hpos.
    split; [split|split].
    + intros (msg & σ' & [=]).
    + intros (i & j & h & Hc & Hh). rewrite (Hpos i j h Hc) in Hh. discriminate.
    + intros msg σ' [=].
    + intros l σ' [= <- <-]. split; [reflexivity|].
      unfold field_at. rewrite lookup_insert_eq. reflexivity.
  - pose proof (NpFacts.all_gt_scalar_false _ _ Hall) as Hneg.
    split; [split|split].
    + intros _. exact Hneg.
    + intros _. eauto.
    + intros msg σ' [= <- <-]. auto.
    + intros l σ' [=].
Qed.

Lemma build_asserts_positive_example :
  let kw := {| kw_wl := 0; kw_freq := 5; kw_hmax := (-5)%float; kw_dt := 0;
               kw_cr_max := 0x1.999999999999ap-3; kw_grade := 0 |} in
  let o := Examples.instance 100 kw in
  let σ := Examples.store0 100 kw in
  let _vp := replicate 3 (replicate 2 2000%float) in
  ((∃ msg σ', build Examples.testing_segy 1%positive σ
              = (Raise (AssertionError msg), σ')) ↔
   (∃ i j h, Np.cell (field o _vp 3 2) i j = Some h ∧ (0 <? h)%float = false)) ∧
  (∀ msg σ', build Examples.testing_segy 1%positive σ
             = (Raise (AssertionError msg), σ') →
     msg = "edge_size_function must be strictly positive." ∧
     σ' = <[1%positive := loaded o _vp 3 2]> σ ∧
     fh (loaded o _vp 3 2) = fh o ∧ fd (loaded o _vp 3 2) = fd o) ∧
  (∀ l σ', build Examples.testing_segy 1%positive σ = (Ok l, σ') →
     l = 1%positive ∧ field_at l σ' = Some (field o _vp 3 2)).
Proof.
  intros kw o σ _vp.
  apply (build_asserts_positive Examples.testing_segy 1%positive σ o _vp 3 2);
    [reflexivity|discriminate|reflexivity|reflexivity].
Defined.

(** C5 as stated fails for a field that holds [+infinity]: with [wl = 5] and
    [freq = 0] every raw size is [2000 / 0 = +infinity], nothing clamps it
    ([hmax] is [+infinity]), the assertion [hh_m > 0] holds and [build]
    returns an interpolant over a field that is not finite. *)
Lemma build_accepts_infinite_field :
  let kw := {| kw_wl := 5; kw_freq := 0; kw_hmax := Np.inf; kw_dt := 0;
               kw_cr_max := 0x1.999999999999ap-3; kw_grade := 0 |} in
  ∃ σ',
    Examples.construct_and_build 100 kw = (Ok 1%positive, σ') ∧
    field_at 1%positive σ' = Some (replicate 3 (replicate 2 infinity)) ∧
    is_finite infinity = false.
Proof.
  intros kw. eexists. split; [vm_compute; reflexivity|].
  split; vm_compute; reflexivity.
Qed.

End FieldClaims.

(** ** The gradient limiter *)

Module LimiterFacts.
Import FastHJ Float64Facts.

(** *** Fields of numbers and their order *)

Lemma lowered_refl (h : list float) : Spec.lowered h h.
Proof.
  split; [reflexivity|]. intros k x y Hx Hy. left. congruence.
Qed.

Lemma lowered_trans (f g h : list float) :
  Spec.lowered f g → Spec.lowered g h → Spec.lowered f h.
Proof.
  intros [Hl1 H1] [Hl2 H2]. split; [congruence|].
  intros k x z Hx Hz.
  destruct (lookup_lt_is_Some_2 g k) as [y Hy].
  { rewrite <- Hl1. eapply lookup_lt_Some, Hx. }
  destruct (H1 _ _ _ Hx Hy) as [->|Hxy], (H2 _ _ _ Hy Hz) as [->|Hyz]; auto.
  right. by apply (F64.ltb_trans x y z).
Qed.

(** A field of numbers stays one when its values are lowered. *)
Lemma lowered_numbers (h' h : list float) :
  Spec.lowered h' h → Spec.numbers h → Spec.numbers h'.
Proof.
  intros [Hlen Hlow] Hn k x Hx.
  destruct (lookup_lt_is_Some_2 h k) as [y Hy].
  { rewrite <- Hlen. eapply lookup_lt_Some, Hx. }
  destruct (Hlow _ _ _ Hx Hy) as [->|Hlt]; [by apply (Hn k)|].
  by apply F64.ltb_not_nan in Hlt as [? _].
Qed.

Lemma lowered_below (h' h : list float) :
  Spec.lowered h' h → Spec.numbers h → Spec.below h' h.
Proof.
  intros [Hlen Hlow] Hn. split; [exact Hlen|]. intros k x y Hx Hy.
  destruct (Hlow _ _ _ Hx Hy) as [->|Hlt].
  - apply F64.leb_refl. by apply (Hn k).
  - by apply F64.ltb_leb.
Qed.

Lemma below_refl (h : list float) : Spec.numbers h → Spec.below h h.
Proof. intros Hn. apply lowered_below; [apply lowered_refl|exact Hn]. Qed.

Lemma below_trans (f g h : list float) :
  Spec.below f g → Spec.below g h → Spec.below f h.
Proof.
  intros [Hl1 H1] [Hl2 H2]. split; [congruence|].
  intros k x z Hx Hz.
  destruct (lookup_lt_is_Some_2 g k) as [y Hy].
  { rewrite <- Hl1. eapply lookup_lt_Some, Hx. }
  apply leb_trans with y; eauto.
Qed.

(** The fields that are compared hold numbers. *)
Lemma below_numbers (f h : list float) :
  Spec.below f h → Spec.numbers f ∧ Spec.numbers h.
Proof.
  intros [Hlen Hle]. split; intros k x Hx.
  - destruct (lookup_lt_is_Some_2 h k) as [y Hy].
    { rewrite <- Hlen. eapply lookup_lt_Some, Hx. }
    by destruct (leb_not_nan _ _ (Hle _ _ _ Hx Hy)).
  - destruct (lookup_lt_is_Some_2 f k) as [y Hy].
    { rewrite Hlen. eapply lookup_lt_Some, Hx. }
    by destruct (leb_not_nan _ _ (Hle _ _ _ Hy Hx)).
Qed.

(** *** One pass *)

Section Sweep.
Variable c : float.

(** One clamp only lowers the field. *)
Lemma relax_lowered (h : list float) (b : bool) (e : nat * nat) :
  Spec.lowered (relax c (h, b) e).1 h.
Proof.
  unfold relax.
  destruct (h !! e.1) as [hk|] eqn:Hk; [|apply lowered_refl].
  destruct (h !! e.2) as [hn|] eqn:Hn; [|apply lowered_refl].
  destruct (hk + c <? hn)%float eqn:Hlt; [|apply lowered_refl].
  cbn [fst]. split; [apply length_insert|].
  intros m x y Hx Hy. destruct (decide (m = e.2)) as [->|Hne].
  - rewrite list_lookup_insert_eq in Hx by (eapply lookup_lt_Some, Hn).
    injection Hx as <-. rewrite Hn in Hy. injection Hy as <-. right. exact Hlt.
  - rewrite list_lookup_insert_ne in Hx by congruence. left. congruence.
Qed.

Lemma foldl_relax_lowered (es : list (nat * nat)) (h : list float) (b : bool) :
  Spec.lowered (foldl (relax c) (h, b) es).1 h.
Proof.
  revert h b. induction es as [|e es IH]; intros h b; [apply lowered_refl|].
  cbn [foldl]. destruct (relax c (h, b) e) as [h1 b1] eqn:E.
  eapply lowered_trans; [apply IH|].
  replace h1 with (relax c (h, b) e).1 by (rewrite E; reflexivity).
  apply relax_lowered.
Qed.

Lemma sweep_lowered (es : list (nat * nat)) (h : list float) :
  Spec.lowered (sweep es c h).1 h.
Proof. apply foldl_relax_lowered. Qed.

Lemma graded_cons (e : nat * nat) (es : list (nat * nat)) (f : list float) :
  Spec.graded (e :: es) c f ↔ Spec.graded [e] c f ∧ Spec.graded es c f.
Proof.
  unfold Spec.graded. split.
  - intros H. split; intros k n x y Hin; apply H.
    + apply list_elem_of_singleton in Hin as ->. apply elem_of_cons. by left.
    + apply elem_of_cons. by right.
  - intros [H1 H2] k n x y [Heq|Hin]%elem_of_cons.
    + apply H1. by apply list_elem_of_singleton.
    + by apply H2.
Qed.

(** A field that is graded is left as it is by a pass. *)
Lemma foldl_relax_graded (es : list (nat * nat)) (h : list float) (b : bool) :
  Spec.graded es c h → foldl (relax c) (h, b) es = (h, b).
Proof.
  induction es as [|e es IH]; [reflexivity|].
  intros [He Hes]%graded_cons. cbn [foldl].
  replace (relax c (h, b) e) with (h, b); [by apply IH|].
  unfold relax. destruct (h !! e.1) as [hk|] eqn:Hk; [|reflexivity].
  destruct (h !! e.2) as [hn|] eqn:Hn; [|reflexivity].
  destruct (hk + c <? hn)%float eqn:Hlt; [|reflexivity].
  exfalso. assert (Hle : (hn <=? hk + c)%float = true).
  { apply (He e.1 e.2); [|assumption..]. destruct e. by apply list_elem_of_singleton. }
  apply F64.leb_ltb_false in Hle. congruence.
Qed.

Hypothesis c_finite : is_finite c = true.

(** A field below [h] that is graded along [e] stays below after the clamp. *)
Lemma relax_dominated (f h : list float) (b : bool) (e : nat * nat) :
  Spec.below f h → Spec.graded [e] c f → Spec.below f (relax c (h, b) e).1.
Proof.
  intros [Hl Hf] Hg. unfold relax.
  destruct (h !! e.1) as [hk|] eqn:Hk; [|by split].
  destruct (h !! e.2) as [hn|] eqn:Hn; [|by split].
  destruct (hk + c <? hn)%float eqn:Hlt; [|by split].
  cbn [fst]. split; [by rewrite length_insert|].
  intros m x y Hx Hy. destruct (decide (m = e.2)) as [->|Hne].
  - rewrite list_lookup_insert_eq in Hy by (eapply lookup_lt_Some, Hn).
    injection Hy as <-.
    destruct (lookup_lt_is_Some_2 f e.1) as [fk Hfk].
    { rewrite Hl. eapply lookup_lt_Some, Hk. }
    apply leb_trans with (fk + c)%float.
    + apply (Hg e.1 e.2); [|assumption..]. destruct e. by apply list_elem_of_singleton.
    + apply add_mono; [|exact c_finite]. by apply (Hf e.1).
  - rewrite list_lookup_insert_ne in Hy by congruence. eauto.
Qed.

Lemma foldl_relax_dominated (es : list (nat * nat)) (f h : list float) (b : bool) :
  Spec.below f h → Spec.graded es c f → Spec.below f (foldl (relax c) (h, b) es).1.
Proof.
  revert h b. induction es as [|e es IH]; intros h b Hf Hg; [exact Hf|].
  apply graded_cons in Hg as [He Hes].
  cbn [foldl]. pose proof (relax_dominated f h b e Hf He) as H1.
  destruct (relax c (h, b) e) as [h1 b1]. by apply IH.
Qed.

(** A pass that reports no change left the field as it was, and the field
    is graded. *)
Lemma foldl_relax_unchanged (es : list (nat * nat)) (h h' : list float) (b : bool) :
  Spec.numbers h →
  foldl (relax c) (h, b) es = (h', false) →
  b = false ∧ h' = h ∧ Spec.graded es c h.
Proof.
  intros Hnum. revert h b Hnum. induction es as [|e es IH]; intros h b Hnum; cbn [foldl].
  - intros [= -> ->]. split; [reflexivity|]. split; [reflexivity|].
    intros k n x y Hin. by apply elem_of_nil in Hin.
  - destruct (relax c (h, b) e) as [h1 b1] eqn:E.
    assert (Hnum1 : Spec.numbers h1).
    { apply (lowered_numbers h1 h); [|exact Hnum].
      replace h1 with (relax c (h, b) e).1 by (rewrite E; reflexivity).
      apply relax_lowered. }
    intros (-> & -> & Hg)%IH; [|exact Hnum1]. unfold relax in E.
    destruct (h !! e.1) as [hk|] eqn:Hk.
    2: { injection E as <- <-. split; [reflexivity|]. split; [reflexivity|].
         apply graded_cons. split; [|exact Hg].
         intros k n x y Heq%list_elem_of_singleton. subst e. simpl in *. congruence. }
    destruct (h !! e.2) as [hn|] eqn:Hn.
    2: { injection E as <- <-. split; [reflexivity|]. split; [reflexivity|].
         apply graded_cons. split; [|exact Hg].
         intros k n x y Heq%list_elem_of_singleton. subst e. simpl in *. congruence. }
    destruct (hk + c <? hn)%float eqn:Hlt; [discriminate|].
    injection E as <- <-. split; [reflexivity|]. split; [reflexivity|].
    apply graded_cons. split; [|exact Hg].
    intros k n x y Heq%list_elem_of_singleton. subst e. simpl in *.
    intros Hx Hy. rewrite Hk in Hx. rewrite Hn in Hy.
    injection Hx as <-. injection Hy as <-.
    apply F64.ltb_false_leb; [|by apply (Hnum n)|exact Hlt].
    apply add_not_nan; [by apply (Hnum k)|exact c_finite].
Qed.

(** After a pass, the value at [n] is at most the value [k] had before the
    pass grown by [c], for every pair [(k, n)] the pass visits. *)
Lemma foldl_relax_edge (es : list (nat * nat)) (h : list float) (b : bool) (k n : nat)
    (x x' y : float) :
  Spec.numbers h →
  (k, n) ∈ es →
  h !! k = Some x' → (x' <=? x)%float = true →
  (foldl (relax c) (h, b) es).1 !! n = Some y →
  (y <=? x + c)%float = true.
Proof.
  revert h b x'. induction es as [|e es IH]; intros h b x' Hnum Hin Hk Hx Hy.
  { by apply elem_of_nil in Hin. }
  cbn [foldl] in Hy.
  pose proof (relax_lowered h b e) as Hlow.
  destruct (relax c (h, b) e) as [h1 b1] eqn:E. cbn [fst] in Hlow.
  pose proof (lowered_numbers _ _ Hlow Hnum) as Hnum1.
  apply elem_of_cons in Hin as [Heq|Hin].
  - subst e.
    pose proof (lowered_below _ _ (foldl_relax_lowered es h1 b1) Hnum1) as [Hlen Hle].
    destruct (lookup_lt_is_Some_2 h1 n) as [y1 Hy1].
    { rewrite <- Hlen. eapply lookup_lt_Some, Hy. }
    pose proof (Hle _ _ _ Hy Hy1) as Hyy1.
    apply leb_trans with y1; [exact Hyy1|].
    apply leb_trans with (x' + c)%float; [|by apply add_mono].
    unfold relax in E. cbn [fst snd] in E. rewrite Hk in E.
    destruct (h !! n) as [hn|] eqn:Hn.
    2: { injection E as <- <-. congruence. }
    assert (Nx : is_nan (x' + c) = false).
    { apply add_not_nan; [by apply (Hnum k)|exact c_finite]. }
    destruct (x' + c <? hn)%float eqn:Hlt; cbv iota in E; injection E as <- <-.
    + rewrite list_lookup_insert_eq in Hy1 by (eapply lookup_lt_Some, Hn).
      injection Hy1 as <-. by apply F64.leb_refl.
    + rewrite Hn in Hy1. injection Hy1 as <-.
      apply F64.ltb_false_leb; [exact Nx|by apply (Hnum n)|exact Hlt].
  - pose proof (lowered_below _ _ Hlow Hnum) as [Hlen Hle].
    destruct (lookup_lt_is_Some_2 h1 k) as [x1 Hx1].
    { rewrite Hlen. eapply lookup_lt_Some, Hk. }
    apply (IH h1 b1 x1); try assumption.
    apply leb_trans with x'; [|exact Hx]. by apply (Hle k).
Qed.

Lemma steps_not_nan (d : nat) (x : float) :
  is_nan x = false → is_nan (Spec.steps c d x) = false.
Proof.
  intros Hx. induction d as [|d IH]; [exact Hx|].
  cbn [Spec.steps]. by apply add_not_nan.
Qed.

Hypothesis c_nonneg : (0 <=? c)%float = true.

Lemma steps_mono (d d' : nat) (x : float) :
  is_nan x = false → d ≤ d' →
  (Spec.steps c d x <=? Spec.steps c d' x)%float = true.
Proof.
  intros Hx Hd. induction Hd as [|d' Hd IH].
  - apply F64.leb_refl. by apply steps_not_nan.
  - apply leb_trans with (Spec.steps c d' x); [exact IH|].
    cbn [Spec.steps]. apply add_increasing; [by apply steps_not_nan|assumption..].
Qed.

End Sweep.

(** *** Convergence

    On a graph in which [dist] counts the steps between two cells, [t]
    passes bring every cell within [t] steps of a cell [b] below the value of
    [b] grown over the steps between them; so after as many passes as the
    graph is wide, the field is graded and the next pass changes nothing.
    The order in which a pass visits the pairs plays no part, as long as
    every pass visits them all. *)
Section Convergence.
Context {sweeps : Sweep}.
Variable c : float.
Variable es : list (nat * nat).
Variables nz nx : nat.
Variable N D : nat.
Variable dist : nat → nat → nat.
Variable h0 : list float.

Hypothesis c_finite : is_finite c = true.
Hypothesis c_nonneg : (0 <=? c)%float = true.
Hypothesis h0_numbers : Spec.numbers h0.
Hypothesis h0_length : length h0 = N.
Hypothesis pass_edges : ∀ t e, e ∈ visit t nz nx ↔ e ∈ es.
Hypothesis es_cells : ∀ k n, (k, n) ∈ es → k < N ∧ n < N.
Hypothesis dist_refl : ∀ b, dist b b = 0.
Hypothesis dist_zero : ∀ b v, b < N → v < N → dist b v = 0 → b = v.
Hypothesis dist_step : ∀ b k n, (k, n) ∈ es → dist b n ≤ S (dist b k).
Hypothesis dist_closer :
  ∀ b v t, b < N → v < N → dist b v = S t → ∃ u, (u, v) ∈ es ∧ dist b u = t.
Hypothesis dist_diameter : ∀ b v, b < N → v < N → dist b v ≤ D.

Abbreviation upper := (Spec.upper c dist h0).
Abbreviation lower := (Spec.lower c dist h0).

Lemma lower_initial : lower h0.
Proof.
  intros v y Hy. exists v, y. split; [exact Hy|].
  rewrite dist_refl. cbn [Spec.steps]. apply F64.leb_refl. by apply (h0_numbers v).
Qed.

Lemma upper_initial : upper 0 h0.
Proof.
  intros b v x y Hd Hx Hy.
  assert (b = v) as ->.
  { apply dist_zero; [rewrite <- h0_length..|lia]; eapply lookup_lt_Some; eassumption. }
  rewrite dist_refl. cbn [Spec.steps]. rewrite Hx in Hy. injection Hy as ->.
  apply F64.leb_refl. by apply (h0_numbers v).
Qed.

Lemma upper_below (t : nat) (h h' : list float) :
  upper t h → Spec.below h' h → upper t h'.
Proof.
  intros Hu [Hlen Hle] b v x y Hd Hx Hy.
  destruct (lookup_lt_is_Some_2 h v) as [y1 Hy1].
  { rewrite <- Hlen. eapply lookup_lt_Some, Hy. }
  apply leb_trans with y1; [by apply (Hle v)|]. by apply (Hu b v).
Qed.

Lemma relax_lower (h : list float) (b : bool) (e : nat * nat) :
  e ∈ es → lower h → lower (relax c (h, b) e).1.
Proof.
  intros Hin Hl. unfold relax.
  destruct (h !! e.1) as [hk|] eqn:Hk; [|exact Hl].
  destruct (h !! e.2) as [hn|] eqn:Hn; [|exact Hl].
  destruct (hk + c <? hn)%float eqn:Hlt; [|exact Hl].
  cbn [fst]. intros v y Hy. destruct (decide (v = e.2)) as [->|Hne].
  - rewrite list_lookup_insert_eq in Hy by (eapply lookup_lt_Some, Hn).
    injection Hy as <-.
    destruct (Hl _ _ Hk) as (s & x & Hs & Hle). exists s, x. split; [exact Hs|].
    assert (Hd : dist s e.2 ≤ S (dist s e.1)) by (apply dist_step; by destruct e).
    apply leb_trans with (Spec.steps c (S (dist s e.1)) x).
    + apply steps_mono; try assumption. by apply (h0_numbers s).
    + cbn [Spec.steps]. by apply add_mono.
  - rewrite list_lookup_insert_ne in Hy by congruence. by apply Hl.
Qed.

Lemma foldl_relax_lower (es' : list (nat * nat)) (h : list float) (b : bool) :
  es' ⊆ es → lower h → lower (foldl (relax c) (h, b) es').1.
Proof.
  revert h b. induction es' as [|e es' IH]; intros h b Hsub Hl; [exact Hl|].
  cbn [foldl]. pose proof (relax_lower h b e) as H1.
  destruct (relax c (h, b) e) as [h1 b1]. apply IH.
  - intros e' He'. apply Hsub. apply elem_of_cons. by right.
  - apply H1; [|exact Hl]. apply Hsub. apply elem_of_cons. by left.
Qed.

Lemma sweep_upper (p t : nat) (h : list float) :
  Spec.below h h0 → upper t h → upper (S t) (sweep (visit p nz nx) c h).1.
Proof.
  intros Hb0 Hu b v x y Hd Hx Hy.
  pose proof Hb0 as [Hlen _].
  destruct (below_numbers _ _ Hb0) as [Hnum _].
  pose proof (sweep_lowered c (visit p nz nx) h) as Hlow.
  pose proof (lowered_below _ _ Hlow Hnum) as Hb.
  destruct (decide (dist b v ≤ t)) as [Hle|Hgt].
  { by apply (upper_below t h _ Hu Hb b v). }
  assert (Hdist : dist b v = S t) by lia.
  assert (Hbn : b < N) by (rewrite <- h0_length; eapply lookup_lt_Some, Hx).
  assert (Hvn : v < N).
  { rewrite <- h0_length, <- Hlen, <- (proj1 Hb). eapply lookup_lt_Some, Hy. }
  destruct (dist_closer b v t Hbn Hvn Hdist) as (u & Hin & Hdu).
  assert (Hun : u < length h) by (rewrite Hlen, h0_length; apply (es_cells u v Hin)).
  destruct (lookup_lt_is_Some_2 h u Hun) as [z Hz].
  pose proof (Hu b u x z ltac:(lia) Hx Hz) as Hzu.
  rewrite Hdist. cbn [Spec.steps]. rewrite <- Hdu.
  apply (foldl_relax_edge c c_finite (visit p nz nx) h false u v _ z y Hnum);
    [by apply pass_edges|exact Hz|exact Hzu|exact Hy].
Qed.

Lemma sweep_lower (p : nat) (h : list float) :
  lower h → lower (sweep (visit p nz nx) c h).1.
Proof.
  intros Hl. apply foldl_relax_lower; [|exact Hl].
  intros e He. by apply (pass_edges p).
Qed.

(** Once the bound reaches across the graph, the field is graded. *)
Lemma upper_lower_graded (t : nat) (h : list float) :
  D ≤ t → Spec.below h h0 → upper t h → lower h → Spec.graded es c h.
Proof.
  intros Ht [Hlen _] Hu Hl k n x y Hin Hx Hy.
  destruct (Hl _ _ Hx) as (b & z & Hz & Hle).
  destruct (es_cells k n Hin) as [Hk Hn].
  assert (Hb : b < N) by (rewrite <- h0_length; eapply lookup_lt_Some, Hz).
  pose proof (dist_diameter b n Hb Hn) as HD.
  pose proof (Hu b n z y ltac:(lia) Hz Hy) as Hyz.
  apply leb_trans with (Spec.steps c (dist b n) z); [exact Hyz|].
  apply leb_trans with (Spec.steps c (S (dist b k)) z).
  - apply steps_mono; try assumption; [by apply (h0_numbers b)|by apply dist_step].
  - cbn [Spec.steps]. by apply add_mono.
Qed.

Lemma graded_pass (p : nat) (h : list float) :
  Spec.graded es c h ↔ Spec.graded (visit p nz nx) c h.
Proof.
  unfold Spec.graded. split; intros H k n x y Hin; apply H; by apply (pass_edges p).
Qed.

(** With more passes allowed than the graph is wide, the iteration stops
    at a pass that changes nothing. *)
Lemma iterate_reaches_fixpoint (imax p t : nat) (h : list float) :
  Spec.below h h0 → upper t h → lower h →
  D + 1 ≤ t + imax → 1 ≤ imax →
  (iterate nz nx c p imax h).2 = true.
Proof.
  revert p t h. induction imax as [|imax IH]; intros p t h Hb Hu Hl Ht Hi; [lia|].
  cbn [iterate].
  destruct (below_numbers _ _ Hb) as [Hnum _].
  pose proof (lowered_below _ _ (sweep_lowered c (visit p nz nx) h) Hnum) as Hsb.
  pose proof (sweep_upper p t h Hb Hu) as Hsu.
  pose proof (sweep_lower p h Hl) as Hsl.
  destruct (sweep (visit p nz nx) c h) as [h' changed] eqn:E. cbn [fst] in Hsb, Hsu, Hsl.
  destruct changed; [|reflexivity].
  destruct (decide (D ≤ t)) as [HD|HD].
  - exfalso. pose proof (upper_lower_graded t h HD Hb Hu Hl) as Hg.
    apply (graded_pass p) in Hg.
    unfold sweep in E. rewrite (foldl_relax_graded c _ h false Hg) in E. discriminate.
  - apply (IH (S p) (S t)); try assumption; try lia.
    eapply below_trans; eassumption.
Qed.

Lemma iterate_converges (imax : nat) :
  D + 1 ≤ imax → (iterate nz nx c 0 imax h0).2 = true.
Proof.
  intros Hi. apply (iterate_reaches_fixpoint imax 0 0).
  - by apply below_refl.
  - apply upper_initial.
  - apply lower_initial.
  - lia.
  - lia.
Qed.

End Convergence.

(** *** The passes *)

Section Passes.
Context {sweeps : Sweep}.
Variable c : float.
Variables nz nx : nat.

Lemma iterate_lowered (p imax : nat) (h : list float) :
  Spec.lowered (iterate nz nx c p imax h).1 h.
Proof.
  revert p h. induction imax as [|imax IH]; intros p h; [apply lowered_refl|].
  cbn [iterate]. pose proof (sweep_lowered c (visit p nz nx) h) as Hs.
  destruct (sweep (visit p nz nx) c h) as [h' changed].
  destruct changed; [|exact Hs].
  eapply lowered_trans; [apply IH|exact Hs].
Qed.

Lemma iterate_dominated (p imax : nat) (f h : list float) :
  is_finite c = true →
  Spec.below f h → (∀ t, Spec.graded (visit t nz nx) c f) →
  Spec.below f (iterate nz nx c p imax h).1.
Proof.
  intros Hc. revert p h. induction imax as [|imax IH]; intros p h Hf Hg; [exact Hf|].
  cbn [iterate].
  pose proof (foldl_relax_dominated c Hc (visit p nz nx) f h false Hf (Hg p)) as Hs.
  unfold sweep. destruct (foldl (relax c) (h, false) (visit p nz nx)) as [h' changed].
  destruct changed; [by apply IH|exact Hs].
Qed.

Lemma iterate_converged (p imax : nat) (h h' : list float) :
  is_finite c = true → Spec.numbers h →
  iterate nz nx c p imax h = (h', true) →
  ∃ t, Spec.graded (visit t nz nx) c h'.
Proof.
  intros Hc. revert p h. induction imax as [|imax IH]; intros p h Hnum; cbn [iterate];
    [discriminate|].
  unfold sweep.
  pose proof (foldl_relax_lowered c (visit p nz nx) h false) as Hlow.
  destruct (foldl (relax c) (h, false) (visit p nz nx)) as [h1 changed] eqn:E.
  destruct changed.
  - apply IH. by apply (lowered_numbers h1 h).
  - intros [= <-]. exists p.
    by apply (foldl_relax_unchanged c Hc) in E as (_ & -> & Hg).
Qed.

End Passes.

(** *** The grid *)
Section Grid.
Variables nz nx : nat.

Abbreviation grid := (pairs nz nx (by_columns nz nx)).

Lemma index_mod (i j : nat) : i < nz → index nz i j `mod` nz = i.
Proof.
  intros Hi. unfold index.
  rewrite (Nat.mul_comm nz j), Nat.Div0.mod_add. by apply Nat.mod_small.
Qed.

Lemma index_div (i j : nat) : i < nz → index nz i j `div` nz = j.
Proof.
  intros Hi. unfold index.
  rewrite (Nat.mul_comm nz j), Nat.div_add by lia.
  rewrite Nat.div_small by assumption. reflexivity.
Qed.

Lemma index_decompose (k : nat) : index nz (k `mod` nz) (k `div` nz) = k.
Proof. unfold index. pose proof (Nat.div_mod_eq k nz). lia. Qed.

Lemma cell_in_grid (k : nat) :
  k < nz * nx → k `mod` nz < nz ∧ k `div` nz < nx.
Proof.
  intros Hk. assert (nz ≠ 0) by lia. split.
  - by apply Nat.mod_upper_bound.
  - by apply Nat.Div0.div_lt_upper_bound.
Qed.

Lemma index_in_grid (i j : nat) : i < nz → j < nx → index nz i j < nz * nx.
Proof. unfold index. nia. Qed.

Lemma elem_of_neighbours (k n : nat) :
  n ∈ neighbours nz nx k ↔
  (0 < k `mod` nz ∧ n = index nz (k `mod` nz - 1) (k `div` nz)) ∨
  (k `mod` nz + 1 < nz ∧ n = index nz (k `mod` nz + 1) (k `div` nz)) ∨
  (0 < k `div` nz ∧ n = index nz (k `mod` nz) (k `div` nz - 1)) ∨
  (k `div` nz + 1 < nx ∧ n = index nz (k `mod` nz) (k `div` nz + 1)).
Proof.
  unfold neighbours. cbv zeta. rewrite !elem_of_app.
  repeat case_decide; rewrite ?list_elem_of_singleton, ?elem_of_nil; intuition lia.
Qed.

Lemma elem_of_pairs (cells : list nat) (k n : nat) :
  (k, n) ∈ pairs nz nx cells ↔ k ∈ cells ∧ n ∈ neighbours nz nx k.
Proof.
  unfold pairs. rewrite list_elem_of_bind. split.
  - intros (k' & Hin & Hk').
    apply list_elem_of_fmap in Hin as (n' & [= -> ->] & Hn'). by split.
  - intros [Hk Hn]. exists k. split; [|exact Hk].
    apply list_elem_of_fmap. by exists n.
Qed.

Lemma elem_of_grid (k n : nat) :
  (k, n) ∈ grid ↔ k < nz * nx ∧ n ∈ neighbours nz nx k.
Proof.
  rewrite elem_of_pairs. unfold by_columns. rewrite elem_of_seq.
  split; intros [? ?]; (split; [lia|assumption]).
Qed.

(** Whatever the order, a pass that visits every cell visits the pairs of
    the grid. *)
Lemma covers_edges (sweeps : Sweep) (t : nat) (e : nat * nat) :
  Spec.covers sweeps → e ∈ visit t nz nx ↔ e ∈ grid.
Proof.
  intros Hcov. destruct e as [k n].
  rewrite elem_of_grid. apply Hcov.
Qed.

(** A neighbour is a cell of the grid, one step away. *)
Lemma edges_step (k n : nat) :
  (k, n) ∈ grid →
  k < nz * nx ∧ n < nz * nx ∧
  ((n `mod` nz = k `mod` nz - 1 ∧ 0 < k `mod` nz ∧ n `div` nz = k `div` nz) ∨
   (n `mod` nz = k `mod` nz + 1 ∧ n `div` nz = k `div` nz) ∨
   (n `mod` nz = k `mod` nz ∧ n `div` nz = k `div` nz - 1 ∧ 0 < k `div` nz) ∨
   (n `mod` nz = k `mod` nz ∧ n `div` nz = k `div` nz + 1)).
Proof.
  intros [Hk Hn]%elem_of_grid. destruct (cell_in_grid k Hk) as [Hi Hj].
  apply elem_of_neighbours in Hn as [[H ->]|[[H ->]|[[H ->]|[H ->]]]];
    (split; [assumption|]); (split; [apply index_in_grid; lia|]);
    rewrite index_mod, index_div by lia; lia.
Qed.

Lemma grid_cells (k n : nat) : (k, n) ∈ grid → k < nz * nx ∧ n < nz * nx.
Proof. intros (? & ? & _)%edges_step. auto. Qed.

Lemma grid_dist_refl (b : nat) : Spec.dist nz b b = 0.
Proof. unfold Spec.dist. lia. Qed.

Lemma grid_dist_zero (b v : nat) :
  b < nz * nx → v < nz * nx → Spec.dist nz b v = 0 → b = v.
Proof.
  unfold Spec.dist. intros _ _ Hd.
  rewrite <- (index_decompose b), <- (index_decompose v).
  f_equal; lia.
Qed.

Lemma grid_dist_step (b k n : nat) :
  (k, n) ∈ grid → Spec.dist nz b n ≤ S (Spec.dist nz b k).
Proof.
  intros (_ & _ & H)%edges_step. unfold Spec.dist. lia.
Qed.

Lemma grid_dist_diameter (b v : nat) :
  b < nz * nx → v < nz * nx → Spec.dist nz b v ≤ (nz - 1) + (nx - 1).
Proof.
  intros [? ?]%cell_in_grid [? ?]%cell_in_grid. unfold Spec.dist. lia.
Qed.

(** From a cell [v] there is a neighbour one step closer to any other cell. *)
Lemma grid_dist_closer (b v t : nat) :
  b < nz * nx → v < nz * nx → Spec.dist nz b v = S t →
  ∃ u, (u, v) ∈ grid ∧ Spec.dist nz b u = t.
Proof.
  intros Hb Hv Hd.
  destruct (cell_in_grid b Hb) as [Hib Hjb], (cell_in_grid v Hv) as [Hiv Hjv].
  unfold Spec.dist in Hd.
  assert (Hcase : b `mod` nz < v `mod` nz ∨ v `mod` nz < b `mod` nz ∨
                  b `div` nz < v `div` nz ∨ v `div` nz < b `div` nz) by lia.
  set (iv := v `mod` nz) in *. set (jv := v `div` nz) in *.
  assert (Hvidx : v = index nz iv jv) by (symmetry; apply index_decompose).
  destruct Hcase as [H|[H|[H|H]]].
  - exists (index nz (iv - 1) jv). split.
    + apply elem_of_grid. split; [apply index_in_grid; lia|].
      apply elem_of_neighbours. rewrite index_mod, index_div by lia.
      right. left. split; [lia|]. rewrite Hvidx. f_equal. lia.
    + unfold Spec.dist. rewrite index_mod, index_div by lia. lia.
  - exists (index nz (iv + 1) jv). split.
    + apply elem_of_grid. split; [apply index_in_grid; lia|].
      apply elem_of_neighbours. rewrite index_mod, index_div by lia.
      left. split; [lia|]. rewrite Hvidx. f_equal. lia.
    + unfold Spec.dist. rewrite index_mod, index_div by lia. lia.
  - exists (index nz iv (jv - 1)). split.
    + apply elem_of_grid. split; [apply index_in_grid; lia|].
      apply elem_of_neighbours. rewrite index_mod, index_div by lia.
      right. right. right. split; [lia|]. rewrite Hvidx. f_equal. lia.
    + unfold Spec.dist. rewrite index_mod, index_div by lia. lia.
  - exists (index nz iv (jv + 1)). split.
    + apply elem_of_grid. split; [apply index_in_grid; lia|].
      apply elem_of_neighbours. rewrite index_mod, index_div by lia.
      right. right. left. split; [lia|]. rewrite Hvidx. f_equal. lia.
    + unfold Spec.dist. rewrite index_mod, index_div by lia. lia.
Qed.

(** The rows, one after the other, are the cells of the grid. *)
Lemma elem_of_by_rows (k : nat) : k ∈ by_rows nz nx ↔ k < nz * nx.
Proof.
  unfold by_rows. rewrite list_elem_of_bind. split.
  - intros (i & Hin & Hi%elem_of_seq).
    apply list_elem_of_fmap in Hin as (j & -> & Hj%elem_of_seq).
    apply index_in_grid; lia.
  - intros Hk. destruct (cell_in_grid k Hk) as [Hi Hj].
    exists (k `mod` nz). split; [|apply elem_of_seq; lia].
    apply list_elem_of_fmap. exists (k `div` nz).
    split; [symmetry; apply index_decompose|apply elem_of_seq; lia].
Qed.

Lemma elem_of_by_columns (k : nat) : k ∈ by_columns nz nx ↔ k < nz * nx.
Proof. unfold by_columns. rewrite elem_of_seq. lia. Qed.

End Grid.

(** The two orders the specification names visit every cell in every pass. *)
Lemma alternating_covers : Spec.covers alternating.
Proof.
  intros t nz nx k n. cbn [visit alternating]. rewrite elem_of_pairs.
  destruct (Nat.even t); rewrite ?elem_of_reverse, elem_of_by_columns; reflexivity.
Qed.

Lemma four_directions_covers : Spec.covers four_directions.
Proof.
  intros t nz nx k n. cbn [visit four_directions]. rewrite elem_of_pairs.
  rewrite !elem_of_app, !elem_of_reverse, elem_of_by_rows, elem_of_by_columns.
  tauto.
Qed.

End LimiterFacts.

(** ** The wrapper [hj] *)

Module WrapperFacts.
Import FastHJ gradient_limiter LimiterFacts Float64Facts.

Lemma omap_seq {A} (g : nat → option A) (s n : nat) :
  (∀ j, j < n → is_Some (g (s + j))) →
  length (omap g (seq s n)) = n ∧
  ∀ j, j < n → omap g (seq s n) !! j = g (s + j).
Proof.
  revert s. induction n as [|n IH]; intros s Hg.
  - split; [reflexivity|]. intros j Hj. lia.
  - cbn [seq omap list_omap].
    destruct (Hg 0 ltac:(lia)) as [x Hx]. rewrite Nat.add_0_r in Hx.
    change (omap g (s :: seq (S s) n)) with
      (match g s with Some y => y :: omap g (seq (S s) n) | None => omap g (seq (S s) n) end).
    rewrite Hx.
    destruct (IH (S s)) as [Hlen Hlook].
    { intros j Hj. replace (S s + j) with (s + S j) by lia. apply Hg. lia. }
    split; [simpl; by rewrite Hlen|].
    intros [|j] Hj; simpl.
    + by rewrite Nat.add_0_r.
    + rewrite Hlook by lia. f_equal. lia.
Qed.

Lemma bind_seq {A} (f : nat → list A) (len s n : nat) :
  (∀ j, j < n → length (f (s + j)) = len) →
  length (seq s n ≫= f) = len * n ∧
  ∀ i j, i < len → j < n → (seq s n ≫= f) !! (i + len * j) = f (s + j) !! i.
Proof.
  revert s. induction n as [|n IH]; intros s Hf.
  - split; [simpl; lia|]. intros i j _ Hj. lia.
  - cbn [seq]. rewrite bind_cons.
    pose proof (Hf 0 ltac:(lia)) as H0. rewrite Nat.add_0_r in H0.
    destruct (IH (S s)) as [Hlen Hlook].
    { intros j Hj. replace (S s + j) with (s + S j) by lia. apply Hf. lia. }
    split; [rewrite length_app, H0, Hlen, Nat.mul_succ_r; lia|].
    intros i [|j] Hi Hj.
    + rewrite Nat.mul_0_r, !Nat.add_0_r. apply lookup_app_l. lia.
    + rewrite Nat.mul_succ_r, lookup_app_r by lia. rewrite H0.
      replace (i + (len * j + len) - len) with (i + len * j) by lia.
      rewrite Hlook by lia. by replace (S s + j) with (s + S j) by lia.
Qed.

Section Shapes.
Context {T : Type}.
Variables nz nx : nat.

Lemma rectangular_cell (m : list (list T)) (i j : nat) :
  Spec.rectangular m nz nx → i < nz → j < nx → is_Some (Np.cell m i j).
Proof.
  intros [Hlen Hrows] Hi Hj. unfold Np.cell.
  destruct (lookup_lt_is_Some_2 m i ltac:(lia)) as [row Hrow]. rewrite Hrow. simpl.
  apply lookup_lt_is_Some_2.
  rewrite Forall_forall in Hrows. rewrite (Hrows row); [lia|].
  eapply list_elem_of_lookup_2, Hrow.
Qed.

Lemma cell_rectangular (m : list (list T)) (i j : nat) (x : T) :
  Spec.rectangular m nz nx → Np.cell m i j = Some x → i < nz ∧ j < nx.
Proof.
  intros [Hlen Hrows]. unfold Np.cell.
  destruct (m !! i) as [row|] eqn:Hrow; simpl; [|discriminate].
  intros Hj. split.
  - rewrite <- Hlen. eapply lookup_lt_Some, Hrow.
  - rewrite Forall_forall in Hrows. rewrite <- (Hrows row).
    + eapply lookup_lt_Some, Hj.
    + eapply list_elem_of_lookup_2, Hrow.
Qed.

(** [flatten("F")] puts the cell [(i, j)] at the flat index [i + nz * j]. *)
Lemma flatten_F_lookup (m : list (list T)) :
  Spec.rectangular m nz nx →
  length (flatten_F nz nx m) = nz * nx ∧
  ∀ i j, i < nz → j < nx → flatten_F nz nx m !! index nz i j = Np.cell m i j.
Proof.
  intros Hm. unfold flatten_F, index.
  assert (Hcol : ∀ j, j < nx →
            length (omap (fun i => Np.cell m i j) (seq 0 nz)) = nz ∧
            ∀ i, i < nz → omap (fun i => Np.cell m i j) (seq 0 nz) !! i = Np.cell m i j).
  { intros j Hj.
    destruct (omap_seq (fun i => Np.cell m i j) 0 nz) as [Hl Hk].
    - intros i Hi. by apply rectangular_cell.
    - split; [exact Hl|]. intros i Hi. by rewrite Hk. }
  destruct (bind_seq (fun j => omap (fun i => Np.cell m i j) (seq 0 nz)) nz 0 nx)
    as [Hlen Hlook].
  { intros j Hj. by apply Hcol. }
  split; [exact Hlen|].
  intros i j Hi Hj. rewrite Hlook by assumption. simpl. by apply Hcol.
Qed.

(** [reshape(..., "F")] reads the cell [(i, j)] from the flat index
    [i + nz * j]. *)
Lemma reshape_F_lookup (l : list T) :
  length l = nz * nx →
  ∃ m, reshape_F nz nx l = Ok m ∧ Spec.rectangular m nz nx ∧
       ∀ i j, i < nz → j < nx → Np.cell m i j = l !! index nz i j.
Proof.
  intros Hlen. unfold reshape_F. rewrite decide_True by assumption.
  eexists. split; [reflexivity|].
  assert (Hrow : ∀ i, i < nz →
            length (omap (fun j => l !! index nz i j) (seq 0 nx)) = nx ∧
            ∀ j, j < nx → omap (fun j => l !! index nz i j) (seq 0 nx) !! j
                          = l !! index nz i j).
  { intros i Hi.
    destruct (omap_seq (fun j => l !! index nz i j) 0 nx) as [Hl Hk].
    - intros j Hj. apply lookup_lt_is_Some_2. rewrite Hlen. simpl.
      by apply index_in_grid.
    - split; [exact Hl|]. intros j Hj. by rewrite Hk. }
  split; [split|].
  - by rewrite length_fmap, length_seq.
  - apply Forall_forall. intros row (i & -> & Hi%elem_of_seq)%list_elem_of_fmap.
    apply Hrow. lia.
  - intros i j Hi Hj. unfold Np.cell.
    rewrite list_lookup_fmap, lookup_seq_lt by assumption. simpl. by apply Hrow.
Qed.

End Shapes.

Section Grids.
Variables nz nx : nat.

Abbreviation grid := (pairs nz nx (by_columns nz nx)).

Lemma dist_index (i j i' j' : nat) :
  i < nz → i' < nz →
  Spec.dist nz (index nz i j) (index nz i' j') = (i - i') + (i' - i) + (j - j') + (j' - j).
Proof.
  intros Hi Hi'. unfold Spec.dist. by rewrite !index_mod, !index_div.
Qed.

(** Grid-adjacent cells are a (cell, neighbour) pair of the pass. *)
Lemma adjacent_edge (i j i' j' : nat) :
  i < nz → j < nx → i' < nz → j' < nx →
  Spec.adjacent (i, j) (i', j') →
  (index nz i j, index nz i' j') ∈ grid.
Proof.
  intros Hi Hj Hi' Hj' Hadj. unfold Spec.adjacent in Hadj. simpl in Hadj.
  pose proof (index_in_grid nz nx i j Hi Hj) as Ha.
  pose proof (index_in_grid nz nx i' j' Hi' Hj') as Hb.
  destruct (grid_dist_closer nz nx (index nz i j) (index nz i' j') 0 Ha Hb)
    as (u & Hin & Hu).
  { rewrite dist_index by assumption. exact Hadj. }
  destruct (grid_cells nz nx u _ Hin) as [Hun _].
  by rewrite (grid_dist_zero nz nx _ u Ha Hun Hu).
Qed.

(** A (cell, neighbour) pair of the pass is a pair of grid-adjacent cells. *)
Lemma edge_adjacent (k n : nat) :
  (k, n) ∈ grid →
  Spec.adjacent (k `mod` nz, k `div` nz) (n `mod` nz, n `div` nz).
Proof.
  intros (_ & _ & H)%edges_step. unfold Spec.adjacent. simpl. lia.
Qed.

Lemma flat_numbers (h : Np.matrix) :
  Spec.rectangular h nz nx →
  Spec.no_nan h ↔ Spec.numbers (flatten_F nz nx h).
Proof.
  intros Hh. destruct (flatten_F_lookup nz nx h Hh) as [Hlh Hkh]. split.
  - intros Hn k x Hx.
    assert (Hk : k < nz * nx) by (rewrite <- Hlh; eapply lookup_lt_Some, Hx).
    destruct (cell_in_grid nz nx k Hk) as [Hi Hj].
    rewrite <- (index_decompose nz k), Hkh in Hx by assumption. by apply Hn in Hx.
  - intros Hn i j x Hx.
    destruct (cell_rectangular nz nx h i j x Hh Hx) as [Hi Hj].
    rewrite <- Hkh in Hx by assumption. by apply Hn in Hx.
Qed.

Lemma flat_lowered (f h : Np.matrix) :
  Spec.rectangular f nz nx → Spec.rectangular h nz nx →
  Spec.lowered (flatten_F nz nx f) (flatten_F nz nx h) → Spec.lowered_field f h.
Proof.
  intros Hf Hh [_ Hlow] i j x y Hx Hy.
  destruct (flatten_F_lookup nz nx f Hf) as [_ Hkf], (flatten_F_lookup nz nx h Hh) as [_ Hkh].
  destruct (cell_rectangular nz nx f i j x Hf Hx) as [Hi Hj].
  rewrite <- Hkf in Hx by assumption. rewrite <- Hkh in Hy by assumption. eauto.
Qed.

Lemma flat_below (f h : Np.matrix) :
  Spec.rectangular f nz nx → Spec.rectangular h nz nx →
  Spec.le_field f h ↔ Spec.below (flatten_F nz nx f) (flatten_F nz nx h).
Proof.
  intros Hf Hh.
  destruct (flatten_F_lookup nz nx f Hf) as [Hlf Hkf], (flatten_F_lookup nz nx h Hh) as [Hlh Hkh].
  split.
  - intros Hle. split; [congruence|]. intros k x y Hx Hy.
    assert (Hk : k < nz * nx) by (rewrite <- Hlf; eapply lookup_lt_Some, Hx).
    destruct (cell_in_grid nz nx k Hk) as [Hi Hj].
    rewrite <- (index_decompose nz k) in Hx, Hy.
    rewrite Hkf in Hx by assumption. rewrite Hkh in Hy by assumption. eauto.
  - intros [_ Hle] i j x y Hx Hy.
    destruct (cell_rectangular nz nx f i j x Hf Hx) as [Hi Hj].
    rewrite <- Hkf in Hx by assumption. rewrite <- Hkh in Hy by assumption. eauto.
Qed.

Lemma flat_graded (c : float) (f : Np.matrix) :
  Spec.rectangular f nz nx →
  Spec.graded_field c f ↔ Spec.graded grid c (flatten_F nz nx f).
Proof.
  intros Hf. destruct (flatten_F_lookup nz nx f Hf) as [Hlf Hkf]. split.
  - intros Hlip k n x y Hin Hx Hy.
    pose proof (edge_adjacent k n Hin) as Hadj.
    destruct (grid_cells nz nx k n Hin) as [Hk Hn].
    destruct (cell_in_grid nz nx k Hk) as [Hi Hj], (cell_in_grid nz nx n Hn) as [Hi' Hj'].
    rewrite <- (index_decompose nz k), Hkf in Hx by assumption.
    rewrite <- (index_decompose nz n), Hkf in Hy by assumption.
    exact (Hlip _ _ x y Hadj Hx Hy).
  - intros Hg [i j] [i' j'] x y Hadj Hx Hy. simpl in Hx, Hy.
    destruct (cell_rectangular nz nx f i j x Hf Hx) as [Hi Hj].
    destruct (cell_rectangular nz nx f i' j' y Hf Hy) as [Hi' Hj'].
    rewrite <- Hkf in Hx, Hy by assumption.
    exact (Hg _ _ x y (adjacent_edge i j i' j' Hi Hj Hi' Hj' Hadj) Hx Hy).
Qed.

(** The kernel on a grid, whatever the order of its passes: it only lowers;
    it stays above every admissible field; and on a field of numbers, with at
    least [nz + nx] passes allowed, it stops at a graded field. *)
Lemma limgrad_run_grid (sweeps : Sweep) (elen grade : float) (imax : nat)
    (h0 : list float) :
  Spec.covers sweeps →
  length h0 = nz * nx →
  Spec.lowered (limgrad_run [nz; nx; 1] elen grade imax h0).1 h0 ∧
  (is_finite (grade * elen) = true →
   ∀ f, Spec.below f h0 → Spec.graded grid (grade * elen) f →
        Spec.below f (limgrad_run [nz; nx; 1] elen grade imax h0).1) ∧
  (Spec.numbers h0 → is_finite (grade * elen) = true →
   (0 <=? grade * elen)%float = true → nz + nx ≤ imax → 0 < imax →
   Spec.graded grid (grade * elen) (limgrad_run [nz; nx; 1] elen grade imax h0).1).
Proof.
  intros Hcov Hlen. unfold limgrad_run.
  change (default 0 ([nz; nx; 1] !! 0)) with nz.
  change (default 0 ([nz; nx; 1] !! 1)) with nx.
  split; [apply iterate_lowered|]. split.
  - intros Hc f Hf Hg. apply iterate_dominated; [assumption..|].
    intros t k n x y Hin. apply Hg. by apply (covers_edges nz nx sweeps t).
  - intros Hnum Hc Hc0 Hi Hpos.
    assert (Hconv : (iterate nz nx (grade * elen) 0 imax h0).2 = true).
    { apply (iterate_converges (grade * elen) grid nz nx (nz * nx)
               ((nz - 1) + (nx - 1)) (Spec.dist nz) h0 Hc Hc0 Hnum Hlen).
      - intros t e. by apply covers_edges.
      - apply grid_cells.
      - apply grid_dist_refl.
      - apply grid_dist_zero.
      - apply grid_dist_step.
      - apply grid_dist_closer.
      - apply grid_dist_diameter.
      - lia. }
    destruct (iterate nz nx (grade * elen) 0 imax h0) as [h' b] eqn:E.
    cbn [fst snd] in *. subst b.
    destruct (iterate_converged (grade * elen) nz nx 0 imax h0 h' Hc Hnum E) as [t Hg].
    intros k n x y Hin Hx Hy. apply (Hg k n x y); [|exact Hx|exact Hy].
    by apply (covers_edges nz nx sweeps t (k, n) Hcov).
Qed.

End Grids.

(** [np.shape] of a matrix with [nz] rows of [nx] values. *)
Lemma rectangular_shape {T} (m : list (list T)) (nz nx : nat) :
  Spec.rectangular m nz nx →
  (nz = 0 ∧ m = []) ∨ (0 < nz ∧ Np.shape m = (nz, nx)).
Proof.
  intros [Hlen Hrows]. destruct m as [|row m].
  - left. by split.
  - right. unfold Np.shape. simpl in *. split; [lia|]. f_equal; [exact Hlen|].
    by apply Forall_cons in Hrows as [? _].
Qed.

Lemma cell_singleton {T} (a x : T) (i j : nat) :
  Np.cell [[a]] i j = Some x → i = 0 ∧ j = 0 ∧ x = a.
Proof.
  destruct i as [|i]; [|destruct i; discriminate].
  destruct j as [|j]; [|destruct j; discriminate].
  intros [= <-]. auto.
Qed.

Lemma rectangular_empty {T} (m : list (list T)) (nx nx' : nat) :
  Spec.rectangular m 0 nx → Spec.rectangular m 0 nx'.
Proof.
  intros [Hlen _]. apply nil_length_inv in Hlen as ->. split; [reflexivity|constructor].
Qed.

(** A matrix whose rows hold no NaN. *)
Lemma no_nan_rows (m : Np.matrix) :
  Forall (Forall (fun x => is_nan x = false)) m → Spec.no_nan m.
Proof.
  intros Hm i j x. unfold Np.cell.
  destruct (m !! i) as [row|] eqn:Hrow; [|discriminate]. cbn.
  intros Hx. eapply Forall_lookup_1 in Hrow; [|exact Hm].
  eapply Forall_lookup_1 in Hx; [|exact Hrow]. exact Hx.
Qed.

(** A graded field meets the bound over the reals, up to the rounding of
    the sum. *)
Lemma graded_field_real (c : float) (f : Np.matrix) :
  is_finite c = true → (0 <=? c)%float = true →
  Spec.graded_field c f → Spec.graded_real c f.
Proof.
  intros Fc Hc Hg a b x y Hadj Hx Hy [Hn _]%andb_true_iff Fy.
  pose proof (Hg a b x y Hadj Hx Hy) as Hle.
  destruct (leb_not_nan _ _ Hle) as [Ny Ns].
  apply leb_F2R in Hle; [|assumption..].
  pose proof (Float64Div.add_error_below x c Hn Fc Hc) as He.
  assert (Hu : (0 < Real64.bpow (-53) < 1)%R).
  { split; [apply Real64Facts.bpow_pos|].
    rewrite <- Real64Facts.bpow_0. apply Real64Facts.bpow_lt. lia. }
  nra.
Qed.

(** [hj] reshapes what the kernel returns for the flattened field. *)
Lemma hj_flat (sweeps : Sweep) (fun_ : Np.matrix) (nz nx : nat) (elen grade : float)
    (imax : nat) :
  Spec.rectangular fun_ nz nx →
  Np.shape fun_ = (nz, nx) →
  length (limgrad [nz; nx; 1] elen grade imax (flatten_F nz nx fun_))
    = length (flatten_F nz nx fun_) →
  ∃ fun_s,
    hj fun_ elen grade imax = Ok fun_s ∧
    Spec.rectangular fun_s nz nx ∧
    flatten_F nz nx fun_s = limgrad [nz; nx; 1] elen grade imax (flatten_F nz nx fun_).
Proof.
  intros Hm Hshape Hlen. unfold hj. rewrite Hshape.
  destruct (flatten_F_lookup nz nx fun_ Hm) as [Hl Hlook].
  set (tmp := limgrad [nz; nx; 1] elen grade imax (flatten_F nz nx fun_)) in *.
  destruct (reshape_F_lookup nz nx tmp) as (fun_s & Hre & Hs & Hcell); [congruence|].
  destruct (flatten_F_lookup nz nx fun_s Hs) as [Hlens Hlooks].
  exists fun_s. split; [exact Hre|]. split; [exact Hs|].
  apply list_eq. intros k.
  destruct (decide (k < nz * nx)) as [Hk|Hk].
  - destruct (cell_in_grid nz nx k Hk) as [Hi Hj].
    rewrite <- (index_decompose nz k).
    rewrite Hlooks, Hcell by assumption. reflexivity.
  - rewrite !lookup_ge_None_2; [reflexivity| |]; lia.
Qed.

(** [hj] on a field whose [np.shape] is [(nz, nx)]. *)
Lemma hj_shaped (sweeps : Sweep) (fun_ : Np.matrix) (nz nx : nat) (elen grade : float)
    (imax : nat) :
  Spec.covers sweeps →
  Spec.rectangular fun_ nz nx →
  Np.shape fun_ = (nz, nx) →
  ∃ fun_s,
    hj fun_ elen grade imax = Ok fun_s ∧
    Spec.rectangular fun_s nz nx ∧
    Spec.lowered_field fun_s fun_ ∧
    (Spec.no_nan fun_ → Spec.le_field fun_s fun_) ∧
    (is_finite (grade * elen) = true →
     ∀ f, Spec.rectangular f nz nx → Spec.le_field f fun_ →
          Spec.graded_field (grade * elen) f → Spec.le_field f fun_s) ∧
    (Spec.no_nan fun_ → is_finite (grade * elen) = true →
     (0 <=? grade * elen)%float = true → nz + nx ≤ imax → 0 < imax →
     Spec.graded_field (grade * elen) fun_s ∧
     Spec.graded_real (grade * elen) fun_s).
Proof.
  intros Hcov Hm Hshape.
  destruct (flatten_F_lookup nz nx fun_ Hm) as [Hlen _].
  destruct (limgrad_run_grid nz nx sweeps elen grade imax _ Hcov Hlen)
    as (Hlow & Hdom & Hgraded).
  destruct (hj_flat sweeps fun_ nz nx elen grade imax Hm Hshape (proj1 Hlow))
    as (fun_s & Hhj & Hs & Hflat).
  unfold limgrad in Hflat.
  exists fun_s. split; [exact Hhj|]. split; [exact Hs|]. split; [|split; [|split]].
  - apply (flat_lowered nz nx); [assumption..|]. by rewrite Hflat.
  - intros Hn. apply (flat_below nz nx); [assumption..|]. rewrite Hflat.
    apply lowered_below; [exact Hlow|]. by apply (flat_numbers nz nx).
  - intros Hc f Hf Hle Hlip. apply (flat_below nz nx); [assumption..|].
    rewrite Hflat. apply Hdom; [exact Hc| |].
    + by apply (flat_below nz nx).
    + by apply (flat_graded nz nx).
  - intros Hn Hc Hc0 Hi Hpos.
    assert (Hg : Spec.graded_field (grade * elen) fun_s).
    { apply (flat_graded nz nx); [assumption|].
      rewrite Hflat. apply Hgraded; try assumption. by apply (flat_numbers nz nx). }
    split; [exact Hg|]. by apply graded_field_real.
Qed.

End WrapperFacts.

Module LimiterClaims.
Import FastHJ gradient_limiter LimiterFacts WrapperFacts.



(** The field the limiter returns for it, with the passes in alternating
    directions and with the four directions in every pass. *)
Lemma hj_example_field :
  hj [[5; 1; 9]; [9; 9; 9]]%float 1 1 (100 * 100)
    = Ok [[2; 1; 2]; [3; 2; 3]]%float ∧
  hj (sweeps := four_directions) [[5; 1; 9]; [9; 9; 9]]%float 1 1 (100 * 100)
    = Ok [[2; 1; 2]; [3; 2; 3]]%float.
Proof. split; vm_compute; reflexivity. Qed.

(** When the passes allowed run out first, the partially limited field is
    returned: after one pass over the column (9, 9, 1) the first two cells
    still differ by 7. *)
Lemma hj_pass_cap :
  hj [[9]; [9]; [1]]%float 1 1 1 = Ok [[9]; [2]; [1]]%float ∧
  hj [[9]; [9]; [1]]%float 1 1 3 = Ok [[3]; [2]; [1]]%float.
Proof. split; vm_compute; reflexivity. Qed.

(** The bound between adjacent cells holds up to the rounding of the sum:
    for the row (0.1, 1) with [g · Δ = 0.2] the limiter returns
    (0.1, 0.30000000000000004), the binary64 sum of 0.1 and 0.2, and the two
    cells differ by more than 0.2. *)
Lemma hj_bound_up_to_rounding :
  let c := 0x1.999999999999ap-3%float in
  let a := 0x1.999999999999ap-4%float in
  hj [[a; 1]]%float 1 c (100 * 100) = Ok [[a; a + c]]%float ∧
  (a + c)%float = 0x1.3333333333334p-2%float ∧
  (c <? (a + c) - a)%float = true.
Proof. repeat split; vm_compute; reflexivity. Qed.


End LimiterClaims.

(** * Further properties of the code *)

(** ** The reader of the velocity model *)

Module ReaderFacts.
Import MeshSizeFunction.

Lemma assign_column_Ok (vp_ : Np.matrix) (index nz_ nx_ : nat) (tr : list float) :
  Spec.rectangular vp_ nz_ nx_ → fits nz_ tr →
  ∃ vp', assign_column vp_ index tr = Ok vp' ∧ Spec.rectangular vp' nz_ nx_ ∧
    ∀ i j, i < nz_ →
      Np.cell vp' i j = if decide (j = index ∧ j < nx_) then sample_for nz_ tr i
                        else Np.cell vp_ i j.
Proof.
  intros [Hl Hr] Hfit. unfold assign_column, sample_for. rewrite Hl.
  destruct (decide (length tr = nz_)) as [Ht|Ht].
  - eexists. split; [reflexivity|]. split.
    + split; [rewrite length_zip_with; lia|].
      apply Forall_lookup. intros i row Hrow.
      apply lookup_zip_with_Some in Hrow as (r & x & -> & Hr' & _).
      rewrite length_insert. eapply Forall_lookup_1 in Hr; eauto.
    + intros i j Hi. unfold Np.cell. rewrite lookup_zip_with.
      destruct (lookup_lt_is_Some_2 vp_ i ltac:(lia)) as [r Hrow].
      destruct (lookup_lt_is_Some_2 tr i ltac:(lia)) as [x Hx].
      rewrite Hrow, Hx. simpl.
      assert (length r = nx_) by (eapply Forall_lookup_1 in Hr; eauto).
      destruct (decide (j = index ∧ j < nx_)) as [[-> ?]|Hn].
      * apply list_lookup_insert_eq. lia.
      * destruct (decide (j = index)) as [->|?].
        -- rewrite !lookup_ge_None_2; [done|lia|rewrite length_insert; lia].
        -- by rewrite list_lookup_insert_ne.
  - destruct Hfit as [?|Hone]; [done|].
    destruct tr as [|x [|? ?]]; try discriminate. 
    eexists. split; [reflexivity|]. split.
    + split; [by rewrite length_fmap|].
      apply Forall_lookup. intros i row Hrow.
      rewrite list_lookup_fmap in Hrow.
      destruct (vp_ !! i) as [r|] eqn:E; simplify_eq/=.
      rewrite length_insert. eapply Forall_lookup_1 in Hr; eauto.
    + intros i j Hi. unfold Np.cell. rewrite list_lookup_fmap.
      destruct (lookup_lt_is_Some_2 vp_ i ltac:(lia)) as [r Hrow].
      rewrite Hrow. simpl.
      assert (length r = nx_) by (eapply Forall_lookup_1 in Hr; eauto).
      destruct (decide (j = index ∧ j < nx_)) as [[-> ?]|Hn].
      * apply list_lookup_insert_eq. lia.
      * destruct (decide (j = index)) as [->|?].
        -- rewrite !lookup_ge_None_2; [done|lia|rewrite length_insert; lia].
        -- by rewrite list_lookup_insert_ne.
Qed.

Lemma assign_column_Raise (vp_ : Np.matrix) (index : nat) (tr : list float) :
  ¬ fits (length vp_) tr →
  assign_column vp_ index tr = Raise (ValueError "could not broadcast input array").
Proof.
  unfold fits, assign_column. intros Hn.
  destruct (decide _) as [?|?]; [tauto|].
  destruct tr as [|x [|? ?]]; try reflexivity. simpl in Hn. tauto.
Qed.

Lemma fill_columns_Ok (traces : list (list float)) :
  ∀ (vp_ : Np.matrix) (index nz_ nx_ : nat),
  Spec.rectangular vp_ nz_ nx_ → Forall (fits nz_) traces →
  index + length traces ≤ nx_ →
  ∃ vp', fill_columns vp_ index traces = Ok vp' ∧ Spec.rectangular vp' nz_ nx_ ∧
    ∀ i j, i < nz_ →
      Np.cell vp' i j =
      if decide (index ≤ j < index + length traces)
      then tr ← traces !! (j - index); sample_for nz_ tr i
      else Np.cell vp_ i j.
Proof.
  induction traces as [|tr traces IH]; intros vp_ index nz_ nx_ Hrect Hfit Hlen.
  - exists vp_. split; [reflexivity|]. split; [assumption|].
    intros i j Hi. simpl. rewrite decide_False by lia. reflexivity.
  - apply Forall_cons in Hfit as [Htr Hfit]. simpl in Hlen.
    destruct (assign_column_Ok vp_ index nz_ nx_ tr Hrect Htr) as (vp1 & E1 & R1 & C1).
    destruct (IH vp1 (S index) nz_ nx_ R1 Hfit ltac:(lia)) as (vp2 & E2 & R2 & C2).
    exists vp2. split; [cbn [fill_columns]; rewrite E1; exact E2|].
    split; [assumption|].
    intros i j Hi. rewrite C2 by assumption. cbn [length].
    destruct (decide (S index ≤ j < S index + length traces)) as [Hj|Hj].
    + rewrite decide_True by lia.
      replace (j - index) with (S (j - S index)) by lia. reflexivity.
    + rewrite C1 by assumption.
      destruct (decide (j = index ∧ j < nx_)) as [[-> ?]|Hn].
      * rewrite decide_True by lia. by rewrite Nat.sub_diag.
      * rewrite decide_False by lia. reflexivity.
Qed.

Lemma fill_columns_Raise (traces : list (list float)) :
  ∀ (vp_ : Np.matrix) (index nz_ nx_ : nat),
  Spec.rectangular vp_ nz_ nx_ → ¬ Forall (fits nz_) traces →
  fill_columns vp_ index traces = Raise (ValueError "could not broadcast input array").
Proof.
  induction traces as [|tr traces IH]; intros vp_ index nz_ nx_ Hrect Hfit.
  - destruct Hfit. constructor.
  - cbn [fill_columns].
    destruct (decide (fits nz_ tr)) as [Htr|Htr].
    + destruct (assign_column_Ok vp_ index nz_ nx_ tr Hrect Htr) as (vp1 & E1 & R1 & _).
      rewrite E1. apply (IH vp1 (S index) nz_ nx_ R1).
      intros Hall. apply Hfit. by constructor.
    + destruct Hrect as [<- _]. by rewrite assign_column_Raise.
Qed.

Lemma zeros_rectangular (nz_ nx_ : nat) : Spec.rectangular (Np.zeros nz_ nx_) nz_ nx_.
Proof.
  split; [apply length_replicate|].
  apply Forall_forall. intros row [-> _]%elem_of_replicate. apply length_replicate.
Qed.

Lemma flipud_rectangular (m : Np.matrix) (nz_ nx_ : nat) :
  Spec.rectangular m nz_ nx_ → Spec.rectangular (Np.flipud m) nz_ nx_.
Proof.
  intros [Hl Hr]. unfold Np.flipud. split; [by rewrite length_reverse|].
  by apply Forall_reverse.
Qed.

Lemma cell_flipud (m : Np.matrix) (i j : nat) :
  i < length m → Np.cell (Np.flipud m) i j = Np.cell m (length m - 1 - i) j.
Proof.
  intros Hi. unfold Np.cell, Np.flipud. rewrite reverse_lookup by assumption.
  by replace (length m - S i) with (length m - 1 - i) by lia.
Qed.

(** How the reader ends, in every case. *)
Lemma ReadVelocityModel_cases (fs : filesystem) (o : obj) :
  match fs (segy o) with
  | Raise e => ReadVelocityModel fs o = Raise e
  | Ok f =>
      let nz_ := length (samples f) in
      let nx_ := length (trace f) in
      if decide (Forall (fits nz_) (trace f)) then
        ∃ vp_, ReadVelocityModel fs o = Ok (vp_, nz_, nx_) ∧
          Spec.rectangular vp_ nz_ nx_ ∧
          ∀ i j, i < nz_ → j < nx_ →
            Np.cell vp_ i j = tr ← trace f !! j; sample_for nz_ tr (nz_ - 1 - i)
      else ReadVelocityModel fs o = Raise (ValueError "could not broadcast input array")
  end.
Proof.
  unfold ReadVelocityModel. destruct (fs (segy o)) as [f|e]; [|reflexivity].
  cbv zeta. destruct (decide _) as [Hfit|Hfit].
  - destruct (fill_columns_Ok (trace f) (Np.zeros (length (samples f)) (length (trace f)))
                0 _ _ (zeros_rectangular _ _) Hfit ltac:(lia)) as (vp1 & E & R & C).
    rewrite E. eexists. split; [reflexivity|].
    split; [by apply flipud_rectangular|].
    intros i j Hi Hj. destruct R as [Rl Rr].
    rewrite cell_flipud by lia. rewrite Rl, C by lia.
    rewrite decide_True by lia. by rewrite Nat.sub_0_r.
  - by rewrite (fill_columns_Raise _ _ 0 _ _ (zeros_rectangular _ _) Hfit).
Qed.

Lemma ReadVelocityModel_Ok_inv (fs : filesystem) (o : obj) (vp_ : Np.matrix)
    (nz_ nx_ : nat) :
  ReadVelocityModel fs o = Ok (vp_, nz_, nx_) →
  ∃ f, fs (segy o) = Ok f ∧
    nz_ = length (samples f) ∧ nx_ = length (trace f) ∧
    Forall (fits nz_) (trace f) ∧ Spec.rectangular vp_ nz_ nx_.
Proof.
  intros Hread. pose proof (ReadVelocityModel_cases fs o) as Hcases.
  destruct (fs (segy o)) as [f|e] eqn:Hfs; [|congruence].
  cbv zeta in Hcases. destruct (decide _) as [Hfit|Hfit]; [|congruence].
  destruct Hcases as (vp' & Hread' & Hrect & _).
  rewrite Hread in Hread'. injection Hread' as -> -> ->. exists f. auto.
Qed.

Lemma ReadVelocityModel_Raise_inv (fs : filesystem) (o : obj) (e : exn) :
  ReadVelocityModel fs o = Raise e →
  fs (segy o) = Raise e ∨
  (∃ f, fs (segy o) = Ok f ∧
     ¬ Forall (fits (length (samples f))) (trace f) ∧
     e = ValueError "could not broadcast input array").
Proof.
  intros Hread. pose proof (ReadVelocityModel_cases fs o) as Hcases.
  destruct (fs (segy o)) as [f|e0] eqn:Hfs.
  - cbv zeta in Hcases. destruct (decide _) as [Hfit|Hfit].
    + destruct Hcases as (vp' & Hread' & _). congruence.
    + right. exists f. split; [reflexivity|]. split; [exact Hfit|]. congruence.
  - left. congruence.
Qed.

End ReaderFacts.

(** ** Grids, shapes and the ways [build] ends *)

Module ShapeFacts.
Import MeshSizeFunction.

Lemma length_linspace (start stop : float) (num : nat) :
  length (Np.linspace start stop num) = num.
Proof.
  unfold Np.linspace.
  repeat match goal with |- context [decide ?P] => destruct (decide P) end;
    repeat match goal with |- context [(?a =? ?b)%float] => destruct (a =? b)%float end;
    rewrite ?length_insert, !length_fmap, length_seq; reflexivity.
Qed.

(** With two points or more the last one is [stop] itself, not a rounded sum. *)
Lemma last_linspace (start stop : float) (num : nat) :
  2 ≤ num → last (Np.linspace start stop num) = Some stop.
Proof.
  intros Hnum. rewrite last_lookup, length_linspace.
  unfold Np.linspace. rewrite (decide_True (P := 1 < num)) by lia.
  replace (Nat.pred num) with (num - 1) by lia.
  apply list_lookup_insert_eq.
  repeat match goal with |- context [decide ?P] => destruct (decide P) end;
    repeat match goal with |- context [(?a =? ?b)%float] => destruct (a =? b)%float end;
    rewrite !length_fmap, length_seq; lia.
Qed.

(** [max]: an element of the sequence that no element exceeds. *)
Lemma py_max_spec (l : list float) (w : float) :
  py_max l = Ok w → w ∈ l ∧ ∀ y, y ∈ l → (w <? y)%float = false.
Proof.
  destruct l as [|x xs]; [discriminate|]. cbn [py_max]. intros [= <-].
  assert (G : ∀ seen m, m ∈ seen → (∀ y, y ∈ seen → (m <? y)%float = false) →
            let w := foldl (fun m y => if (m <? y)%float then y else m) m xs in
            w ∈ seen ++ xs ∧ ∀ y, y ∈ seen ++ xs → (w <? y)%float = false).
  { induction xs as [|y ys IH]; intros seen m Hin Hmax.
    - simpl. rewrite app_nil_r. auto.
    - cbn [foldl]. specialize (IH (seen ++ [y])). rewrite <- app_assoc in IH.
      cbn [app] in IH. apply IH.
      + apply elem_of_app. destruct (m <? y)%float;
          [right; by apply list_elem_of_singleton|by left].
      + intros z [Hz| ->%list_elem_of_singleton]%elem_of_app.
        * destruct (m <? y)%float eqn:E; [|auto].
          destruct (y <? z)%float eqn:E'; [|reflexivity].
          rewrite <- (Hmax z Hz). symmetry. by apply (F64.ltb_trans m y z).
        * destruct (m <? y)%float eqn:E; [apply F64.ltb_irrefl|exact E]. }
  apply (G [x] x); [by apply list_elem_of_singleton|].
  intros y ->%list_elem_of_singleton. apply F64.ltb_irrefl.
Qed.

Lemma py_min_spec (l : list float) (w : float) :
  py_min l = Ok w → w ∈ l ∧ ∀ y, y ∈ l → (y <? w)%float = false.
Proof.
  destruct l as [|x xs]; [discriminate|]. cbn [py_min]. intros [= <-].
  assert (G : ∀ seen m, m ∈ seen → (∀ y, y ∈ seen → (y <? m)%float = false) →
            let w := foldl (fun m y => if (y <? m)%float then y else m) m xs in
            w ∈ seen ++ xs ∧ ∀ y, y ∈ seen ++ xs → (y <? w)%float = false).
  { induction xs as [|y ys IH]; intros seen m Hin Hmin.
    - simpl. rewrite app_nil_r. auto.
    - cbn [foldl]. specialize (IH (seen ++ [y])). rewrite <- app_assoc in IH.
      cbn [app] in IH. apply IH.
      + apply elem_of_app. destruct (y <? m)%float;
          [right; by apply list_elem_of_singleton|by left].
      + intros z [Hz| ->%list_elem_of_singleton]%elem_of_app.
        * destruct (y <? m)%float eqn:E; [|auto].
          destruct (z <? y)%float eqn:E'; [|reflexivity].
          rewrite <- (Hmin z Hz). symmetry. by apply (F64.ltb_trans z y m).
        * destruct (y <? m)%float eqn:E; [apply F64.ltb_irrefl|exact E]. }
  apply (G [x] x); [by apply list_elem_of_singleton|].
  intros y ->%list_elem_of_singleton. apply F64.ltb_irrefl.
Qed.

Section Rows.
Context {A B C : Type}.

Lemma rectangular_fmap (f : A → B) (m : list (list A)) (n k : nat) :
  Spec.rectangular m n k → Spec.rectangular (fmap (M:=list) (fmap (M:=list) f) m) n k.
Proof.
  intros [Hl Hr]. split; [by rewrite length_fmap|].
  apply Forall_fmap. eapply Forall_impl; [exact Hr|].
  intros row Hrow. simpl. by rewrite length_fmap.
Qed.

Lemma rectangular_zip_with (g : list A → list B → list C)
    (a : list (list A)) (b : list (list B)) (n k : nat) :
  (∀ r1 r2, length r1 = k → length r2 = k → length (g r1 r2) = k) →
  Spec.rectangular a n k → Spec.rectangular b n k →
  Spec.rectangular (zip_with g a b) n k.
Proof.
  intros Hg [Hl Hr] [Hl' Hr']. split; [rewrite length_zip_with; lia|].
  apply Forall_lookup. intros i row Hrow.
  apply lookup_zip_with_Some in Hrow as (r1 & r2 & -> & H1 & H2).
  apply Hg.
  - eapply Forall_lookup_1 in Hr; eauto.
  - eapply Forall_lookup_1 in Hr'; eauto.
Qed.

End Rows.

Lemma length_zip_with_same {A B C} (f : A → B → C) (r1 : list A) (r2 : list B) (k : nat) :
  length r1 = k → length r2 = k → length (zip_with f r1 r2) = k.
Proof. intros. rewrite length_zip_with. lia. Qed.

Lemma rectangular_replicate {A} (x : A) (n k : nat) :
  Spec.rectangular (replicate n (replicate k x)) n k.
Proof.
  split; [apply length_replicate|].
  apply Forall_forall. intros row [-> _]%elem_of_replicate. apply length_replicate.
Qed.

Lemma sizes_rectangular (_hmin _wl _freq _hmax : float) (_vp : Np.matrix) (n k : nat) :
  Spec.rectangular _vp n k →
  Spec.rectangular (sizes _hmin _wl _freq _hmax _vp n k) n k.
Proof.
  intros Hvp. unfold sizes.
  set (h0 := if (0 <? _wl)%float then _ else _).
  assert (H0 : Spec.rectangular h0 n k).
  { subst h0. destruct (0 <? _wl)%float.
    - by apply rectangular_fmap.
    - apply rectangular_fmap, rectangular_replicate. }
  assert (H1 : Spec.rectangular (Np.where_scalar (Np.lt_scalar h0 _hmin) _hmin h0) n k).
  { apply rectangular_zip_with; [intros; by apply length_zip_with_same| |assumption].
    by apply rectangular_fmap. }
  destruct (_hmax <? Np.inf)%float; [|assumption].
  apply rectangular_zip_with; [intros; by apply length_zip_with_same| |assumption].
  by apply rectangular_fmap.
Qed.

Lemma cfl_rectangular (_dt _cr_max : float) (_vp hh_m : Np.matrix) (n k : nat) :
  Spec.rectangular _vp n k → Spec.rectangular hh_m n k →
  Spec.rectangular (cfl _dt _cr_max _vp hh_m) n k.
Proof.
  intros Hvp Hh. unfold cfl. destruct (0 <? _dt)%float; [|assumption].
  unfold Np.where_.
  apply rectangular_zip_with; [intros; by apply length_zip_with_same| |].
  - apply rectangular_fmap. unfold Np.div.
    apply rectangular_zip_with; [intros; by apply length_zip_with_same| |assumption].
    by apply rectangular_fmap.
  - apply rectangular_zip_with; [|by do 2 apply rectangular_fmap|assumption].
    intros r1 r2 H1 H2. rewrite length_zip. lia.
Qed.

Lemma field_rectangular (o : obj) (_vp : Np.matrix) (n k : nat) :
  Spec.rectangular _vp n k → Spec.rectangular (field o _vp n k) n k.
Proof.
  intros Hvp. unfold field. apply cfl_rectangular; [assumption|].
  by apply sizes_rectangular.
Qed.

(** Without a wavelength criterion, a CFL limit or a maximum below the
    minimum, the field is [hmin] everywhere, whatever the velocities. *)
Lemma field_uniform (o : obj) (_vp : Np.matrix) (n k : nat) :
  (0 <? hmin o)%float = true →
  (0 <? wl o)%float = false → (0 <? dt o)%float = false →
  (hmax o <? hmin o)%float = false →
  field o _vp n k = replicate n (replicate k (hmin o)).
Proof.
  intros Hmin Hwl Hdt Hmax. unfold field, cfl, sizes. rewrite Hwl, Hdt.
  unfold Np.zeros, Np.add_scalar, Np.where_scalar, Np.lt_scalar, Np.gt_scalar.
  rewrite !NpFacts.fmap_uniform, F64.add_zero_pos by assumption.
  rewrite F64.ltb_irrefl, NpFacts.zip_with_uniform.
  destruct (hmax o <? Np.inf)%float; [|reflexivity].
  rewrite NpFacts.fmap_uniform, Hmax, NpFacts.zip_with_uniform. reflexivity.
Qed.

(** The three ways [build] ends before the velocity model is loaded. *)
Lemma build_missing (fs : filesystem) (self : loc) (σ : store) :
  σ !! self = None → build fs self σ = (Raise (TypeError "no such object"), σ).
Proof. intros Hσ. unfold build, mbind, M_bind, read. by rewrite Hσ. Qed.

Lemma build_empty_bbox (fs : filesystem) (self : loc) (σ : store) (o : obj) :
  σ !! self = Some o → bbox o = [] →
  build fs self σ = (Raise (ValueError "max() arg is an empty sequence"), σ).
Proof.
  intros Hσ Hb. unfold build, mbind, M_bind, read, lift. by rewrite Hσ, Hb.
Qed.

Lemma build_unreadable (fs : filesystem) (self : loc) (σ : store) (o : obj) (e : exn) :
  σ !! self = Some o → bbox o ≠ [] → ReadVelocityModel fs o = Raise e →
  build fs self σ = (Raise e, σ).
Proof.
  intros Hσ Hb Hread.
  assert (∃ width, py_max (bbox o) = Ok width) as [width Hw]
    by (destruct (bbox o); [congruence|apply BuildFacts.py_max_cons]).
  unfold build, mbind, M_bind, read, lift.
  by rewrite Hσ, Hw, BuildFacts.getattr_ReadVelocityModel, Hread.
Qed.

Lemma well_formed_bbox (o : obj) : well_formed o → bbox o ≠ [].
Proof. intros [[Hb _] _] E. rewrite E in Hb. simpl in Hb. lia. Qed.

Lemma loaded_configuration (o : obj) (_vp : Np.matrix) (n k : nat) :
  same_configuration o (loaded o _vp n k) ∧
  fh (loaded o _vp n k) = fh o ∧ fd (loaded o _vp n k) = fd o.
Proof. unfold same_configuration. repeat split; reflexivity. Qed.

Lemma built_configuration (self : loc) (o : obj) (_vp : Np.matrix) (n k : nat)
    (z x : list float) (h : Np.matrix) :
  same_configuration o (built self o _vp n k z x h).
Proof. unfold same_configuration. repeat split; reflexivity. Qed.

(** Every run of [build] leaves the store as it was, or replaces the
    receiver by a state with the same configuration; when it raises, with the
    same [fh] and [fd] as well. *)
Lemma build_store (fs : filesystem) (self : loc) (σ : store) :
  (build fs self σ).2 = σ ∨
  ∃ o o', σ !! self = Some o ∧ (build fs self σ).2 = <[self := o']> σ ∧
    same_configuration o o' ∧
    (∀ e, (build fs self σ).1 = Raise e → fh o' = fh o ∧ fd o' = fd o).
Proof.
  destruct (σ !! self) as [o|] eqn:Hσ; [|left; by rewrite build_missing].
  destruct (decide (bbox o = [])) as [Hb|Hb];
    [left; by rewrite (build_empty_bbox fs self σ o)|].
  destruct (ReadVelocityModel fs o) as [[[_vp n] k]|e] eqn:Hread;
    [|left; by rewrite (build_unreadable fs self σ o e)].
  destruct (BuildFacts.build_loaded fs self σ o _vp n k Hσ Hb Hread)
    as (width & z & x & _ & _ & Heq).
  right. exists o. rewrite Heq.
  destruct (gradation _ _ _ _) as [hh|e].
  - cbv zeta. destruct (Np.all _).
    + eexists. split; [reflexivity|]. split; [reflexivity|].
      split; [apply built_configuration|]. intros e [=].
    + eexists. split; [reflexivity|]. split; [reflexivity|].
      split; [apply loaded_configuration|]. intros _ _. split; reflexivity.
  - eexists. split; [reflexivity|]. split; [reflexivity|].
    split; [apply loaded_configuration|]. intros _ _. split; reflexivity.
Qed.

End ShapeFacts.

(** ** What the reader guarantees *)

Module ReaderProperties.
Import MeshSizeFunction ReaderFacts.

(** X1.  When the file exists and every trace has one value per sample, the
    reader returns an array of [len(samples)] rows and [len(trace)] columns
    whose column [j] is trace [j] upside down: row [i] holds sample
    [nz - 1 - i] of that trace. *)
Theorem ReadVelocityModel_cells (fs : filesystem) (o : obj) (f : segy_file) :
  fs (segy o) = Ok f →
  Forall (fun tr => length tr = length (samples f)) (trace f) →
  ∃ vp_,
    ReadVelocityModel fs o = Ok (vp_, length (samples f), length (trace f)) ∧
    Spec.rectangular vp_ (length (samples f)) (length (trace f)) ∧
    ∀ i j, i < length (samples f) → j < length (trace f) →
      Np.cell vp_ i j = Np.cell (trace f) j (length (samples f) - 1 - i).
Proof.
  intros Hfs Hlen. pose proof (ReadVelocityModel_cases fs o) as Hcases.
  rewrite Hfs in Hcases. cbv zeta in Hcases.
  rewrite decide_True in Hcases
    by (eapply Forall_impl; [exact Hlen|]; intros tr Htr; by left).
  destruct Hcases as (vp_ & Hread & Hrect & Hcell).
  exists vp_. split; [exact Hread|]. split; [exact Hrect|].
  intros i j Hi Hj. rewrite Hcell by assumption. unfold Np.cell.
  destruct (trace f !! j) as [tr|] eqn:Htr; [|reflexivity]. simpl.
  unfold sample_for. rewrite decide_True; [reflexivity|].
  eapply Forall_lookup_1 in Hlen; eauto.
Qed.

Lemma ReadVelocityModel_cells_example :
  let f := {| samples := [0%float; 1%float];
              trace := [[1%float; 2%float]; [3%float; 4%float]; [5%float; 6%float]] |} in
  ∃ vp_,
    ReadVelocityModel (Examples.one_file "testing.segy" f)
      (Examples.instance 100 defaults) = Ok (vp_, 2, 3) ∧
    Spec.rectangular vp_ 2 3 ∧
    ∀ i j, i < 2 → j < 3 → Np.cell vp_ i j = Np.cell (trace f) j (2 - 1 - i).
Proof.
  intros f.
  apply (ReadVelocityModel_cells (Examples.one_file "testing.segy" f)
           (Examples.instance 100 defaults) f); [reflexivity|].
  repeat constructor.
Defined.

(** X2.  The reader returns exactly when [segyio] reads the file and every
    trace has one value per sample or a single value; the array it returns
    is rectangular, [len(samples)] by [len(trace)].  Otherwise it raises
    what [segyio] raised, or [ValueError] for a trace of another length. *)
Theorem ReadVelocityModel_outcome (fs : filesystem) (o : obj) :
  match ReadVelocityModel fs o with
  | Ok (vp_, nz_, nx_) =>
      ∃ f, fs (segy o) = Ok f ∧
        nz_ = length (samples f) ∧ nx_ = length (trace f) ∧
        Forall (fits nz_) (trace f) ∧ Spec.rectangular vp_ nz_ nx_
  | Raise e =>
      fs (segy o) = Raise e ∨
      (∃ f, fs (segy o) = Ok f ∧
         ¬ Forall (fits (length (samples f))) (trace f) ∧
         e = ValueError "could not broadcast input array")
  end.
Proof.
  destruct (ReadVelocityModel fs o) as [[[vp_ nz_] nx_]|e] eqn:Hread.
  - by apply ReadVelocityModel_Ok_inv.
  - by apply ReadVelocityModel_Raise_inv.
Qed.

End ReaderProperties.

(** ** What [build] guarantees *)

Module BuildProperties.
Import MeshSizeFunction ReaderFacts ShapeFacts.

Lemma CreateDomainVectors_Ok (o : obj) (zvec xvec : list float) :
  CreateDomainVectors o = Ok (zvec, xvec) →
  ∃ n k w d, nz o = Some n ∧ nx o = Some k ∧
    py_max (bbox o) = Ok w ∧ py_min (bbox o) = Ok d ∧
    zvec = Np.linspace d 0 n ∧ xvec = Np.linspace 0 w k.
Proof.
  unfold CreateDomainVectors.
  destruct (nx o) as [k|], (nz o) as [n|]; try discriminate.
  destruct (py_max (bbox o)) as [w|]; [|discriminate].
  destruct (py_min (bbox o)) as [d|]; [|discriminate].
  intros [= <- <-]. exists n, k, w, d. auto 10.
Qed.

(** When [build] returns: what it read, and the grid vectors it computed. *)
Lemma build_Ok_grid (fs : filesystem) (self l : loc) (σ σ' : store) :
  build fs self σ = (Ok l, σ') →
  ∃ o _vp n k z x,
    σ !! self = Some o ∧ bbox o ≠ [] ∧
    ReadVelocityModel fs o = Ok (_vp, n, k) ∧
    CreateDomainVectors (loaded o _vp n k) = Ok (z, x) ∧
    (0 <? grade o)%float = false ∧
    Np.all (Np.gt_scalar (field o _vp n k) 0) = true ∧
    l = self ∧
    σ' = <[self := built self o _vp n k z x (field o _vp n k)]> σ.
Proof.
  intros Hbuild.
  destruct (σ !! self) as [o|] eqn:Hσ;
    [|by rewrite build_missing in Hbuild].
  destruct (decide (bbox o = [])) as [Hb|Hb];
    [by rewrite (build_empty_bbox fs self σ o) in Hbuild|].
  destruct (ReadVelocityModel fs o) as [[[_vp n] k]|e] eqn:Hread;
    [|by rewrite (build_unreadable fs self σ o e) in Hbuild].
  destruct (BuildFacts.build_loaded fs self σ o _vp n k Hσ Hb Hread)
    as (width & z & x & _ & HC & Heq).
  rewrite Heq, BuildFacts.gradation_grade in Hbuild.
  destruct (0 <? grade o)%float eqn:Hg; [discriminate|].
  fold (field o _vp n k) in Hbuild. cbv zeta in Hbuild.
  destruct (Np.all _) eqn:Hall; [|discriminate].
  injection Hbuild as <- <-.
  exists o, _vp, n, k, z, x. auto 10.
Qed.

(** X3.  A [build] that raises leaves every other instance as it was, and
    the receiver with the configuration, the [fh] and the [fd] it had: no
    half-built interpolant is ever installed.  When it is the reader that
    raised, the store is unchanged altogether. *)
Theorem build_failure_keeps (fs : filesystem) (self : loc) (σ σ' : store) (e : exn) :
  build fs self σ = (Raise e, σ') →
  (∀ l, l ≠ self → σ' !! l = σ !! l) ∧
  (∀ o', σ' !! self = Some o' →
     ∃ o, σ !! self = Some o ∧ same_configuration o o' ∧
          fh o' = fh o ∧ fd o' = fd o) ∧
  (∀ o e0, σ !! self = Some o → ReadVelocityModel fs o = Raise e0 → σ' = σ).
Proof.
  intros Hbuild. pose proof (build_store fs self σ) as Hstore.
  rewrite Hbuild in Hstore. cbn [fst snd] in Hstore. split; [|split].
  - intros l Hl. destruct Hstore as [->|(o & o' & _ & -> & _)]; [reflexivity|].
    by rewrite lookup_insert_ne.
  - intros o' Ho'. destruct Hstore as [->|(o & o1 & Hσ & -> & Hcfg & Hkeep)].
    + exists o'. unfold same_configuration. auto 15.
    + rewrite lookup_insert_eq in Ho'. injection Ho' as <-.
      exists o. split; [exact Hσ|]. split; [exact Hcfg|]. by apply (Hkeep e).
  - intros o e0 Hσ Hread.
    destruct (decide (bbox o = [])) as [Hb|Hb].
    + rewrite (build_empty_bbox fs self σ o) in Hbuild by assumption. congruence.
    + rewrite (build_unreadable fs self σ o e0) in Hbuild by assumption. congruence.
Qed.

Lemma build_failure_keeps_example :
  let σ := Examples.store0 100 Examples.example_kwargs in
  ∃ σ' e, build Examples.testing_segy 1%positive σ = (Raise e, σ') ∧
  (∀ l, l ≠ 1%positive → σ' !! l = σ !! l) ∧
  (∀ o', σ' !! 1%positive = Some o' →
     ∃ o, σ !! 1%positive = Some o ∧ same_configuration o o' ∧
          fh o' = fh o ∧ fd o' = fd o) ∧
  (∀ o e0, σ !! 1%positive = Some o →
     ReadVelocityModel Examples.testing_segy o = Raise e0 → σ' = σ).
Proof.
  intros σ.
  destruct (build Examples.testing_segy 1%positive σ) as [[l|e] σ'] eqn:Hbuild;
    [vm_compute in Hbuild; discriminate|].
  exists σ', e. split; [reflexivity|].
  exact (build_failure_keeps Examples.testing_segy 1%positive σ σ' e Hbuild).
Defined.

(** X4.  On an instance as the constructor and the setters leave it, what
    [build] raises is one of: the exception [segyio] raised; a
    [ValueError]; the [AttributeError] for [__hj] (only with a positive
    [grade]); the [AssertionError] of the positivity check (only without a
    positive [grade]).  In particular its own arithmetic raises no
    [ZeroDivisionError] and no [TypeError]. *)
Theorem build_raises_only (fs : filesystem) (self : loc) (σ σ' : store) (o : obj)
    (e : exn) :
  σ !! self = Some o → well_formed o →
  build fs self σ = (Raise e, σ') →
  fs (segy o) = Raise e ∨
  (∃ msg, e = ValueError msg) ∨
  (e = AttributeError "_MeshSizeFunction__hj" ∧ (0 <? grade o)%float = true) ∨
  (e = AssertionError "edge_size_function must be strictly positive." ∧
   (0 <? grade o)%float = false).
Proof.
  intros Hσ Hwf Hbuild. pose proof (well_formed_bbox o Hwf) as Hb.
  destruct (ReadVelocityModel fs o) as [[[_vp n] k]|e0] eqn:Hread.
  - destruct (BuildFacts.build_loaded fs self σ o _vp n k Hσ Hb Hread)
      as (width & z & x & _ & _ & Heq).
    rewrite Heq, BuildFacts.gradation_grade in Hbuild.
    destruct (0 <? grade o)%float eqn:Hg.
    + injection Hbuild as <- _. auto.
    + cbv zeta in Hbuild. destruct (Np.all _); [discriminate|].
      injection Hbuild as <- _. auto 6.
  - rewrite (build_unreadable fs self σ o e0) in Hbuild by assumption.
    injection Hbuild as <- _.
    destruct (ReadVelocityModel_Raise_inv fs o e0 Hread)
      as [Hfs|(f & Hfs & Hfit & ->)]; eauto 6.
Qed.

Lemma build_raises_only_example :
  let o := Examples.instance 100 defaults in
  let e := IndexError "trace 0 not in range" in
  let fs : filesystem := fun _ => Raise e in
  fs (segy o) = Raise e ∨
  (∃ msg, e = ValueError msg) ∨
  (e = AttributeError "_MeshSizeFunction__hj" ∧ (0 <? grade o)%float = true) ∨
  (e = AssertionError "edge_size_function must be strictly positive." ∧
   (0 <? grade o)%float = false).
Proof.
  intros o e fs.
  apply (build_raises_only fs 1%positive (Examples.store0 100 defaults)
           (Examples.store0 100 defaults) o e).
  - reflexivity.
  - split; [simpl; lia|reflexivity].
  - vm_compute. reflexivity.
Defined.

(** X5.  When [build] returns, what it leaves on the instance is
    consistent: [vp] is an array of [nz] rows and [nx] columns, the field of
    the interpolant has the same shape, and its two grid vectors have [nz]
    and [nx] points. *)
Theorem build_shapes (fs : filesystem) (self l : loc) (σ σ' : store) :
  build fs self σ = (Ok l, σ') →
  ∃ o' v n k itp,
    σ' !! l = Some o' ∧
    vp o' = Some v ∧ nz o' = Some n ∧ nx o' = Some k ∧ fh o' = Some itp ∧
    Spec.rectangular v n k ∧ Spec.rectangular (values itp) n k ∧
    length (points_z itp) = n ∧ length (points_x itp) = k.
Proof.
  intros Hbuild.
  destruct (build_Ok_grid fs self l σ σ' Hbuild)
    as (o & _vp & n & k & z & x & Hσ & Hb & Hread & HC & _ & _ & -> & ->).
  destruct (ReadVelocityModel_Ok_inv fs o _vp n k Hread) as (f & _ & _ & _ & _ & Hrect).
  apply CreateDomainVectors_Ok in HC
    as (n' & k' & w & d & [= <-] & [= <-] & _ & _ & -> & ->).
  eexists _, _vp, n, k, _. split; [apply lookup_insert_eq|].
  do 4 (split; [reflexivity|]). split; [exact Hrect|].
  split; [by apply field_rectangular|].
  cbn [points_z points_x]. by rewrite !length_linspace.
Qed.

Lemma build_shapes_example :
  ∃ o' v n k itp,
    (Examples.construct_and_build 100 defaults).2 !! 1%positive = Some o' ∧
    vp o' = Some v ∧ nz o' = Some n ∧ nx o' = Some k ∧ fh o' = Some itp ∧
    Spec.rectangular v n k ∧ Spec.rectangular (values itp) n k ∧
    length (points_z itp) = n ∧ length (points_x itp) = k.
Proof.
  apply (build_shapes Examples.testing_segy 1%positive 1%positive
           (Examples.store0 100 defaults)).
  vm_compute. reflexivity.
Defined.

(** X6.  With no wavelength criterion ([wl <= 0]), no time step ([dt <= 0]),
    no gradation ([grade <= 0]) and a maximum size not below the minimum,
    the velocities play no part: for every velocity model that can be read
    the positivity check passes, and whenever [build] returns, the field of
    the interpolant is [hmin] in every cell of the [nz] by [nx] grid. *)
Theorem build_without_criteria (fs : filesystem) (self : loc) (σ : store) (o : obj)
    (_vp : Np.matrix) (n k : nat) :
  σ !! self = Some o → well_formed o →
  (0 <? wl o)%float = false → (0 <? dt o)%float = false →
  (0 <? grade o)%float = false → (hmax o <? hmin o)%float = false →
  ReadVelocityModel fs o = Ok (_vp, n, k) →
  (∀ msg σ', build fs self σ ≠ (Raise (AssertionError msg), σ')) ∧
  (∀ l σ', build fs self σ = (Ok l, σ') →
     l = self ∧ field_at l σ' = Some (replicate n (replicate k (hmin o)))).
Proof.
  intros Hσ Hwf Hwl Hdt Hg Hmax Hread.
  pose proof (well_formed_bbox o Hwf) as Hb. destruct Hwf as [_ Hmin].
  destruct (BuildFacts.build_loaded fs self σ o _vp n k Hσ Hb Hread)
    as (width & z & x & _ & _ & Heq).
  rewrite BuildFacts.gradation_grade, Hg in Heq. cbv zeta in Heq.
  fold (field o _vp n k) in Heq.
  rewrite (field_uniform o _vp n k Hmin Hwl Hdt Hmax) in Heq.
  unfold Np.gt_scalar in Heq.
  rewrite NpFacts.fmap_uniform, Hmin, NpFacts.all_uniform in Heq.
  rewrite Heq. split; [intros msg σ'; discriminate|].
  intros l σ' [= <- <-]. split; [reflexivity|].
  unfold field_at. rewrite lookup_insert_eq. reflexivity.
Qed.

Lemma build_without_criteria_example :
  let f := {| samples := [0%float; 1%float];
              trace := [[1500%float; 2500%float]; [3000%float; 4500%float]] |} in
  let fs := Examples.one_file "testing.segy" f in
  (∀ msg σ', build fs 1%positive (Examples.store0 100 defaults)
             ≠ (Raise (AssertionError msg), σ')) ∧
  (build fs 1%positive (Examples.store0 100 defaults)).1 = Ok 1%positive ∧
  field_at 1%positive (build fs 1%positive (Examples.store0 100 defaults)).2
  = Some (replicate 2 (replicate 2 100%float)).
Proof.
  intros f fs.
  destruct (build_without_criteria fs 1%positive
              (Examples.store0 100 defaults) (Examples.instance 100 defaults)
              [[2500%float; 4500%float]; [1500%float; 3000%float]] 2 2)
    as [Hassert Hfield]; try reflexivity.
  { split; [simpl; lia|reflexivity]. }
  split; [exact Hassert|]. split; [vm_compute; reflexivity|].
  apply (Hfield 1%positive). vm_compute. reflexivity.
Defined.

(** X7.  The grid vectors: [zvec] has [nz] points and [xvec] has [nx]; with
    two points or more, [zvec] ends at exactly 0 and [xvec] at exactly
    [max(bbox)], an entry of the bounding box that no entry exceeds
    (whichever of the four or more entries that is). *)
Theorem CreateDomainVectors_axes (o : obj) (zvec xvec : list float) :
  CreateDomainVectors o = Ok (zvec, xvec) →
  ∃ n k w,
    nz o = Some n ∧ nx o = Some k ∧ length zvec = n ∧ length xvec = k ∧
    w ∈ bbox o ∧ (∀ y, y ∈ bbox o → (w <? y)%float = false) ∧
    (2 ≤ n → last zvec = Some 0%float) ∧ (2 ≤ k → last xvec = Some w).
Proof.
  intros (n & k & w & d & Hn & Hk & Hw & _ & -> & ->)%CreateDomainVectors_Ok.
  apply py_max_spec in Hw as [Hin Hmax].
  exists n, k, w. rewrite !length_linspace.
  do 6 (split; [done|]). split; intros ?; by apply last_linspace.
Qed.

Lemma CreateDomainVectors_axes_example :
  let o := loaded (Examples.instance 100 defaults) [] 3 2 in
  ∃ n k w,
    nz o = Some n ∧ nx o = Some k ∧
    length (Np.linspace (-1000) 0 3) = n ∧ length (Np.linspace 0 1000 2) = k ∧
    w ∈ bbox o ∧ (∀ y, y ∈ bbox o → (w <? y)%float = false) ∧
    (2 ≤ n → last (Np.linspace (-1000) 0 3) = Some 0%float) ∧
    (2 ≤ k → last (Np.linspace 0 1000 2) = Some w).
Proof.
  intros o. apply (CreateDomainVectors_axes o). reflexivity.
Defined.

(** X8.  After a [build] that returned, [GetDomainMatrices] returns (without
    changing anything) the two coordinate matrices of the very grid the
    interpolant is defined on: [zg[i][j]] is the [i]-th point of its depth
    axis and [xg[i][j]] the [j]-th point of its horizontal axis. *)
Theorem GetDomainMatrices_of_build (fs : filesystem) (self l : loc) (σ σ' : store) :
  build fs self σ = (Ok l, σ') →
  ∃ o' itp zg xg,
    σ' !! l = Some o' ∧ fh o' = Some itp ∧
    GetDomainMatrices l σ' = (Ok (zg, xg), σ') ∧
    ∀ i j z x, points_z itp !! i = Some z → points_x itp !! j = Some x →
      Np.cell zg i j = Some z ∧ Np.cell xg i j = Some x.
Proof.
  intros Hbuild.
  destruct (build_Ok_grid fs self l σ σ' Hbuild)
    as (o & _vp & n & k & z & x & Hσ & Hb & Hread & HC & _ & _ & -> & ->).
  eexists _, _, _, _. split; [apply lookup_insert_eq|]. split; [reflexivity|].
  split.
  - unfold GetDomainMatrices, mbind, M_bind, read, lift.
    rewrite lookup_insert_eq. cbn [result_bind].
    unfold CreateDomainMatrices.
    change (CreateDomainVectors (built self o _vp n k z x (field o _vp n k)))
      with (CreateDomainVectors (loaded o _vp n k)).
    rewrite HC. reflexivity.
  - cbn [points_z points_x]. intros i j zi xj Hz Hx.
    unfold Np.meshgrid_ij, Np.cell. rewrite !list_lookup_fmap, Hz. simpl.
    rewrite list_lookup_fmap, Hx. auto.
Qed.

Lemma GetDomainMatrices_of_build_example :
  ∃ o' itp zg xg,
    (Examples.construct_and_build 100 defaults).2 !! 1%positive = Some o' ∧
    fh o' = Some itp ∧
    GetDomainMatrices 1%positive (Examples.construct_and_build 100 defaults).2
    = (Ok (zg, xg), (Examples.construct_and_build 100 defaults).2) ∧
    ∀ i j z x, points_z itp !! i = Some z → points_x itp !! j = Some x →
      Np.cell zg i j = Some z ∧ Np.cell xg i j = Some x.
Proof.
  apply (GetDomainMatrices_of_build Examples.testing_segy 1%positive 1%positive
           (Examples.store0 100 defaults)).
  vm_compute. reflexivity.
Defined.

(** X9.  [build] is idempotent: calling it again on the instance it
    returned, over the same files, returns again and changes nothing. *)
Theorem build_again (fs : filesystem) (self l : loc) (σ σ' : store) :
  build fs self σ = (Ok l, σ') → build fs l σ' = (Ok l, σ').
Proof.
  intros Hbuild.
  destruct (build_Ok_grid fs self l σ σ' Hbuild)
    as (o & _vp & n & k & z & x & Hσ & Hb & Hread & HC & Hg & Hall & -> & ->).
  set (o' := built self o _vp n k z x (field o _vp n k)).
  destruct (BuildFacts.build_loaded fs self (<[self := o']> σ) o' _vp n k
              (lookup_insert_eq σ self o') Hb Hread)
    as (width & z' & x' & _ & HC' & Heq).
  change (CreateDomainVectors (loaded o' _vp n k))
    with (CreateDomainVectors (loaded o _vp n k)) in HC'.
  rewrite HC in HC'. injection HC' as <- <-.
  rewrite Heq, BuildFacts.gradation_grade.
  change (grade o') with (grade o). rewrite Hg. cbv zeta.
  change (cfl (dt o') (cr_max o') _vp
            (sizes (hmin o') (wl o') (freq o') (hmax o') _vp n k))
    with (field o _vp n k).
  rewrite Hall, insert_insert_eq. reflexivity.
Qed.

Lemma build_again_example :
  build Examples.testing_segy 1%positive (Examples.construct_and_build 100 defaults).2
  = (Ok 1%positive, (Examples.construct_and_build 100 defaults).2).
Proof.
  apply (build_again Examples.testing_segy 1%positive 1%positive
           (Examples.store0 100 defaults)).
  vm_compute. reflexivity.
Defined.

(** X15.  A [build] that raises after the velocity model was read (at the
    gradation step or at the positivity check) has already replaced [vp],
    [nz] and [nx] of the receiver by what it read; nothing else changed. *)
Theorem build_failure_after_read (fs : filesystem) (self : loc) (σ σ' : store)
    (o : obj) (_vp : Np.matrix) (n k : nat) (e : exn) :
  σ !! self = Some o → well_formed o →
  ReadVelocityModel fs o = Ok (_vp, n, k) →
  build fs self σ = (Raise e, σ') →
  σ' = <[self := set_nx k (set_nz n (set_vp _vp o))]> σ.
Proof.
  intros Hσ Hwf Hread Hbuild. pose proof (well_formed_bbox o Hwf) as Hb.
  destruct (BuildFacts.build_loaded fs self σ o _vp n k Hσ Hb Hread)
    as (width & z & x & _ & _ & Heq).
  rewrite Heq in Hbuild. destruct (gradation _ _ _ _) as [hh|e0].
  - cbv zeta in Hbuild. destruct (Np.all _); [discriminate|].
    by injection Hbuild as _ <-.
  - by injection Hbuild as _ <-.
Qed.

Lemma build_failure_after_read_example :
  let o := Examples.instance 100 Examples.example_kwargs in
  (build Examples.testing_segy 1%positive (Examples.store0 100 Examples.example_kwargs)).2
  = <[1%positive := set_nx 2 (set_nz 3 (set_vp (replicate 3 (replicate 2 2000%float)) o))]>
      (Examples.store0 100 Examples.example_kwargs).
Proof.
  intros o.
  apply (build_failure_after_read Examples.testing_segy 1%positive
           (Examples.store0 100 Examples.example_kwargs) _ o
           (replicate 3 (replicate 2 2000%float)) 3 2
           (AttributeError "_MeshSizeFunction__hj")).
  - reflexivity.
  - split; [simpl; lia|reflexivity].
  - reflexivity.
  - vm_compute. reflexivity.
Defined.

End BuildProperties.

(** ** The invariant of the class *)

Module SessionProperties.
Import MeshSizeFunction ShapeFacts Session.

Lemma insert_well_formed (σ : store) (l : loc) (o : obj) :
  all_well_formed σ → well_formed o → all_well_formed (<[l := o]> σ).
Proof.
  intros Hσ Ho l' o' Hl'. destruct (decide (l' = l)) as [->|Hne].
  - rewrite lookup_insert_eq in Hl'. by injection Hl' as <-.
  - rewrite lookup_insert_ne in Hl' by done. eauto.
Qed.

(** An assignment that leaves [bbox] and [hmin] alone. *)
Lemma write_well_formed (σ : store) (l : loc) (f : obj → obj) :
  (∀ o, bbox (f o) = bbox o ∧ hmin (f o) = hmin o) →
  all_well_formed σ → all_well_formed (write l f σ).2.
Proof.
  intros Hf Hσ. unfold write. destruct (σ !! l) as [o|] eqn:E; [|exact Hσ].
  apply insert_well_formed; [exact Hσ|].
  destruct (Hf o) as [Hb Hh]. destruct (Hσ l o E) as [? ?].
  split; [by rewrite Hb|by rewrite Hh].
Qed.

Lemma exec_well_formed (fs : filesystem) (s : stmt) (σ : store) :
  all_well_formed σ → all_well_formed (exec fs s σ).
Proof.
  intros Hσ. destruct s as [b h g kw|l v|l v|l v|l v|l v|l v|l v|l v|l v|l v|l v|l v|l v|l v|l];
    cbn [exec]; try (apply write_well_formed; [intros o; split; reflexivity|exact Hσ]).
  - unfold new, init, bbox_setter, hmin_setter, segy_setter.
    destruct (bool_decide (4 ≤ length b)) eqn:E1; [|exact Hσ].
    destruct (bool_decide (length b ≤ 6)) eqn:E2; [|exact Hσ].
    destruct (0 <? h)%float eqn:E3; [|exact Hσ].
    destruct g; try exact Hσ. cbn.
    apply insert_well_formed; [exact Hσ|].
    apply bool_decide_eq_true in E1, E2. split; [simpl; lia|exact E3].
  - unfold assign_bbox, mbind, M_bind, lift, bbox_setter.
    destruct (bool_decide (4 ≤ length v)) eqn:E1; [|exact Hσ].
    destruct (bool_decide (length v ≤ 6)) eqn:E2; [|exact Hσ].
    cbn [andb]. unfold write. destruct (σ !! l) as [o|] eqn:E; [|exact Hσ].
    apply insert_well_formed; [exact Hσ|].
    apply bool_decide_eq_true in E1, E2. destruct (Hσ l o E) as [_ ?].
    split; [simpl; lia|assumption].
  - unfold assign_hmin, mbind, M_bind, lift, hmin_setter.
    destruct (0 <? v)%float eqn:E3; [|exact Hσ].
    unfold write. destruct (σ !! l) as [o|] eqn:E; [|exact Hσ].
    apply insert_well_formed; [exact Hσ|].
    destruct (Hσ l o E) as [? _]. split; assumption.
  - unfold assign_segy, mbind, M_bind, lift, segy_setter.
    destruct v; try exact Hσ.
    apply write_well_formed; [intros o; split; reflexivity|exact Hσ].
  - destruct (build_store fs l σ) as [->|(o & o' & Ho & -> & Hcfg & _)]; [exact Hσ|].
    apply insert_well_formed; [exact Hσ|].
    destruct Hcfg as (Hb & Hh & _). destruct (Hσ l o Ho) as [? ?].
    split; [by rewrite Hb|by rewrite Hh].
Qed.

(** X10.  Whatever a program does with the class (constructing instances,
    assigning to any attribute, calling [build], catching the exceptions),
    every instance it holds keeps a bounding box of 4 to 6 values and a
    strictly positive [hmin], provided the instances it started with do. *)
Theorem session_well_formed (fs : filesystem) (ss : list stmt) (σ : store) :
  (∀ l o, σ !! l = Some o → well_formed o) →
  ∀ l o, run fs ss σ !! l = Some o → well_formed o.
Proof.
  revert σ. induction ss as [|s ss IH]; intros σ Hσ; [exact Hσ|].
  cbn [run foldl]. apply IH. by apply exec_well_formed.
Qed.

Lemma session_well_formed_example :
  ∃ o,
    Session.run Examples.testing_segy
      [AssignHmin 1%positive (-5)%float; CallBuild 1%positive;
       AssignBbox 1%positive []; Construct [] 1%float (PyStr "a") defaults;
       AssignHmax 1%positive 0%float]
      (Examples.store0 100 defaults) !! 1%positive = Some o ∧
    well_formed o.
Proof.
  eexists. split; [vm_compute; reflexivity|].
  apply (session_well_formed Examples.testing_segy
           [AssignHmin 1%positive (-5)%float; CallBuild 1%positive;
            AssignBbox 1%positive []; Construct [] 1%float (PyStr "a") defaults;
            AssignHmax 1%positive 0%float]
           (Examples.store0 100 defaults)) with (l := 1%positive).
  - intros l o Hl. unfold Examples.store0 in Hl.
    apply lookup_singleton_Some in Hl as [<- <-]. split; [simpl; lia|reflexivity].
  - vm_compute. reflexivity.
Defined.

End SessionProperties.

(** ** Reading attributes, and the test of the repository *)

Module InterfaceProperties.
Import MeshSizeFunction ShapeFacts BuildProperties.

Lemma getattr_public_hh (o : obj) : getattr_public o "hh" = Raise (AttributeError "hh").
Proof. reflexivity. Qed.

(** X11.  [test_hmin] cannot pass: on every file system and from every
    store it raises.  When the construction and the build go through, it is
    the read of [ef.hh] that raises [AttributeError]: the class has no such
    attribute (the field is [ef.fh.values]). *)
Theorem test_hmin_raises (fs : filesystem) (σ : store) :
  ∃ e σ',
    test_hmin.test_hmin fs σ = (Raise e, σ') ∧
    ∀ l σ1,
      (ef ← new Examples.test_bbox 100 (PyStr "testing.segy")
              {| kw_wl := 5; kw_freq := kw_freq defaults; kw_hmax := kw_hmax defaults;
                 kw_dt := kw_dt defaults; kw_cr_max := kw_cr_max defaults;
                 kw_grade := kw_grade defaults |};
       build fs ef) σ = (Ok l, σ1) →
      e = AttributeError "hh" ∧ σ' = σ1.
Proof.
  unfold test_hmin.test_hmin. cbv zeta.
  change [(-1000)%float; 0%float; 0%float; 1000%float] with Examples.test_bbox.
  set (kw := {| kw_wl := 5; kw_freq := kw_freq defaults; kw_hmax := kw_hmax defaults;
                kw_dt := kw_dt defaults; kw_cr_max := kw_cr_max defaults;
                kw_grade := kw_grade defaults |}).
  unfold mbind, M_bind.
  destruct (new Examples.test_bbox 100 (PyStr "testing.segy") kw σ) as [[l0|e0] σ0];
    [|eexists _, _; split; [reflexivity|discriminate]].
  destruct (build fs l0 σ0) as [[l|e] σ1] eqn:Hbuild;
    [|eexists _, _; split; [reflexivity|discriminate]].
  destruct (build_Ok_grid fs l0 l σ0 σ1 Hbuild)
    as (o & _vp & n & k & z & x & _ & _ & _ & _ & _ & _ & -> & ->).
  unfold read, lift. rewrite lookup_insert_eq, getattr_public_hh.
  eexists _, _. split; [reflexivity|]. intros l σ1 [= <- <-]. auto.
Qed.

(** X12.  On a freshly constructed instance reading [vp] raises
    [AttributeError] ([__init__] never assigns it), while [nz], [nx], [fh]
    and [fd] read as [None]; once [build] has returned, [vp] reads as an
    array. *)
Theorem vp_unset_until_build (bbox_ : list float) (hmin_ : float) (segy_ : Py.value)
    (kw : kwargs) (σ σ' : store) (l : loc) :
  new bbox_ hmin_ segy_ kw σ = (Ok l, σ') →
  ∃ o, σ' !! l = Some o ∧
    getattr_public o "vp" = Raise (AttributeError "_MeshSizeFunction__vp") ∧
    getattr_public o "nz" = Ok AttrNone ∧ getattr_public o "nx" = Ok AttrNone ∧
    getattr_public o "fh" = Ok AttrNone ∧ getattr_public o "fd" = Ok AttrNone ∧
    ∀ fs l' σ'', build fs l σ' = (Ok l', σ'') →
      ∃ o' v, σ'' !! l' = Some o' ∧ getattr_public o' "vp" = Ok (AttrArray v).
Proof.
  unfold new. destruct (init bbox_ hmin_ segy_ kw) as [o|e] eqn:Hinit; [|discriminate].
  intros [= <- <-]. exists o. split; [apply lookup_insert_eq|].
  assert (Hnone : vp o = None ∧ nz o = None ∧ nx o = None ∧ fh o = None ∧ fd o = None).
  { unfold init in Hinit.
    destruct (bbox_setter bbox_); [|discriminate].
    destruct (hmin_setter hmin_); [|discriminate].
    destruct (segy_setter segy_); [|discriminate].
    injection Hinit as <-. auto. }
  destruct Hnone as (Hvp & Hnz & Hnx & Hfh & Hfd).
  unfold getattr_public, property_get. cbn. rewrite Hvp, Hnz, Hnx, Hfh, Hfd.
  do 5 (split; [reflexivity|]).
  intros fs l' σ'' Hbuild.
  destruct (build_Ok_grid fs _ l' _ σ'' Hbuild)
    as (o1 & _vp & n & k & z & x & _ & _ & _ & _ & _ & _ & -> & ->).
  eexists _, _vp. split; [apply lookup_insert_eq|]. reflexivity.
Qed.

Lemma vp_unset_until_build_example :
  ∃ o, (new Examples.test_bbox 100 (PyStr "testing.segy") defaults ∅).2 !! 1%positive
       = Some o ∧
    getattr_public o "vp" = Raise (AttributeError "_MeshSizeFunction__vp") ∧
    getattr_public o "nz" = Ok AttrNone ∧ getattr_public o "nx" = Ok AttrNone ∧
    getattr_public o "fh" = Ok AttrNone ∧ getattr_public o "fd" = Ok AttrNone ∧
    ∀ fs l' σ'',
      build fs 1%positive
        (new Examples.test_bbox 100 (PyStr "testing.segy") defaults ∅).2 = (Ok l', σ'') →
      ∃ o' v, σ'' !! l' = Some o' ∧ getattr_public o' "vp" = Ok (AttrArray v).
Proof.
  apply (vp_unset_until_build Examples.test_bbox 100 (PyStr "testing.segy") defaults ∅).
  vm_compute. reflexivity.
Defined.

End InterfaceProperties.

(** ** The conversions of the limiter's wrapper *)

Module RoundTrip.
Import FastHJ gradient_limiter LimiterFacts WrapperFacts.

Section Matrices.
Context {T : Type}.
Variables nz nx : nat.

(** Two arrays of the same shape with the same cells are the same array. *)
Lemma rectangular_ext (a b : list (list T)) :
  Spec.rectangular a nz nx → Spec.rectangular b nz nx →
  (∀ i j, i < nz → j < nx → Np.cell a i j = Np.cell b i j) →
  a = b.
Proof.
  intros [Hla Hra] [Hlb Hrb] Hcell. apply list_eq. intros i.
  destruct (decide (i < nz)) as [Hi|Hi].
  - destruct (lookup_lt_is_Some_2 a i ltac:(lia)) as [r Hr].
    destruct (lookup_lt_is_Some_2 b i ltac:(lia)) as [r' Hr'].
    rewrite Hr, Hr'. f_equal.
    assert (length r = nx) by (eapply Forall_lookup_1 in Hra; eauto).
    assert (length r' = nx) by (eapply Forall_lookup_1 in Hrb; eauto).
    apply list_eq. intros j. destruct (decide (j < nx)) as [Hj|Hj].
    + specialize (Hcell i j Hi Hj). unfold Np.cell in Hcell.
      by rewrite Hr, Hr' in Hcell.
    + rewrite !lookup_ge_None_2; [done|lia|lia].
  - rewrite !lookup_ge_None_2; [done|lia|lia].
Qed.

(** X13.  The two conversions of the wrapper [hj] are inverse to each
    other: flattening an [nz] by [nx] array column by column and reshaping
    the list in the same order gives the array back, and reshaping a list of
    [nz * nx] values and flattening the array gives the list back.  So the
    wrapper changes a field only through the kernel. *)
Theorem reshape_flatten_inverse (m : list (list T)) (l : list T) :
  Spec.rectangular m nz nx → length l = nz * nx →
  reshape_F nz nx (flatten_F nz nx m) = Ok m ∧
  ∃ m', reshape_F nz nx l = Ok m' ∧ flatten_F nz nx m' = l.
Proof.
  intros Hm Hl. split.
  - destruct (flatten_F_lookup nz nx m Hm) as [Hlen Hflat].
    destruct (reshape_F_lookup nz nx _ Hlen) as (m' & -> & Hm' & Hcell).
    f_equal. apply rectangular_ext; [assumption..|].
    intros i j Hi Hj. rewrite Hcell, Hflat by assumption. reflexivity.
  - destruct (reshape_F_lookup nz nx l Hl) as (m' & -> & Hm' & Hcell).
    exists m'. split; [reflexivity|].
    destruct (flatten_F_lookup nz nx m' Hm') as [Hlen Hflat].
    apply list_eq. intros k. destruct (decide (k < nz * nx)) as [Hk|Hk].
    + destruct (cell_in_grid nz nx k Hk) as [Hi Hj].
      rewrite <- (index_decompose nz k).
      rewrite Hflat, Hcell by assumption. reflexivity.
    + rewrite !lookup_ge_None_2; [done|lia|lia].
Qed.

End Matrices.

Lemma reshape_flatten_inverse_example :
  reshape_F 2 3 (flatten_F 2 3 [[1%float; 2%float; 3%float]; [4%float; 5%float; 6%float]])
  = Ok [[1%float; 2%float; 3%float]; [4%float; 5%float; 6%float]] ∧
  ∃ m', reshape_F 2 3 (Np.of_nat <$> seq 0 6) = Ok m' ∧
        flatten_F 2 3 m' = Np.of_nat <$> seq 0 6.
Proof.
  apply (reshape_flatten_inverse 2 3); [|reflexivity].
  split; [reflexivity|]. repeat constructor.
Defined.

End RoundTrip.

(** ** The signed distance to the rectangle *)

Module DistanceFacts.
Import MeshSizeFunction.

Lemma SFcompare_le_lt_trans (x y z : spec_float) :
  SFcompare x y = Some Lt ∨ SFcompare x y = Some Eq →
  SFcompare y z = Some Lt → SFcompare x z = Some Lt.
Proof.
  intros [Hxy|Hxy]; [by apply F64.SFcompare_lt_trans|]. revert Hxy.
  destruct x as [sx|sx| |sx mx ex], y as [sy|sy| |sy my ey],
    z as [sz|sz| |sz mz ez]; simpl; try discriminate;
    try (destruct sx; discriminate || reflexivity);
    try (destruct sy; discriminate || reflexivity);
    try (destruct sz; discriminate || reflexivity);
    try (destruct sx, sy; discriminate || (intros; assumption) || reflexivity);
    try (destruct sy, sz; discriminate || (intros; assumption) || reflexivity);
    try (destruct sx, sz; discriminate || (intros; assumption) || reflexivity);
    try (destruct sx, sy, sz; discriminate || (intros; assumption) || reflexivity).
  change (Pos.compare_cont Eq mx my) with (mx ?= my)%positive.
  change (Pos.compare_cont Eq my mz) with (my ?= mz)%positive.
  change (Pos.compare_cont Eq mx mz) with (mx ?= mz)%positive.
  destruct sx, sy, sz; try discriminate; try reflexivity;
    destruct (Z.compare_spec ex ey), (Z.compare_spec ey ez), (Z.compare_spec ex ez);
    try discriminate; try reflexivity; try lia;
    destruct (Pos.compare_spec mx my), (Pos.compare_spec my mz), (Pos.compare_spec mx mz);
    simpl; try discriminate; try reflexivity; try lia.
Qed.

Lemma leb_ltb_trans (x y z : float) :
  (x <=? y)%float = true → (y <? z)%float = true → (x <? z)%float = true.
Proof.
  rewrite FloatAxioms.leb_spec, !FloatAxioms.ltb_spec. unfold SFleb, SFltb.
  intros Hxy Hyz.
  rewrite (SFcompare_le_lt_trans (Prim2SF x) (Prim2SF y) (Prim2SF z)); [reflexivity| |].
  - destruct (SFcompare (Prim2SF x) (Prim2SF y)) as [[]|]; auto; discriminate.
  - destruct (SFcompare (Prim2SF y) (Prim2SF z)) as [[]|]; congruence.
Qed.

Lemma ltb_leb_trans (x y z : float) :
  (x <? y)%float = true → (y <=? z)%float = true → (x <? z)%float = true.
Proof.
  intros Hxy Hyz. destruct (x <? z)%float eqn:Hxz; [reflexivity|].
  destruct (F64.ltb_not_nan _ _ Hxy) as [Hx Hy].
  assert (Hz : is_nan z = false).
  { apply F64.not_nan_spec. intros Hz.
    rewrite FloatAxioms.leb_spec in Hyz. unfold SFleb in Hyz. rewrite Hz in Hyz.
    destruct (Prim2SF y); discriminate. }
  pose proof (F64.ltb_false_leb x z Hx Hz Hxz) as Hzx.
  pose proof (leb_ltb_trans z x y Hzx Hxy) as Hzy.
  rewrite (F64.leb_ltb_false y z Hyz) in Hzy. discriminate.
Qed.

(** Negation mirrors the order around zero. *)
Lemma opp_ltb_zero (m : float) : (- m <? 0)%float = (0 <? m)%float.
Proof.
  rewrite !FloatAxioms.ltb_spec, FloatAxioms.opp_spec. unfold SFltb.
  change (Prim2SF 0) with (S754_zero false).
  destruct (Prim2SF m) as [s|s| |s mm e]; try destruct s; reflexivity.
Qed.

Lemma zero_ltb_opp (m : float) : (0 <? - m)%float = (m <? 0)%float.
Proof.
  rewrite !FloatAxioms.ltb_spec, FloatAxioms.opp_spec. unfold SFltb.
  change (Prim2SF 0) with (S754_zero false).
  destruct (Prim2SF m) as [s|s| |s mm e]; try destruct s; reflexivity.
Qed.

Section Min2.
Variables x y : float.
Hypothesis Hx : is_nan x = false.
Hypothesis Hy : is_nan y = false.

Lemma min2_not_nan : is_nan (min2 x y) = false.
Proof. unfold min2. by destruct (y <? x)%float. Qed.

Lemma min2_positive (c : float) :
  (c <? min2 x y)%float = true ↔ (c <? x)%float = true ∧ (c <? y)%float = true.
Proof.
  unfold min2. destruct (y <? x)%float eqn:E.
  - split; [|tauto]. intros Hc. split; [|exact Hc]. by apply (F64.ltb_trans c y x).
  - split; [|tauto]. intros Hc. split; [exact Hc|].
    apply (ltb_leb_trans c x y Hc). by apply F64.ltb_false_leb.
Qed.

Lemma min2_negative (c : float) :
  (min2 x y <? c)%float = true ↔ (x <? c)%float = true ∨ (y <? c)%float = true.
Proof.
  unfold min2. destruct (y <? x)%float eqn:E.
  - split; [tauto|]. intros [Hc|Hc]; [|exact Hc]. by apply (F64.ltb_trans y x c).
  - split; [tauto|]. intros [Hc|Hc]; [exact Hc|].
    apply (leb_ltb_trans x y c); [|exact Hc]. by apply F64.ltb_false_leb.
Qed.

End Min2.

End DistanceFacts.

Module DistanceProperties.
Import MeshSizeFunction DistanceFacts.

(** X14.  The sign of [__drectangle], when none of the four offsets is a
    NaN: the value is negative exactly when all four offsets are positive
    (the point is strictly inside), and positive exactly when some offset is
    negative (the point is strictly outside). *)
Theorem drectangle_sign (p : float * float) (x1 x2 y1 y2 : float) :
  Forall (fun a => is_nan a = false) (drectangle_offsets p x1 x2 y1 y2) →
  ((drectangle p x1 x2 y1 y2 <? 0)%float = true ↔
   Forall (fun a => (0 <? a)%float = true) (drectangle_offsets p x1 x2 y1 y2)) ∧
  ((0 <? drectangle p x1 x2 y1 y2)%float = true ↔
   Exists (fun a => (a <? 0)%float = true) (drectangle_offsets p x1 x2 y1 y2)).
Proof.
  unfold drectangle_offsets, drectangle.
  set (a := (- y1 + p.2)%float). set (b := (y2 - p.2)%float).
  set (c := (- x1 + p.1)%float). set (d := (x2 - p.1)%float).
  intros Hnan. rewrite !Forall_cons in Hnan. destruct Hnan as (Ha & Hb & Hc & Hd & _).
  pose proof (min2_not_nan a b Ha Hb) as Hab.
  pose proof (min2_not_nan _ c Hab Hc) as Habc.
  rewrite opp_ltb_zero, zero_ltb_opp.
  rewrite (min2_positive _ d Habc Hd), (min2_positive _ c Hab Hc), (min2_positive a b Ha Hb).
  rewrite (min2_negative _ d Habc Hd), (min2_negative _ c Hab Hc), (min2_negative a b Ha Hb).
  rewrite !Forall_cons, !Exists_cons, Forall_nil, Exists_nil. tauto.
Qed.

Lemma drectangle_sign_example :
  ((drectangle ((-500)%float, 500%float) (-1000) 0 0 1000 <? 0)%float = true ↔
   Forall (fun a => (0 <? a)%float = true)
     (drectangle_offsets ((-500)%float, 500%float) (-1000) 0 0 1000)) ∧
  ((0 <? drectangle ((-500)%float, 500%float) (-1000) 0 0 1000)%float = true ↔
   Exists (fun a => (a <? 0)%float = true)
     (drectangle_offsets ((-500)%float, 500%float) (-1000) 0 0 1000)).
Proof.
  apply (drectangle_sign ((-500)%float, 500%float) (-1000) 0 0 1000).
  repeat constructor.
Defined.

End DistanceProperties.
